(** * The Mario-style game of [code.py]: model and checked properties

    The game is a CircuitPython script.  Its numbers are Python ints and
    floats; the model takes every coordinate, velocity and sensor reading as
    an exact rational ([Q]) and every counter (lives, score, frame counters)
    as an integer ([Z]).  Constants keep the names of the script. Objects
    that the script mutates in place become records that are passed through
    the update functions. *)

From Stdlib Require Import QArith Qabs Qminmax Qpower Qround ZArith List Bool Lia Lqa.
Import ListNotations.

Local Open Scope Q_scope.

(** ** Comparisons on rationals, as booleans *)

Definition Qltb (a b : Q) : bool := negb (Qle_bool b a).
Definition Qgtb (a b : Q) : bool := Qltb b a.
Definition Qgeb (a b : Q) : bool := Qle_bool b a.

(** Python's [min(a, b)] and [max(a, b)]: the first argument is kept unless
    the second is strictly smaller (larger). *)
Definition py_min (a b : Q) : Q := if Qltb b a then b else a.
Definition py_max (a b : Q) : Q := if Qgtb b a then b else a.

(** ** Binary64 arithmetic

    A finite Python float is an integer of at most 53 bits times a power of
    two, hence a rational, and an operation on floats returns the exact
    result rounded to the nearest such number, ties going to the even
    mantissa.  [fl] is that rounding on rationals, with the gradual
    underflow of the format.  Overflow to infinity is left out: the
    magnitudes met in the game stay far below [2^1024]. *)

Module F64.

(** The exponent of the smallest positive float. *)
Definition emin : Z := -1074.

(** For [q > 0], the [e] with [2^e <= q < 2^(e+1)]. *)
Definition binade (q : Q) : Z :=
  let e0 := (Z.log2 (Qnum q) - Z.log2 (Z.pos (Qden q)))%Z in
  if Qle_bool (2 ^ e0) q then e0 else (e0 - 1)%Z.

(** Rounding to the nearest integer, ties to even. *)
Definition rne (q : Q) : Z :=
  let f := Qfloor q in
  match Qcompare (q - inject_Z f) (1 # 2) with
  | Lt => f
  | Gt => (f + 1)%Z
  | Eq => if Z.even f then f else (f + 1)%Z
  end.

(** The exponent of the last bit of a float in the binade of [q]. *)
Definition grid (q : Q) : Z := Z.max (binade q - 52) emin.

Definition round_pos (q : Q) : Q :=
  let u := 2 ^ grid q in Qred (inject_Z (rne (q / u)) * u).

Definition fl (q : Q) : Q :=
  let r := Qred q in
  match Qnum r with
  | Z0 => 0
  | Zpos _ => round_pos r
  | Zneg _ => - round_pos (- r)
  end.

(** The operations of Python on floats. *)
Definition add (a b : Q) : Q := fl (a + b).
Definition sub (a b : Q) : Q := fl (a - b).
Definition mul (a b : Q) : Q := fl (a * b).
Definition div (a b : Q) : Q := fl (a / b).

(** The finite floats. *)
Definition representable (x : Q) : Prop :=
  exists n k : Z,
    (Z.abs n <= 2 ^ 53)%Z /\ (emin <= k)%Z /\ x == inject_Z n * 2 ^ k.


End F64.

(** ** Constants of the script *)

Definition DISPLAY_WIDTH : Z := 240.
Definition DISPLAY_HEIGHT : Q := 135.

Definition GRAVITY : Q := 6 # 10.
Definition JUMP_STRENGTH : Q := -10.
Definition MOVE_SPEED : Q := 25 # 10.
Definition RUN_SPEED : Q := 45 # 10.
Definition GROUND_Y : Q := 105.

(** The literal [0.8] is the float nearest to 8/10. *)
Definition TILT_DEADZONE : Q := F64.fl (8 # 10).
Definition TILT_MAX : Q := 6.
Definition CALIBRATION_SAMPLES : nat := 30.

Definition MARIO_WIDTH : Q := 16.
Definition MARIO_HEIGHT : Q := 16.
Definition ENEMY_WIDTH : Q := 16.
Definition ENEMY_HEIGHT : Q := 16.
Definition BLOCK_SIZE : Z := 16.

(** The level is [2200] wide; the script writes the number out. *)
Definition WORLD_WIDTH : Z := 2200.

(** ** Camera *)

Module Camera.

Record t : Type := mk {
  x : Q;
  target_x : Q;
  smoothing : Q
}.

(** [Camera.__init__] *)
Definition init : t :=
  {| x := 0; target_x := 0; smoothing := F64.fl (2 # 10) |}.

Definition max_scroll : Q := inject_Z (WORLD_WIDTH - DISPLAY_WIDTH).

(** [Camera.update(mario_x)] *)
Definition update (c : t) (mario_x : Q) : t :=
  let target0 := F64.sub mario_x (inject_Z (DISPLAY_WIDTH / 3)) in
  let target := py_max 0 (py_min target0 max_scroll) in
  {| x := F64.add (x c) (F64.mul (F64.sub target (x c)) (smoothing c));
     target_x := target;
     smoothing := smoothing c |}.

(** The camera after a sequence of [update] calls, one per player x. *)
Definition run (c : t) (xs : list Q) : t := fold_left update xs c.

(** The invariant of the follow filter. *)
Definition in_range (c : t) : Prop :=
  0 <= x c /\ x c <= max_scroll /\ smoothing c = F64.fl (2 # 10).

End Camera.

(** ** Platforms and coins *)

Inductive BlockType : Type := Brick | Question | Pipe.

Module Platform.

Record t : Type := mk {
  x : Q;
  y : Q;
  width : Q;
  height : Q;
  block_type : BlockType
}.

End Platform.

Module Coin.

Record t : Type := mk {
  x : Q;
  y : Q;
  collected : bool
}.

(** [Coin.__init__] *)
Definition init (x0 y0 : Q) : t := {| x := x0; y := y0; collected := false |}.

(** A coin and what a later state of the session holds in its place: it has
    not moved and, once collected, is collected still. *)
Definition grows (c c' : t) : Prop :=
  x c' = x c /\ y c' = y c /\ (collected c = true -> collected c' = true).

End Coin.

(** [check_collision]: overlap of two axis-aligned boxes. *)
Definition check_collision (x1 y1 w1 h1 x2 y2 w2 h2 : Q) : bool :=
  Qltb x1 (x2 + w2) && Qgtb (x1 + w1) x2 &&
  Qltb y1 (y2 + h2) && Qgtb (y1 + h1) y2.

(** ** Enemy *)

Module Enemy.

Record t : Type := mk {
  x : Q;
  y : Q;
  width : Q;
  height : Q;
  vel_x : Q;
  vel_y : Q;
  alive : bool;
  on_ground : bool;
  sprite_frame : Z;
  frame_counter : Z
}.

(** [Enemy.__init__] *)
Definition init (x0 y0 : Q) : t :=
  {| x := x0; y := y0; width := ENEMY_WIDTH; height := ENEMY_HEIGHT;
     vel_x := -1; vel_y := 0; alive := true; on_ground := false;
     sprite_frame := 0; frame_counter := 0 |}.

Definition nearby_range : Q := 100.

(** The guard [abs(platform.x - self.x) > nearby_range] of both loops. *)
Definition far (e : t) (p : Platform.t) : bool :=
  Qgtb (Qabs (Platform.x p - x e)) nearby_range.

(** First lines of [update]: one step of motion under gravity, and
    [on_ground] cleared before the platform loops. *)
Definition move (e : t) : t :=
  let vy := vel_y e + GRAVITY in
  {| x := x e + vel_x e; y := y e + vy; width := width e; height := height e;
     vel_x := vel_x e; vel_y := vy; alive := alive e; on_ground := false;
     sprite_frame := sprite_frame e; frame_counter := frame_counter e |}.

(** The test of the first loop: the enemy stands on or has sunk a little
    into the platform while not moving up. *)
Definition lands_on (e : t) (p : Platform.t) : bool :=
  Qgtb (x e + width e) (Platform.x p) &&
  Qltb (x e) (Platform.x p + Platform.width p) &&
  Qgeb (vel_y e) 0 &&
  Qgeb (y e + height e) (Platform.y p) &&
  Qle_bool (y e + height e) (Platform.y p + Platform.height p + 5).

Definition land (e : t) (p : Platform.t) : t :=
  {| x := x e; y := Platform.y p - height e; width := width e;
     height := height e; vel_x := vel_x e; vel_y := 0; alive := alive e;
     on_ground := true; sprite_frame := sprite_frame e;
     frame_counter := frame_counter e |}.

(** First loop of [update]; it stops at the first platform landed on. *)
Fixpoint landing_loop (e : t) (ps : list Platform.t) : t :=
  match ps with
  | [] => e
  | p :: ps' =>
      if far e p then landing_loop e ps'
      else if lands_on e p then land e p
      else landing_loop e ps'
  end.

(** The test of the second loop: horizontal overlap with a platform whose
    bottom edge is above the enemy's bottom edge. *)
Definition bumps (e : t) (p : Platform.t) : bool :=
  Qgtb (x e + width e) (Platform.x p) &&
  Qltb (x e) (Platform.x p + Platform.width p) &&
  Qgtb (y e + height e) (Platform.y p + Platform.height p).

Definition bounce (e : t) (p : Platform.t) : t :=
  let x' := if Qgtb (vel_x e) 0
            then Platform.x p - width e
            else Platform.x p + Platform.width p in
  {| x := x'; y := y e; width := width e; height := height e;
     vel_x := vel_x e * -1; vel_y := vel_y e; alive := alive e;
     on_ground := on_ground e; sprite_frame := sprite_frame e;
     frame_counter := frame_counter e |}.

(** Second loop of [update]; it stops at the first wall hit. *)
Fixpoint wall_loop (e : t) (ps : list Platform.t) : t :=
  match ps with
  | [] => e
  | p :: ps' =>
      if far e p then wall_loop e ps'
      else if bumps e p then bounce e p
      else wall_loop e ps'
  end.

Definition animate (e : t) : t :=
  let fc := (frame_counter e + 1)%Z in
  let '(sf, fc') := if (fc >=? 15)%Z then ((1 - sprite_frame e)%Z, 0%Z)
                    else (sprite_frame e, fc) in
  {| x := x e; y := y e; width := width e; height := height e;
     vel_x := vel_x e; vel_y := vel_y e; alive := alive e;
     on_ground := on_ground e; sprite_frame := sf; frame_counter := fc' |}.

(** The last test of [update]: the enemy is more than [50] below the
    screen. *)
Definition below_screen (e : t) : bool := Qgtb (y e) (DISPLAY_HEIGHT + 50).

(** [Enemy.update(platforms)]: the returned flag and the enemy after the
    call. *)
Definition update (e : t) (platforms : list Platform.t) : bool * t :=
  if negb (alive e) then (false, e)
  else
    let e1 := move e in
    let e2 := landing_loop e1 platforms in
    let e3 := wall_loop e2 platforms in
    let e4 := animate e3 in
    (below_screen e4, e4).

(** The enemies that a pass of [update] over a list leaves in it when
    nothing else touches them: each one updated, those flagged dropped. *)
Definition survivors (platforms : list Platform.t) (es : list t) : list t :=
  flat_map (fun e => let '(gone, e') := update e platforms in
                     if gone then [] else [e']) es.

(** The first platform that the second loop of [update] reacts to. *)
Definition first_wall (e : t) (ps : list Platform.t) : option Platform.t :=
  find (fun p => negb (far e p) && bumps e p) ps.

(** The enemy after [n] calls of [update] that nothing else interferes
    with. *)
Fixpoint patrol (n : nat) (e : t) (ps : list Platform.t) : t :=
  match n with
  | O => e
  | S n' => patrol n' (snd (update e ps)) ps
  end.

(** The flags and the enemies that [n] successive calls of [update]
    return. *)
Fixpoint trace (n : nat) (e : t) (ps : list Platform.t) : list (bool * t) :=
  match n with
  | O => []
  | S n' => let r := update e ps in r :: trace n' (snd r) ps
  end.

(** [Enemy.stomp] *)
Definition stomp (e : t) : t :=
  {| x := x e; y := y e; width := width e; height := height e;
     vel_x := vel_x e; vel_y := vel_y e; alive := false;
     on_ground := on_ground e; sprite_frame := sprite_frame e;
     frame_counter := frame_counter e |}.

(** An enemy that the session keeps in its list, and what it keeps in its
    place after a frame: the enemy as its own update left it, marked dead
    or not. *)
Definition kept_as (platforms : list Platform.t) (e e' : t) : Prop :=
  e' = snd (update e platforms) \/ e' = stomp (snd (update e platforms)).

(** The enemies of a list that their own update does not flag. *)
Definition unflagged (platforms : list Platform.t) (es : list t) : list t :=
  filter (fun e => negb (fst (update e platforms))) es.

End Enemy.

(** ** Level *)

(** Python's [range(start, stop, step)] for a positive step. *)
Definition py_range (start stop step : Z) : list Z :=
  let n := Z.to_nat ((stop - start + step - 1) / step) in
  map (fun i => (start + step * Z.of_nat i)%Z) (seq 0 n).

Module Level.

Record t : Type := mk {
  platforms : list Platform.t;
  enemies : list Enemy.t;
  coins : list Coin.t
}.

Definition block (x0 y0 : Z) (h : Z) (b : BlockType) : Platform.t :=
  Platform.mk (inject_Z x0) (inject_Z y0) (inject_Z BLOCK_SIZE) (inject_Z h) b.

Definition ground_top : Z := 105 + 15.

(** The platforms of [create_level], in the order they are appended. *)
Definition create_platforms : list Platform.t :=
  map (fun i => block i ground_top BLOCK_SIZE Brick) (py_range 0 2200 BLOCK_SIZE)
  ++ map (fun x0 => block x0 70 BLOCK_SIZE Question) [200; 250; 300]%Z
  ++ map (fun x0 => block x0 80 BLOCK_SIZE Brick) (py_range 400 550 BLOCK_SIZE)
  ++ map (fun x0 => block x0 60 BLOCK_SIZE Brick) (py_range 700 800 BLOCK_SIZE)
  ++ [block 900 90 (BLOCK_SIZE * 3) Pipe]
  ++ map (fun x0 => block x0 70 BLOCK_SIZE Brick) (py_range 1100 1250 BLOCK_SIZE)
  ++ map (fun x0 =>
            let y_offset := ((x0 - 1400) / BLOCK_SIZE * BLOCK_SIZE)%Z in
            block x0 (105 - y_offset) BLOCK_SIZE Brick)
         (py_range 1400 1550 BLOCK_SIZE)
  ++ map (fun x0 => block x0 50 BLOCK_SIZE Brick) (py_range 1700 1900 BLOCK_SIZE)
  ++ [block 2050 70 (BLOCK_SIZE * 2) Pipe].

Definition create_enemies : list Enemy.t :=
  map (fun x0 => Enemy.init (inject_Z x0) GROUND_Y)
      [150; 350; 600; 950; 1200; 1500; 1800]%Z.

Definition create_coins : list Coin.t :=
  map (fun x0 => Coin.init (inject_Z x0) 50) [225; 275; 475; 525]%Z
  ++ [Coin.init 750 30; Coin.init 1175 50; Coin.init 1450 30;
      Coin.init 1750 30].

(** The second enemy of the level, spawned at [x = 350], after its first
    34 updates: it has walked left to the right edge of the question block
    at [x = 300]. *)
Definition second_enemy_at_block : Enemy.t :=
  Enemy.patrol 34 (Enemy.init 350 GROUND_Y) create_platforms.

(** [Level.__init__], which calls [create_level]. *)
Definition init : t :=
  {| platforms := create_platforms;
     enemies := create_enemies;
     coins := create_coins |}.

End Level.

(** ** Input controller *)

Module IMU.

Record t : Type := mk {
  offset_x : Q;
  offset_y : Q;
  offset_z : Q;
  prev_jump : bool;
  jump_buffer : bool;
  jump_buffer_frames : Z;
  touch_available : bool;
  left : bool;
  right : bool;
  jump : bool;
  run : bool;
  tilt_value : Q
}.

(** What the hardware returns during one [update]: the acceleration triple,
    the level of the jump pin (low while pressed) and the touch pad. *)
Record reading : Type := mk_reading {
  accel : Q * Q * Q;
  btn_value : bool;
  touch_value : bool
}.

(** The fields as [__init__] sets them before it calibrates. *)
Definition fresh (touch : bool) : t :=
  {| offset_x := 0; offset_y := 0; offset_z := 0;
     prev_jump := true; jump_buffer := false; jump_buffer_frames := 0;
     touch_available := touch;
     left := false; right := false; jump := false; run := false;
     tilt_value := 0 |}.

(** One turn of the loop of [calibrate]: the sample is added to the sums. *)
Definition accumulate (sums v : Q * Q * Q) : Q * Q * Q :=
  let '(sum_x, sum_y, sum_z) := sums in
  let '(vx, vy, vz) := v in
  (F64.add sum_x vx, F64.add sum_y vy, F64.add sum_z vz).

(** [calibrate]: the mean of the samples read while the board lies level,
    as the float sums and the float divisions give it. *)
Definition calibrate (s : t) (samples : list (Q * Q * Q)) : t :=
  let taken := firstn CALIBRATION_SAMPLES samples in
  let '(sx, sy, sz) := fold_left accumulate taken (0, 0, 0) in
  let n := inject_Z (Z.of_nat CALIBRATION_SAMPLES) in
  {| offset_x := F64.div sx n; offset_y := F64.div sy n;
     offset_z := F64.div sz n;
     prev_jump := prev_jump s; jump_buffer := jump_buffer s;
     jump_buffer_frames := jump_buffer_frames s;
     touch_available := touch_available s;
     left := left s; right := right s; jump := jump s; run := run s;
     tilt_value := tilt_value s |}.

(** [IMUController.__init__] *)
Definition init (touch : bool) (samples : list (Q * Q * Q)) : t :=
  calibrate (fresh touch) samples.

(** The deadzone part of [update]: tilt value, left flag, right flag. *)
Definition tilt_of (adjusted_x : Q) : Q * bool * bool :=
  if Qltb (Qabs adjusted_x) TILT_DEADZONE then (0, false, false)
  else if Qgtb adjusted_x 0
       then (py_min 1 (F64.div (F64.sub adjusted_x TILT_DEADZONE) TILT_MAX),
             false, true)
       else (py_max (-1) (F64.div (F64.add adjusted_x TILT_DEADZONE) TILT_MAX),
             true, false).

(** The press test shared by [update] and [poll_button_only]: a press that
    was not there at the previous poll arms the buffer for three frames. *)
Definition arm (s : t) (current_jump : bool) : bool * Z :=
  if current_jump && negb (prev_jump s) then (true, 3%Z)
  else (jump_buffer s, jump_buffer_frames s).

(** [IMUController.update] *)
Definition update (s : t) (r : reading) : t :=
  let '(ax, _, _) := accel r in
  let adjusted_x := F64.sub ax (offset_x s) in
  let '(tilt, l, rt) := tilt_of adjusted_x in
  let current_jump := negb (btn_value r) in
  let '(buf, frames) := arm s current_jump in
  let '(j, buf', frames') :=
    if buf then
      let f := (frames - 1)%Z in
      if (f <=? 0)%Z then (false, false, f) else (true, true, f)
    else (false, buf, frames) in
  {| offset_x := offset_x s; offset_y := offset_y s; offset_z := offset_z s;
     prev_jump := current_jump; jump_buffer := buf';
     jump_buffer_frames := frames';
     touch_available := touch_available s;
     left := l; right := rt; jump := j;
     run := if touch_available s then touch_value r else false;
     tilt_value := tilt |}.

(** [IMUController.poll_button_only] *)
Definition poll_button_only (s : t) (btn : bool) : t :=
  let current_jump := negb btn in
  let '(buf, frames) := arm s current_jump in
  {| offset_x := offset_x s; offset_y := offset_y s; offset_z := offset_z s;
     prev_jump := current_jump; jump_buffer := buf;
     jump_buffer_frames := frames;
     touch_available := touch_available s;
     left := left s; right := right s; jump := jump s; run := run s;
     tilt_value := tilt_value s |}.

(** A call on the controller: either poll, with what the hardware shows. *)
Inductive call : Type :=
| Poll (btn : bool)
| Update (r : reading).

Definition pin (c : call) : bool :=
  match c with Poll b => b | Update r => btn_value r end.

Definition step (s : t) (c : call) : t :=
  match c with
  | Poll b => poll_button_only s b
  | Update r => update s r
  end.

(** A call sees a press edge when the pin is low and was high at the
    previous call. *)
Definition is_edge (s : t) (c : call) : bool :=
  negb (pin c) && negb (prev_jump s).

(** The [jump] flag as it reads after each [update] of a sequence of calls;
    these are the values the player update consumes. *)
Fixpoint jump_reads (s : t) (cs : list call) : list bool :=
  match cs with
  | [] => []
  | c :: cs' =>
      let s' := step s c in
      match c with
      | Poll _ => jump_reads s' cs'
      | Update _ => jump s' :: jump_reads s' cs'
      end
  end.

(** The number of press edges seen along a sequence of calls. *)
Fixpoint edges (s : t) (cs : list call) : nat :=
  match cs with
  | [] => 0
  | c :: cs' => (if is_edge s c then 1 else 0) + edges (step s c) cs'
  end.

Definition updates (cs : list call) : nat :=
  length (filter (fun c => match c with Update _ => true | Poll _ => false end) cs).

(** The calls one turn of the main loop makes on the controller: the poll
    of [run], the poll of [MarioGame.update], then [update]; all three see
    the pin at the same level here. *)
Definition frame_calls (btn : bool) : list call :=
  [Poll btn; Poll btn; Update (mk_reading (0, 0, 0) btn false)].

(** Five turns of the main loop around one press that is held for two of
    them: released, pressed, pressed, released, released. *)
Definition one_press : list call :=
  frame_calls true ++ frame_calls false ++ frame_calls false
  ++ frame_calls true ++ frame_calls true.

End IMU.

(** ** Player *)

Module Mario.

Record t : Type := mk {
  x : Q;
  y : Q;
  vel_x : Q;
  vel_y : Q;
  on_ground : bool;
  facing_right : bool;
  width : Q;
  height : Q;
  is_running : bool;
  invincible : Z;
  sprite_frame : Z;
  anim_counter : Z;
  jump_triggered : bool
}.

(** [Mario.__init__] *)
Definition init (x0 y0 : Q) : t :=
  {| x := x0; y := y0; vel_x := 0; vel_y := 0; on_ground := false;
     facing_right := true; width := MARIO_WIDTH; height := MARIO_HEIGHT;
     is_running := false; invincible := 0; sprite_frame := 0;
     anim_counter := 0; jump_triggered := false |}.

Definition set_is_running (m : t) (b : bool) : t :=
  mk (x m) (y m) (vel_x m) (vel_y m) (on_ground m) (facing_right m) (width m)
     (height m) b (invincible m) (sprite_frame m) (anim_counter m)
     (jump_triggered m).

Definition set_invincible (m : t) (n : Z) : t :=
  mk (x m) (y m) (vel_x m) (vel_y m) (on_ground m) (facing_right m) (width m)
     (height m) (is_running m) n (sprite_frame m) (anim_counter m)
     (jump_triggered m).

Definition set_vel_y (m : t) (v : Q) : t :=
  mk (x m) (y m) (vel_x m) v (on_ground m) (facing_right m) (width m)
     (height m) (is_running m) (invincible m) (sprite_frame m)
     (anim_counter m) (jump_triggered m).

Definition set_sprite_frame (m : t) (f : Z) : t :=
  mk (x m) (y m) (vel_x m) (vel_y m) (on_ground m) (facing_right m) (width m)
     (height m) (is_running m) (invincible m) f (anim_counter m)
     (jump_triggered m).

Definition set_position (m : t) (x' y' : Q) : t :=
  mk x' y' (vel_x m) (vel_y m) (on_ground m) (facing_right m) (width m)
     (height m) (is_running m) (invincible m) (sprite_frame m)
     (anim_counter m) (jump_triggered m).

(** "Decrement invincibility" *)
Definition tick_invincible (m : t) : t :=
  if (invincible m >? 0)%Z then set_invincible m (invincible m - 1)%Z else m.

(** "Movement with variable speed based on tilt amount" and, with the
    board level, "Deceleration". *)
Definition steer (m : t) (imu : IMU.t) : t :=
  let tilt := IMU.tilt_value imu in
  if negb (Qeq_bool tilt 0) then
    let move_speed := if IMU.run imu then RUN_SPEED else MOVE_SPEED in
    let '(sf, ac) :=
      if on_ground m then
        let ac1 := (anim_counter m + 1)%Z in
        if (ac1 >? 5)%Z
        then ((if (sprite_frame m =? 0)%Z then 1%Z else 0%Z), 0%Z)
        else (sprite_frame m, ac1)
      else (sprite_frame m, anim_counter m) in
    mk (x m) (y m) (tilt * move_speed) (vel_y m) (on_ground m) (Qgtb tilt 0)
       (width m) (height m) (is_running m) (invincible m) sf ac
       (jump_triggered m)
  else
    let v := vel_x m * (8 # 10) in
    let v' := if Qltb (Qabs v) (1 # 10) then 0 else v in
    mk (x m) (y m) v' (vel_y m) (on_ground m) (facing_right m) (width m)
       (height m) (is_running m) (invincible m) 0%Z (anim_counter m)
       (jump_triggered m).

(** "Jumping" *)
Definition start_jump (m : t) (imu : IMU.t) : t :=
  if IMU.jump imu && on_ground m then
    mk (x m) (y m) (vel_x m) JUMP_STRENGTH false (facing_right m) (width m)
       (height m) (is_running m) (invincible m) (sprite_frame m)
       (anim_counter m) true
  else m.

(** "Set jump sprite when in air" and "Gravity" *)
Definition airborne (m : t) : t :=
  let m1 := if negb (on_ground m) then set_sprite_frame m 2%Z else m in
  if negb (on_ground m1) then
    let v := vel_y m1 + GRAVITY in
    set_vel_y m1 (if Qgtb v 10 then 10 else v)
  else m1.

(** "Update position", followed by the clearing of [on_ground] that opens
    the platform loop. *)
Definition integrate (m : t) : t :=
  mk (x m + vel_x m) (y m + vel_y m) (vel_x m) (vel_y m) false
     (facing_right m) (width m) (height m) (is_running m) (invincible m)
     (sprite_frame m) (anim_counter m) (jump_triggered m).

(** The player as the platform loop of [update] finds it. *)
Definition before_collisions (m : t) (imu : IMU.t) : t :=
  integrate (airborne (start_jump (steer (tick_invincible m) imu) imu)).

(** The box test that opens [check_platform_collision]. *)
Definition overlaps (m : t) (p : Platform.t) : bool :=
  Qgtb (x m + width m) (Platform.x p) &&
  Qltb (x m) (Platform.x p + Platform.width p) &&
  Qgtb (y m + height m) (Platform.y p) &&
  Qltb (y m) (Platform.y p + Platform.height p).

(** [Mario.check_platform_collision(platform, prev_y)]: the returned flag
    and the player after the call. *)
Definition check_platform_collision (m : t) (p : Platform.t) (prev_y : Q)
  : bool * t :=
  if overlaps m p then
    if Qle_bool (prev_y + height m) (Platform.y p) && Qgtb (vel_y m) 0 then
      (true,
       mk (x m) (Platform.y p - height m) (vel_x m) 0 true (facing_right m)
          (width m) (height m) (is_running m) (invincible m) (sprite_frame m)
          (anim_counter m) false)
    else if Qgeb prev_y (Platform.y p + Platform.height p)
            && Qltb (vel_y m) 0 then
      (true,
       mk (x m) (Platform.y p + Platform.height p) (vel_x m) 0 (on_ground m)
          (facing_right m) (width m) (height m) (is_running m) (invincible m)
          (sprite_frame m) (anim_counter m) (jump_triggered m))
    else (false, m)
  else (false, m).

Definition nearby_range : Q := 150.

(** The guard of the platform loop: a platform is passed over when it is far
    on both axes. *)
Definition far (m : t) (p : Platform.t) : bool :=
  Qgtb (Qabs (Platform.x p - x m)) nearby_range &&
  Qgtb (Qabs (Platform.y p - y m)) nearby_range.

(** The platform loop of [update]; it stops at the first resolved
    collision. *)
Fixpoint platform_loop (m : t) (prev_y : Q) (ps : list Platform.t) : t :=
  match ps with
  | [] => m
  | p :: ps' =>
      if far m p then platform_loop m prev_y ps'
      else
        let '(hit, m') := check_platform_collision m p prev_y in
        if hit then m' else platform_loop m' prev_y ps'
  end.

(** "Ground collision" *)
Definition ground_collision (m : t) : t :=
  if Qgeb (y m) GROUND_Y then
    mk (x m) GROUND_Y (vel_x m) 0 true (facing_right m) (width m) (height m)
       (is_running m) (invincible m) (sprite_frame m) (anim_counter m) false
  else m.

(** [Mario.update(imu_control, platforms)] *)
Definition update (m : t) (imu : IMU.t) (platforms : list Platform.t) : t :=
  let prev_y := y m in
  ground_collision (platform_loop (before_collisions m imu) prev_y platforms).

End Mario.

(** ** Game session *)

Module Game.

(** The fields of [MarioGame] that the simulation reads or writes, and the
    visibility of the three overlays.  Sound requests and the NeoPixel
    colours are outputs that nothing reads back; they are left out. *)
Record t : Type := mk {
  level : Level.t;
  mario : Mario.t;
  camera : Camera.t;
  imu_control : IMU.t;
  score : Z;
  coins : Z;
  lives : Z;
  game_over : bool;
  level_complete : bool;
  victory_timer : Z;
  hud_hidden : bool;
  victory_hidden : bool;
  game_over_hidden : bool
}.

(** What the hardware shows during one [update]: the jump pin at the poll
    that opens the frame, then the readings of [IMUController.update]. *)
Record frame_input : Type := mk_input {
  poll_btn : bool;
  sensor : IMU.reading
}.

(** [MarioGame.__init__], given the controller it has constructed. *)
Definition init (imu : IMU.t) : t :=
  {| level := Level.init; mario := Mario.init 40 GROUND_Y;
     camera := Camera.init; imu_control := imu;
     score := 0; coins := 0; lives := 3;
     game_over := false; level_complete := false; victory_timer := 0;
     hud_hidden := false; victory_hidden := true; game_over_hidden := true |}.

(** [MarioGame.reset_level] *)
Definition reset_level (g : t) : t :=
  {| level := Level.init; mario := Mario.init 40 GROUND_Y;
     camera := Camera.init; imu_control := imu_control g;
     score := 0; coins := 0; lives := 3;
     game_over := false; level_complete := false; victory_timer := 0;
     hud_hidden := false; victory_hidden := true; game_over_hidden := true |}.

Definition set_mario (g : t) (m : Mario.t) : t :=
  mk (level g) m (camera g) (imu_control g) (score g) (coins g) (lives g)
     (game_over g) (level_complete g) (victory_timer g) (hud_hidden g)
     (victory_hidden g) (game_over_hidden g).

Definition set_enemies (g : t) (es : list Enemy.t) : t :=
  mk (Level.mk (Level.platforms (level g)) es (Level.coins (level g)))
     (mario g) (camera g) (imu_control g) (score g) (coins g) (lives g)
     (game_over g) (level_complete g) (victory_timer g) (hud_hidden g)
     (victory_hidden g) (game_over_hidden g).

Definition set_coins (g : t) (cs : list Coin.t) : t :=
  mk (Level.mk (Level.platforms (level g)) (Level.enemies (level g)) cs)
     (mario g) (camera g) (imu_control g) (score g) (coins g) (lives g)
     (game_over g) (level_complete g) (victory_timer g) (hud_hidden g)
     (victory_hidden g) (game_over_hidden g).

(** The two polls of the controller and [self.mario.is_running = ...]. *)
Definition read_controls (g : t) (inp : frame_input) : t :=
  let imu := IMU.update (IMU.poll_button_only (imu_control g) (poll_btn inp))
                        (sensor inp) in
  mk (level g) (Mario.set_is_running (mario g) (IMU.run imu)) (camera g) imu
     (score g) (coins g) (lives g) (game_over g) (level_complete g)
     (victory_timer g) (hud_hidden g) (victory_hidden g) (game_over_hidden g).

Definition move_player (g : t) : t :=
  set_mario g (Mario.update (mario g) (imu_control g)
                            (Level.platforms (level g))).

Definition follow (g : t) : t :=
  mk (level g) (mario g) (Camera.update (camera g) (Mario.x (mario g)))
     (imu_control g) (score g) (coins g) (lives g) (game_over g)
     (level_complete g) (victory_timer g) (hud_hidden g) (victory_hidden g)
     (game_over_hidden g).

Definition touches (m : Mario.t) (e : Enemy.t) : bool :=
  check_collision (Mario.x m) (Mario.y m) (Mario.width m) (Mario.height m)
                  (Enemy.x e) (Enemy.y e) (Enemy.width e) (Enemy.height e).

(** The stomp branch: the enemy dies, the player bounces. *)
Definition stomp (g : t) : t :=
  mk (level g) (Mario.set_vel_y (mario g) (-6)) (camera g) (imu_control g)
     (score g + 100)%Z (coins g) (lives g) (game_over g) (level_complete g)
     (victory_timer g) (hud_hidden g) (victory_hidden g) (game_over_hidden g).

(** The damage branch: a life is lost and the invincibility window opens;
    the last life ends the game. *)
Definition hurt (g : t) : t :=
  let lives' := (lives g - 1)%Z in
  let over := (lives' <=? 0)%Z in
  mk (level g) (Mario.set_invincible (mario g) 120) (camera g)
     (imu_control g) (score g) (coins g) lives'
     (if over then true else game_over g) (level_complete g)
     (victory_timer g)
     (if over then true else hud_hidden g) (victory_hidden g)
     (if over then false else game_over_hidden g).

(** The body of the enemy loop of [update] for one enemy: the session after
    it, and the enemy if it stays in [level.enemies]. *)
Definition enemy_step (g : t) (e : Enemy.t) : t * option Enemy.t :=
  let '(gone, e') := Enemy.update e (Level.platforms (level g)) in
  if gone then (g, None)
  else if Enemy.alive e' && (Mario.invincible (mario g) =? 0)%Z then
    if touches (mario g) e' then
      if Qgtb (Mario.vel_y (mario g)) 0
         && Qltb (Mario.y (mario g)) (Enemy.y e')
      then (stomp g, Some (Enemy.stomp e'))
      else (hurt g, Some e')
    else (g, Some e')
  else (g, Some e').

(** The enemy loop over a copy of [level.enemies]; the list returned is
    [level.enemies] after the removals. *)
Fixpoint enemies_loop (g : t) (es : list Enemy.t) : t * list Enemy.t :=
  match es with
  | [] => (g, [])
  | e :: es' =>
      let '(g1, kept) := enemy_step g e in
      let '(g2, rest) := enemies_loop g1 es' in
      (g2, match kept with Some e' => e' :: rest | None => rest end)
  end.

Definition update_enemies (g : t) : t :=
  let '(g', es) := enemies_loop g (Level.enemies (level g)) in
  set_enemies g' es.

Definition reaches (m : Mario.t) (c : Coin.t) : bool :=
  check_collision (Mario.x m) (Mario.y m) (Mario.width m) (Mario.height m)
                  (Coin.x c) (Coin.y c) 8 14.

(** The two nested tests of the coin loop. *)
Definition picks_up (m : Mario.t) (c : Coin.t) : bool :=
  negb (Coin.collected c) && reaches m c.

(** The body of the coin loop for one coin: the coin, the score and the
    coin count after it. *)
Definition coin_step (m : Mario.t) (c : Coin.t) (sc cn : Z)
  : Coin.t * Z * Z :=
  if picks_up m c
  then (Coin.mk (Coin.x c) (Coin.y c) true, (sc + 200)%Z, (cn + 1)%Z)
  else (c, sc, cn).

Fixpoint coins_loop (m : Mario.t) (cs : list Coin.t) (sc cn : Z)
  : list Coin.t * Z * Z :=
  match cs with
  | [] => ([], sc, cn)
  | c :: cs' =>
      let '(c', sc1, cn1) := coin_step m c sc cn in
      let '(rest, sc2, cn2) := coins_loop m cs' sc1 cn1 in
      (c' :: rest, sc2, cn2)
  end.

Definition update_coins (g : t) : t :=
  let '(cs, sc, cn) :=
    coins_loop (mario g) (Level.coins (level g)) (score g) (coins g) in
  mk (Level.mk (Level.platforms (level g)) (Level.enemies (level g)) cs)
     (mario g) (camera g) (imu_control g) sc cn (lives g) (game_over g)
     (level_complete g) (victory_timer g) (hud_hidden g) (victory_hidden g)
     (game_over_hidden g).

Definition LEVEL_END : Q := 2075.
Definition VICTORY_FRAMES : Z := 180.

(** "Level completion check" *)
Definition check_level_complete (g : t) : t :=
  if negb (level_complete g) && Qgeb (Mario.x (mario g)) LEVEL_END then
    mk (level g) (mario g) (camera g) (imu_control g) (score g) (coins g)
       (lives g) (game_over g) true VICTORY_FRAMES true false
       (game_over_hidden g)
  else g.

(** The test of "Fall death". *)
Definition fell (g : t) : bool := Qgtb (Mario.y (mario g)) DISPLAY_HEIGHT.

(** "Fall death" *)
Definition fall_death (g : t) : t :=
  if fell g then
    let lives' := (lives g - 1)%Z in
    if (lives' <=? 0)%Z then
      mk (level g) (mario g) (camera g) (imu_control g) (score g) (coins g)
         lives' true (level_complete g) (victory_timer g) true
         (victory_hidden g) false
    else
      mk (level g)
         (Mario.set_invincible (Mario.set_position (mario g) 40 GROUND_Y) 120)
         (camera g) (imu_control g) (score g) (coins g) lives' (game_over g)
         (level_complete g) (victory_timer g) (hud_hidden g)
         (victory_hidden g) (game_over_hidden g)
  else g.

(** The simulation part of [update] up to the fall-death test. *)
Definition before_fall_death (g : t) (inp : frame_input) : t :=
  check_level_complete
    (update_coins (update_enemies (follow (move_player (read_controls g inp))))).

(** The simulation part of [update]. *)
Definition simulate (g : t) (inp : frame_input) : t :=
  fall_death (before_fall_death g inp).

(** The victory countdown that [update] runs instead of the simulation. *)
Definition countdown (g : t) : t :=
  let timer := (victory_timer g - 1)%Z in
  let g' := mk (level g) (mario g) (camera g) (imu_control g) (score g)
               (coins g) (lives g) (game_over g) (level_complete g) timer
               (hud_hidden g) (victory_hidden g) (game_over_hidden g) in
  if (timer =? 0)%Z then reset_level g' else g'.

Definition celebrating (g : t) : bool :=
  level_complete g && (victory_timer g >? 0)%Z.

(** The one frame on which [update] replaces the level by a new one. *)
Definition resets (g : t) : bool :=
  negb (game_over g) && celebrating g && (victory_timer g - 1 =? 0)%Z.




(** The board tilted to the right, the button released. *)
Definition right_input : frame_input :=
  mk_input true (IMU.mk_reading ((68 # 10), 0, 9) true false).

(** The first 31 turns of the main loop when the board is tilted fully to
    the right throughout and the button is down during the second turn. *)
Definition tilted_right (btn : bool) : bool * frame_input :=
  (btn, mk_input btn (IMU.mk_reading ((68 # 10), 0, 9) btn false)).

Definition opening_frames : list (bool * frame_input) :=
  [tilted_right true; tilted_right false] ++ repeat (tilted_right true) 29.

(** The player, the first enemy of the list, the score and the lives, the
    player's rationals in lowest terms. *)
Definition observe (g : t) : Mario.t * option Enemy.t * Z * Z :=
  let m := mario g in
  (Mario.mk (Qred (Mario.x m)) (Qred (Mario.y m)) (Qred (Mario.vel_x m))
            (Qred (Mario.vel_y m)) (Mario.on_ground m) (Mario.facing_right m)
            (Mario.width m) (Mario.height m) (Mario.is_running m)
            (Mario.invincible m) (Mario.sprite_frame m) (Mario.anim_counter m)
            (Mario.jump_triggered m),
   hd_error (Level.enemies (level g)), score g, lives g).

(** The session after [opening_frames] as far as the player and the first
    enemy go (the other enemies are left where they start): the player
    comes down on the enemy that set out from [x = 150]. *)
Definition above_enemy (imu : IMU.t) : t :=
  let g := init imu in
  let m := Mario.mk (235 # 2) 84 (5 # 2) 8 false true MARIO_WIDTH MARIO_HEIGHT
                    false 0 2 1 true in
  let e := Enemy.mk 119 104 ENEMY_WIDTH ENEMY_HEIGHT (-1) 0 true true 0 1 in
  set_enemies (set_mario g m) (e :: tl (Level.enemies (level g))).

(** The board held level, the button released. *)
Definition idle_input : frame_input :=
  mk_input true (IMU.mk_reading (0, 0, 9) true false).

(** [MarioGame.update] *)
Definition update (g : t) (inp : frame_input) : t :=
  if game_over g then g
  else if celebrating g then countdown g
  else simulate g inp.

(** The four ways the body of the enemy loop can end. *)
Inductive outcome (g : t) (e : Enemy.t) : t * option Enemy.t -> Prop :=
| Removed :
    fst (Enemy.update e (Level.platforms (level g))) = true ->
    outcome g e (g, None)
| Passed :
    fst (Enemy.update e (Level.platforms (level g))) = false ->
    outcome g e (g, Some (snd (Enemy.update e (Level.platforms (level g)))))
| Stomped :
    fst (Enemy.update e (Level.platforms (level g))) = false ->
    Mario.invincible (mario g) = 0%Z ->
    outcome g e (stomp g,
                 Some (Enemy.stomp (snd (Enemy.update e (Level.platforms (level g))))))
| Hurt :
    fst (Enemy.update e (Level.platforms (level g))) = false ->
    Mario.invincible (mario g) = 0%Z ->
    outcome g e (hurt g, Some (snd (Enemy.update e (Level.platforms (level g))))).

(** One turn of the loop of [run]: the poll that opens the frame, then
    [update]; the drawing that follows changes nothing here. *)
Definition polled (g : t) (btn : bool) : t :=
  mk (level g) (mario g) (camera g)
     (IMU.poll_button_only (imu_control g) btn)
     (score g) (coins g) (lives g) (game_over g) (level_complete g)
     (victory_timer g) (hud_hidden g) (victory_hidden g) (game_over_hidden g).

Definition frame (g : t) (f : bool * frame_input) : t :=
  update (polled g (fst f)) (snd f).

(** The loop of [run] over the frames it is given; it ends with the game. *)
Fixpoint run (g : t) (fs : list (bool * frame_input)) : t :=
  match fs with
  | [] => g
  | f :: fs' => if game_over g then g else run (frame g f) fs'
  end.

End Game.

(** ** Session invariants *)

Module Session.

(** Lives stay between none and the three of the start, and the game is
    over exactly when none is left. *)
Definition lives_sound (g : Game.t) : Prop :=
  (0 <= Game.lives g <= 3)%Z /\
  (Game.game_over g = true <-> Game.lives g = 0%Z).

(** The enemies of a list that have been stomped. *)
Definition dead (es : list Enemy.t) : Z :=
  Z.of_nat (length (filter (fun e => negb (Enemy.alive e)) es)).

(** The coins of a list that have been collected. *)
Definition collected (cs : list Coin.t) : Z :=
  Z.of_nat (length (filter Coin.collected cs)).

(** The tallies agree with the level: one count per collected coin, 200
    points per collected coin and 100 per stomped enemy. *)
Definition tallied (g : Game.t) : Prop :=
  Game.coins g = collected (Level.coins (Game.level g)) /\
  Game.score g
  = (200 * collected (Level.coins (Game.level g))
     + 100 * dead (Level.enemies (Game.level g)))%Z.

(** The player's velocity is within what the controls and gravity give. *)
Definition within_speed (m : Mario.t) : Prop :=
  - RUN_SPEED <= Mario.vel_x m <= RUN_SPEED /\
  JUMP_STRENGTH <= Mario.vel_y m <= 10.

(** The sprite frames select a tile of their sheets: three frames for the
    player, two for an enemy, whose frame counter is below [15]. *)
Definition mario_frame_ok (m : Mario.t) : Prop :=
  (0 <= Mario.sprite_frame m <= 2)%Z.

Definition enemy_frame_ok (e : Enemy.t) : Prop :=
  (0 <= Enemy.sprite_frame e <= 1)%Z /\ (0 <= Enemy.frame_counter e < 15)%Z.

(** Where the lives of a session can stand during the enemy loop of a frame
    entered with [n] lives and the game not over. *)
Definition one_hit (n : Z) (h : Game.t) : Prop :=
  (Game.lives h = n /\ Game.game_over h = false) \/
  (Game.lives h = (n - 1)%Z /\ Mario.invincible (Game.mario h) <> 0%Z /\
   (Game.game_over h = true <-> (n - 1 = 0)%Z)).

End Session.

(** ** Sprite frames of a session *)

Module Frames.

Definition frames_ok (g : Game.t) : Prop :=
  Session.mario_frame_ok (Game.mario g) /\
  Forall Session.enemy_frame_ok (Level.enemies (Game.level g)).

End Frames.

(** ** The invincibility window *)

Module Shield.

(** What holds of a session with [left] frames of invincibility still to
    run, entered with [lives0] lives: the lives are untouched, the game is
    not over, and a victory countdown, if one runs, ends well after the
    window. *)
Definition holds (lives0 : Z) (left : Z) (h : Game.t) : Prop :=
  Game.lives h = lives0 /\
  Game.game_over h = false /\
  (left <= Mario.invincible (Game.mario h))%Z /\
  (Game.level_complete h = true -> (left + 60 <= Game.victory_timer h)%Z).

End Shield.

(** ** Drawing: the sprite pools *)

(** Python's [int] on a float: the fraction is dropped, towards zero. *)
Definition py_int (q : Q) : Z := Z.quot (Qnum q) (Z.pos (Qden q)).

Module Sprite.

(** What the game reads and writes of a [TileGrid]: its position on the
    screen, whether it is hidden, the tile it shows ([sprite[0]]) and its
    horizontal flip. *)
Record t : Type := mk {
  x : Z;
  y : Z;
  hidden : bool;
  tile : Z;
  flip_x : bool
}.

(** A sprite of a pool as [setup_sprite_pools] leaves it. *)
Definition pooled : t := mk 0 0 true 0 false.

(** "Only update if position changed", then "Ensure visible", then the tile
    when the sheets are loaded. *)
Definition show_at (new_x new_y : Z) (new_tile : option Z) (s : t) : t :=
  let s1 := if negb (x s =? new_x)%Z || negb (y s =? new_y)%Z
            then mk new_x new_y (hidden s) (tile s) (flip_x s)
            else s in
  let s2 := if hidden s1
            then mk (x s1) (y s1) false (tile s1) (flip_x s1)
            else s1 in
  match new_tile with
  | Some k => mk (x s2) (y s2) (hidden s2) k (flip_x s2)
  | None => s2
  end.

(** The body of the loops that hide the unused sprites. *)
Definition hide (s : t) : t :=
  if negb (hidden s) then mk (x s) (y s) true (tile s) (flip_x s) else s.

End Sprite.

Module Pool.

(** [pool[i] = f(pool[i])] for an index within the pool. *)
Fixpoint set_at (i : nat) (f : Sprite.t -> Sprite.t) (pool : list Sprite.t)
  : list Sprite.t :=
  match pool, i with
  | [], _ => []
  | s :: rest, O => f s :: rest
  | s :: rest, S i' => s :: set_at i' f rest
  end.

(** The loop over the entities of one kind: each one that is shown takes
    the next sprite of the pool while there is one; the index counts the
    sprites used. *)
Fixpoint sweep {A : Type} (shown : A -> bool)
         (place : A -> Sprite.t -> Sprite.t)
         (items : list A) (pool : list Sprite.t) (index : nat)
  : list Sprite.t * nat :=
  match items with
  | [] => (pool, index)
  | a :: rest =>
      if shown a then
        if (index <? length pool)%nat
        then sweep shown place rest (set_at index (place a) pool) (S index)
        else sweep shown place rest pool index
      else sweep shown place rest pool index
  end.

(** [for i in range(used, len(pool)): hide pool[i]] *)
Fixpoint hide_from (used : nat) (pool : list Sprite.t) : list Sprite.t :=
  match pool, used with
  | [], _ => []
  | s :: rest, O => Sprite.hide s :: hide_from O rest
  | s :: rest, S u => s :: hide_from u rest
  end.

(** One pool through a frame of [draw]. *)
Definition refresh {A : Type} (shown : A -> bool)
           (place : A -> Sprite.t -> Sprite.t)
           (items : list A) (pool : list Sprite.t) : list Sprite.t :=
  let '(pool', used) := sweep shown place items pool 0 in
  hide_from used pool'.

End Pool.

Module Screen.

Record t : Type := mk {
  sprites_loaded : bool;
  platform_sprites : list Sprite.t;
  enemy_sprites : list Sprite.t;
  coin_sprites : list Sprite.t;
  mario_sprite : Sprite.t;
  last_mario_frame : Z;
  last_mario_flip : option bool
}.

(** [setup_sprite_pools]: 75 platform, 10 enemy and 20 coin sprites, all
    hidden, and the player's sprite, which the sprite sheet version places
    at the start position. *)
Definition setup (loaded : bool) : t :=
  {| sprites_loaded := loaded;
     platform_sprites := repeat Sprite.pooled 75;
     enemy_sprites := repeat Sprite.pooled 10;
     coin_sprites := repeat Sprite.pooled 20;
     mario_sprite := if loaded then Sprite.mk 40 105 false 0 false
                     else Sprite.mk 0 0 false 0 false;
     last_mario_frame := -1;
     last_mario_flip := None |}.

(** [TILE_MAP] *)
Definition TILE_MAP (b : BlockType) : Z :=
  match b with Brick => 0 | Question => 1 | Pipe => 2 end.

Definition visible_left (cam : Camera.t) : Q := F64.sub (Camera.x cam) 64.
Definition visible_right (cam : Camera.t) : Q :=
  F64.add (F64.add (Camera.x cam) (inject_Z DISPLAY_WIDTH)) 64.

Definition platform_shown (cam : Camera.t) (p : Platform.t) : bool :=
  Qgtb (F64.add (Platform.x p) (Platform.width p)) (visible_left cam) &&
  Qltb (Platform.x p) (visible_right cam).

Definition coin_shown (cam : Camera.t) (c : Coin.t) : bool :=
  negb (Coin.collected c) &&
  Qgtb (F64.add (Coin.x c) 8) (visible_left cam) &&
  Qltb (Coin.x c) (visible_right cam).

Definition enemy_shown (cam : Camera.t) (e : Enemy.t) : bool :=
  Enemy.alive e &&
  Qgtb (F64.add (Enemy.x e) (Enemy.width e)) (visible_left cam) &&
  Qltb (Enemy.x e) (visible_right cam).

Definition place_platform (loaded : bool) (cam : Camera.t) (p : Platform.t)
  : Sprite.t -> Sprite.t :=
  Sprite.show_at (py_int (F64.sub (Platform.x p) (Camera.x cam)))
                 (py_int (Platform.y p))
                 (if loaded then Some (TILE_MAP (Platform.block_type p))
                  else None).

Definition place_coin (cam : Camera.t) (c : Coin.t) : Sprite.t -> Sprite.t :=
  Sprite.show_at (py_int (F64.sub (Coin.x c) (Camera.x cam)))
                 (py_int (Coin.y c)) None.

Definition place_enemy (loaded : bool) (cam : Camera.t) (e : Enemy.t)
  : Sprite.t -> Sprite.t :=
  Sprite.show_at (py_int (F64.sub (Enemy.x e) (Camera.x cam)))
                 (py_int (Enemy.y e))
                 (if loaded then Some (Enemy.sprite_frame e) else None).

(** The test that makes the player blink while invincible. *)
Definition mario_shown (m : Mario.t) : bool :=
  (Mario.invincible m =? 0)%Z || (Mario.invincible m mod 10 <? 5)%Z.

(** The last part of [draw]: the player's sprite, its frame and its flip,
    the last two written only when they differ from the ones remembered. *)
Definition draw_mario (g : Game.t) (sc : t) : Sprite.t * Z * option bool :=
  let m := Game.mario g in
  let s := mario_sprite sc in
  if mario_shown m then
    let s1 := Sprite.mk (py_int (F64.sub (Mario.x m) (Camera.x (Game.camera g))))
                        (py_int (Mario.y m)) false (Sprite.tile s)
                        (Sprite.flip_x s) in
    if sprites_loaded sc then
      let '(s2, lf) :=
        if negb (Mario.sprite_frame m =? last_mario_frame sc)%Z
        then (Sprite.mk (Sprite.x s1) (Sprite.y s1) (Sprite.hidden s1)
                        (Mario.sprite_frame m) (Sprite.flip_x s1),
              Mario.sprite_frame m)
        else (s1, last_mario_frame sc) in
      let facing := negb (Mario.facing_right m) in
      match last_mario_flip sc with
      | Some f =>
          if eqb facing f then (s2, lf, Some f)
          else (Sprite.mk (Sprite.x s2) (Sprite.y s2) (Sprite.hidden s2)
                          (Sprite.tile s2) facing, lf, Some facing)
      | None =>
          (Sprite.mk (Sprite.x s2) (Sprite.y s2) (Sprite.hidden s2)
                     (Sprite.tile s2) facing, lf, Some facing)
      end
    else (s1, last_mario_frame sc, last_mario_flip sc)
  else
    (Sprite.mk (Sprite.x s) (Sprite.y s) true (Sprite.tile s) (Sprite.flip_x s),
     last_mario_frame sc, last_mario_flip sc).

(** [MarioGame.draw], the text of the HUD left aside. *)
Definition draw (g : Game.t) (sc : t) : t :=
  let cam := Game.camera g in
  let lv := Game.level g in
  let '(ms, lf, lp) := draw_mario g sc in
  {| sprites_loaded := sprites_loaded sc;
     platform_sprites :=
       Pool.refresh (platform_shown cam) (place_platform (sprites_loaded sc) cam)
                    (Level.platforms lv) (platform_sprites sc);
     enemy_sprites :=
       Pool.refresh (enemy_shown cam) (place_enemy (sprites_loaded sc) cam)
                    (Level.enemies lv) (enemy_sprites sc);
     coin_sprites :=
       Pool.refresh (coin_shown cam) (place_coin cam)
                    (Level.coins lv) (coin_sprites sc);
     mario_sprite := ms;
     last_mario_frame := lf;
     last_mario_flip := lp |}.

(** What a pool holds after a frame, said at once: the shown entities, in
    the order of their list, on the first sprites of the pool, and the
    sprites left over hidden. *)
Definition laid_out {A : Type} (shown : A -> bool)
           (place : A -> Sprite.t -> Sprite.t)
           (items : list A) (pool : list Sprite.t) : list Sprite.t :=
  let seen := filter shown items in
  map (fun '(a, s) => place a s) (combine seen pool)
  ++ map Sprite.hide (skipn (length seen) pool).

(** The sprites of a pool that are on show. *)
Definition on_show (pool : list Sprite.t) : nat :=
  length (filter (fun s => negb (Sprite.hidden s)) pool).

(** The frame and the flip remembered are those the sprite has. *)
Definition remembered (sc : t) : Prop :=
  (last_mario_frame sc = (-1)%Z \/
   last_mario_frame sc = Sprite.tile (mario_sprite sc)) /\
  (last_mario_flip sc = None \/
   last_mario_flip sc = Some (Sprite.flip_x (mario_sprite sc))).

End Screen.

(** ** The level on the screen *)

Module Window.

(** A window that holds the visibility window of every camera whose offset
    has integer part [k]. *)
Definition wide (k : Z) (p : Platform.t) : bool :=
  Qgtb (Platform.x p + Platform.width p) (inject_Z k - 64) &&
  Qltb (Platform.x p) (inject_Z k + 1 + inject_Z DISPLAY_WIDTH + 64).

(** The most platforms any such window holds, for offsets in the scroll
    range. *)
Definition crowded (platforms : list Platform.t) (cap : nat) : bool :=
  forallb (fun k => (length (filter (wide (Z.of_nat k)) platforms) <=? cap)%nat)
          (seq 0 1961).

(** What stays true of the level and the camera through the game. *)
Definition in_shape (g : Game.t) : Prop :=
  Level.platforms (Game.level g) = Level.create_platforms /\
  (length (Level.enemies (Game.level g)) <= 7)%nat /\
  length (Level.coins (Game.level g)) = 8%nat /\
  Camera.in_range (Game.camera g).

End Window.

(** ** The overlays *)

Module Overlay.

(** The victory screen is up exactly while the level is complete, the game
    over screen exactly when the game is over, and the HUD is hidden exactly
    when one of them is up. *)
Definition agree (g : Game.t) : Prop :=
  Game.victory_hidden g = negb (Game.level_complete g) /\
  Game.game_over_hidden g = negb (Game.game_over g) /\
  Game.hud_hidden g = Game.level_complete g || Game.game_over g.

End Overlay.

(** * Checked properties *)

(** ** Boolean comparisons against their propositions *)

Lemma Qltb_lt (a b : Q) : Qltb a b = true <-> a < b.
Proof.
  unfold Qltb. rewrite negb_true_iff.
  split; intro H.
  - apply Qnot_le_lt. intro L. apply Qle_bool_iff in L. congruence.
  - destruct (Qle_bool b a) eqn:E; [|reflexivity].
    apply Qle_bool_iff in E. exfalso. apply (Qlt_not_le _ _ H E).
Qed.

Lemma Qltb_ge (a b : Q) : Qltb a b = false <-> b <= a.
Proof.
  unfold Qltb. rewrite negb_false_iff. apply Qle_bool_iff.
Qed.

Lemma Qgtb_gt (a b : Q) : Qgtb a b = true <-> b < a.
Proof. apply Qltb_lt. Qed.

Lemma Qgtb_le (a b : Q) : Qgtb a b = false <-> a <= b.
Proof. apply Qltb_ge. Qed.

Lemma Qgeb_ge (a b : Q) : Qgeb a b = true <-> b <= a.
Proof. apply Qle_bool_iff. Qed.

Lemma Qgeb_lt (a b : Q) : Qgeb a b = false <-> a < b.
Proof.
  unfold Qgeb. split; intro H.
  - apply Qnot_le_lt. intro L. apply Qle_bool_iff in L. congruence.
  - destruct (Qle_bool b a) eqn:E; [|reflexivity].
    apply Qle_bool_iff in E. exfalso. apply (Qlt_not_le _ _ H E).
Qed.

Lemma py_min_spec (a b : Q) : py_min a b <= a /\ py_min a b <= b.
Proof.
  unfold py_min. destruct (Qltb b a) eqn:E.
  - apply Qltb_lt in E. split; lra.
  - apply Qltb_ge in E. split; lra.
Qed.

Lemma py_max_spec (a b : Q) : a <= py_max a b /\ b <= py_max a b.
Proof.
  unfold py_max. destruct (Qgtb b a) eqn:E.
  - apply Qgtb_gt in E. split; lra.
  - apply Qgtb_le in E. split; lra.
Qed.

Lemma py_min_glb (a b c : Q) : c <= a -> c <= b -> c <= py_min a b.
Proof. unfold py_min. destruct (Qltb b a); auto. Qed.

Lemma py_max_lub (a b c : Q) : a <= c -> b <= c -> py_max a b <= c.
Proof. unfold py_max. destruct (Qgtb b a); auto. Qed.

(** Turns every boolean comparison in the context and the goal that has
    been decided into the order fact it stands for. *)
Ltac order_facts :=
  repeat match goal with
  | H : Qltb _ _ = true |- _ => apply Qltb_lt in H
  | H : Qltb _ _ = false |- _ => apply Qltb_ge in H
  | H : Qgtb _ _ = true |- _ => apply Qgtb_gt in H
  | H : Qgtb _ _ = false |- _ => apply Qgtb_le in H
  | H : Qgeb _ _ = true |- _ => apply Qgeb_ge in H
  | H : Qgeb _ _ = false |- _ => apply Qgeb_lt in H
  | H : Qle_bool _ _ = true |- _ => apply Qle_bool_iff in H
  | H : Qle_bool _ _ = false |- _ => apply Qgeb_lt in H
  | H : _ && _ = true |- _ => apply andb_true_iff in H; destruct H
  end.

(** ** Binary64 rounding *)

Module F64Facts.
Import F64.

Lemma two_pos (k : Z) : 0 < 2 ^ k.
Proof. apply Qpower_0_lt. reflexivity. Qed.

Lemma two_not_0 : ~ 2 == 0.
Proof. discriminate. Qed.

Lemma pow2_Z (k : Z) : (0 <= k)%Z -> inject_Z (2 ^ k) == 2 ^ k.
Proof. intro H. now rewrite Zpower_Qpower. Qed.

Lemma binade_spec (q : Q) :
  0 < q -> 2 ^ binade q <= q /\ q < 2 ^ (binade q + 1).
Proof.
  intro P. destruct q as [n d]. 
  assert (Pn : (0 < n)%Z) by (unfold Qlt in P; simpl in P; lia).
  unfold binade. cbn [Qnum Qden].
  pose proof (Z.log2_spec n Pn) as [Ln Un].
  pose proof (Z.log2_spec (Z.pos d) (Pos2Z.is_pos d)) as [Ld Ud].
  pose proof (Z.log2_nonneg n) as Nn.
  pose proof (Z.log2_nonneg (Z.pos d)) as Nd.
  set (ln := Z.log2 n) in *. set (ld := Z.log2 (Z.pos d)) in *.
  unfold Z.succ in *.
  assert (Pd : (0 < 2 ^ ld)%Z) by (apply Z.pow_pos_nonneg; lia).
  assert (Pl : (0 < 2 ^ ln)%Z) by (apply Z.pow_pos_nonneg; lia).
  assert (E : n # d == inject_Z n / inject_Z (Z.pos d)) by apply Qmake_Qdiv.
  assert (Dp : 0 < inject_Z (Z.pos d)) by (unfold Qlt; simpl; lia).
  assert (Up : n # d < 2 ^ (ln - ld + 1)).
  { replace (ln - ld + 1)%Z with ((ln + 1) - ld)%Z by lia.
    rewrite Qpower_minus by apply two_not_0. rewrite E.
    rewrite <- !pow2_Z by lia.
    apply Qlt_shift_div_l; [rewrite pow2_Z by lia; apply two_pos|].
    unfold Qdiv. rewrite <- Qmult_assoc, (Qmult_comm (/ _)), Qmult_assoc.
    apply Qlt_shift_div_r; [exact Dp|].
    rewrite <- !inject_Z_mult. rewrite <- Zlt_Qlt. nia. }
  assert (Lo : 2 ^ (ln - ld - 1) <= n # d).
  { replace (ln - ld - 1)%Z with (ln - (ld + 1))%Z by lia.
    rewrite Qpower_minus by apply two_not_0. rewrite E.
    rewrite <- !pow2_Z by lia.
    apply Qle_shift_div_r; [rewrite pow2_Z by lia; apply two_pos|].
    unfold Qdiv. rewrite <- Qmult_assoc, (Qmult_comm (/ _)), Qmult_assoc.
    apply Qle_shift_div_l; [exact Dp|].
    rewrite <- !inject_Z_mult. rewrite <- Zle_Qle.
    rewrite Z.pow_add_r in * by lia. nia. }
  destruct (Qle_bool (2 ^ (ln - ld)) (n # d)) eqn:B.
  - apply Qle_bool_iff in B. split; assumption.
  - assert (B' : n # d < 2 ^ (ln - ld)).
    { apply Qnot_le_lt. intro C. apply Qle_bool_iff in C. congruence. }
    split; [exact Lo|].
    replace (ln - ld - 1 + 1)%Z with (ln - ld)%Z by lia. exact B'.
Qed.


Lemma Qabs_bounds (x : Q) : x <= Qabs x /\ - x <= Qabs x.
Proof. split; [apply Qle_Qabs|]. rewrite <- Qabs_opp. apply Qle_Qabs. Qed.

Lemma rne_floor (q : Q) : rne q = Qfloor q \/ rne q = (Qfloor q + 1)%Z.
Proof.
  unfold rne. destruct (Qcompare _ _); [destruct (Z.even _)| |]; auto.
Qed.

(** [rne q] is an integer nearest to [q]. *)
Lemma rne_nearest (q : Q) (m : Z) :
  Qabs (inject_Z (rne q) - q) <= Qabs (inject_Z m - q).
Proof.
  pose proof (Qfloor_le q) as F1. pose proof (Qlt_floor q) as F2.
  rewrite inject_Z_plus in F2. change (inject_Z 1) with 1 in F2.
  assert (M : inject_Z m <= inject_Z (Qfloor q)
              \/ inject_Z (Qfloor q) + 1 <= inject_Z m).
  { destruct (Z_le_gt_dec m (Qfloor q)) as [L | G].
    - left. now rewrite Zle_Qle in L.
    - right. assert (G' : (Qfloor q + 1 <= m)%Z) by lia.
      rewrite Zle_Qle, inject_Z_plus in G'. exact G'. }
  destruct (Qabs_bounds (inject_Z m - q)) as [B1 B2].
  apply Qabs_Qle_condition.
  unfold rne. destruct (Qcompare (q - inject_Z (Qfloor q)) (1 # 2)) eqn:C.
  - apply Qeq_alt in C.
    destruct (Z.even (Qfloor q));
      [|rewrite inject_Z_plus; change (inject_Z 1) with 1];
      destruct M; split; lra.
  - apply Qlt_alt in C. destruct M; split; lra.
  - apply Qgt_alt in C. rewrite inject_Z_plus. change (inject_Z 1) with 1.
    destruct M; split; lra.
Qed.

(** The same on a grid of step [u]. *)
Lemma grid_nearest (q u : Q) (m : Z) :
  0 < u ->
  Qabs (inject_Z (rne (q / u)) * u - q) <= Qabs (inject_Z m * u - q).
Proof.
  intro U.
  assert (E : forall z : Z, inject_Z z * u - q == (inject_Z z - q / u) * u)
    by (intro z; field; lra).
  rewrite !E, !Qabs_Qmult, (Qabs_pos u) by lra.
  apply Qmult_le_compat_r; [apply rne_nearest | lra].
Qed.

Lemma round_pos_value (q : Q) :
  round_pos q == inject_Z (rne (q / 2 ^ grid q)) * 2 ^ grid q.
Proof. unfold round_pos. apply Qred_correct. Qed.

Lemma grid_emin (q : Q) : (emin <= grid q)%Z.
Proof. unfold grid. lia. Qed.

Lemma pow2_le (a b : Z) : (a <= b)%Z -> 2 ^ a <= 2 ^ b.
Proof. intro H. apply Qpower_le_compat_l; [exact H | discriminate]. Qed.

Lemma pow2_split (a b : Z) : 2 ^ (a + b) == 2 ^ a * 2 ^ b.
Proof. apply Qpower_plus, two_not_0. Qed.

(** The mantissa of the rounded value has at most 53 bits. *)
Lemma round_pos_mantissa (q : Q) :
  0 < q -> (0 <= rne (q / 2 ^ grid q) <= 2 ^ 53)%Z.
Proof.
  intro P. destruct (binade_spec q P) as [_ Up].
  set (u := 2 ^ grid q).
  assert (U : 0 < u) by apply two_pos.
  assert (Q0 : 0 <= q / u).
  { apply Qle_shift_div_l; [exact U | lra]. }
  assert (Q1 : q / u < inject_Z (2 ^ 53)).
  { apply Qlt_shift_div_r; [exact U|].
    rewrite pow2_Z by lia. unfold u. rewrite <- pow2_split.
    eapply Qlt_le_trans; [exact Up|]. apply pow2_le. unfold grid. lia. }
  pose proof (Qfloor_le (q / u)) as F1.
  pose proof (Qlt_floor (q / u)) as F2.
  assert (A : (0 <= Qfloor (q / u))%Z).
  { change 0%Z with (Qfloor 0). now apply Qfloor_resp_le. }
  assert (B : (Qfloor (q / u) < 2 ^ 53)%Z).
  { rewrite Zlt_Qlt. lra. }
  destruct (rne_floor (q / u)) as [R | R]; rewrite R; lia.
Qed.

Lemma representable_opp (x : Q) : representable x -> representable (- x).
Proof.
  intros (n & k & N & K & E). exists (- n)%Z, k.
  split; [lia|]. split; [exact K|].
  rewrite E, inject_Z_opp. ring.
Qed.

Lemma representable_0 : representable 0.
Proof. exists 0%Z, 0%Z. split; [simpl; lia|]. split; [unfold emin; lia|]. reflexivity. Qed.

Lemma round_pos_representable (q : Q) : 0 < q -> representable (round_pos q).
Proof.
  intro P. exists (rne (q / 2 ^ grid q)), (grid q).
  pose proof (round_pos_mantissa q P).
  split; [lia|]. split; [apply grid_emin | apply round_pos_value].
Qed.

(** No double is nearer to [q] than [round_pos q]. *)
Lemma round_pos_nearest (q f : Q) :
  0 < q -> representable f ->
  Qabs (round_pos q - q) <= Qabs (f - q).
Proof.
  intros P (n & j & N & J & E).
  rewrite round_pos_value, E.
  set (k := grid q). assert (U : 0 < 2 ^ k) by apply two_pos.
  destruct (Z_le_gt_dec k j) as [L | G].
  - (* [f] lies on the grid *)
    replace j with ((j - k) + k)%Z by lia.
    rewrite pow2_split, Qmult_assoc, <- (pow2_Z (j - k)) by lia.
    rewrite <- inject_Z_mult. apply grid_nearest, U.
  - (* [f] is below the binade of [q] *)
    destruct (binade_spec q P) as [Lo _].
    assert (K : k = (binade q - 52)%Z) by (unfold k, grid in *; lia).
    assert (F : inject_Z n * 2 ^ j <= 2 ^ binade q).
    { apply Qle_trans with (inject_Z (2 ^ 53) * 2 ^ j).
      - apply Qmult_le_compat_r; [|apply Qlt_le_weak, two_pos].
        rewrite <- Zle_Qle. lia.
      - rewrite pow2_Z by lia. rewrite <- pow2_split. apply pow2_le. lia. }
    assert (T : 2 ^ binade q == inject_Z (2 ^ 52) * 2 ^ k).
    { rewrite pow2_Z by lia. rewrite <- pow2_split. now replace (52 + k)%Z with (binade q) by lia. }
    pose proof (grid_nearest q (2 ^ k) (2 ^ 52) U) as G1.
    rewrite <- T in G1.
    eapply Qle_trans; [exact G1|].
    rewrite (Qabs_neg (2 ^ binade q - q)) by lra.
    rewrite (Qabs_neg (inject_Z n * 2 ^ j - q)) by lra. lra.
Qed.

Lemma Qred_num_sign (q : Q) :
  match Qnum (Qred q) with
  | Z0 => q == 0
  | Zpos _ => 0 < Qred q
  | Zneg _ => Qred q < 0
  end.
Proof.
  pose proof (Qred_correct q) as E.
  destruct (Qred q) as [n d] eqn:R. cbn [Qnum].
  destruct n.
  - rewrite <- E. reflexivity.
  - reflexivity.
  - reflexivity.
Qed.

Lemma fl_representable (q : Q) : representable (fl q).
Proof.
  unfold fl. pose proof (Qred_num_sign q) as S.
  destruct (Qnum (Qred q)).
  - apply representable_0.
  - now apply round_pos_representable.
  - apply representable_opp, round_pos_representable. lra.
Qed.

(** Rounding to nearest: no double is nearer to [q] than [fl q]. *)
Lemma fl_nearest (q f : Q) :
  representable f -> Qabs (fl q - q) <= Qabs (f - q).
Proof.
  intro F. unfold fl. pose proof (Qred_num_sign q) as S.
  pose proof (Qred_correct q) as E.
  set (r := Qred q) in *. clearbody r.
  destruct (Qnum r).
  - rewrite S. setoid_replace (0 - 0) with 0 by ring. apply Qabs_nonneg.
  - rewrite <- E. now apply round_pos_nearest.
  - rewrite <- E.
    setoid_replace (- round_pos (- r) - r)
      with (- (round_pos (- r) - - r)) by ring.
    setoid_replace (f - r) with (- (- f - - r)) by ring.
    rewrite !Qabs_opp. apply round_pos_nearest; [lra|].
    now apply representable_opp.
Qed.

Lemma fl_comp (p q : Q) : p == q -> fl p = fl q.
Proof. intro E. unfold fl. now rewrite (Qred_complete p q E). Qed.

#[global] Instance fl_proper : Proper (Qeq ==> Qeq) fl.
Proof. intros p q E. now rewrite (fl_comp p q E). Qed.

Lemma fl_exact (q : Q) : representable q -> fl q == q.
Proof.
  intro R. pose proof (fl_nearest q q R) as N.
  setoid_replace (q - q) with 0 in N by ring.
  change (Qabs 0) with 0 in N.
  pose proof (Qabs_nonneg (fl q - q)) as A.
  destruct (Qabs_bounds (fl q - q)). lra.
Qed.

Lemma fl_idem (q : Q) : fl (fl q) == fl q.
Proof. apply fl_exact, fl_representable. Qed.

Lemma fl_mono (p q : Q) : p <= q -> fl p <= fl q.
Proof.
  intro L. apply Qnot_lt_le. intro C.
  pose proof (fl_nearest p (fl q) (fl_representable q)) as N1.
  pose proof (fl_nearest q (fl p) (fl_representable p)) as N2.
  assert (X : fl q < p).
  { apply Qnot_le_lt. intro H.
    rewrite (Qabs_pos (fl p - p)), (Qabs_pos (fl q - p)) in N1 by lra. lra. }
  assert (Y : q < fl p).
  { apply Qnot_le_lt. intro H.
    rewrite (Qabs_neg (fl q - q)), (Qabs_neg (fl p - q)) in N2 by lra. lra. }
  rewrite (Qabs_pos (fl p - p)), (Qabs_neg (fl q - p)) in N1 by lra.
  rewrite (Qabs_neg (fl q - q)), (Qabs_pos (fl p - q)) in N2 by lra.
  assert (E : p == q) by lra.
  rewrite (fl_comp p q E) in C. lra.
Qed.

Lemma fl_0 : fl 0 = 0.
Proof. reflexivity. Qed.

Lemma fl_nonneg (q : Q) : 0 <= q -> 0 <= fl q.
Proof. intro H. rewrite <- fl_0. now apply fl_mono. Qed.

Lemma fl_nonpos (q : Q) : q <= 0 -> fl q <= 0.
Proof. intro H. rewrite <- fl_0. now apply fl_mono. Qed.

Lemma fl_opp (q : Q) : fl (- q) == - fl q.
Proof.
  unfold fl. rewrite Qred_opp.
  destruct (Qred q) as [n d]. destruct n; cbn [Qnum Qopp Z.opp].
  - reflexivity.
  - reflexivity.
  - cbn. ring.
Qed.

(** Rounding at most doubles a magnitude. *)
Lemma fl_le_double (q : Q) : 0 <= q -> fl q <= 2 * q.
Proof.
  intro H. pose proof (fl_nearest q 0 representable_0) as N.
  pose proof (fl_nonneg q H) as P.
  rewrite (Qabs_neg (0 - q)) in N by lra.
  destruct (Qabs_bounds (fl q - q)). lra.
Qed.

(** Rounding keeps the sign and at most doubles the magnitude. *)
Lemma fl_shrink (q : Q) :
  (0 <= q -> 0 <= fl q <= 2 * q) /\ (q <= 0 -> 2 * q <= fl q <= 0).
Proof.
  split; intro H.
  - split; [now apply fl_nonneg | now apply fl_le_double].
  - pose proof (fl_le_double (- q)) as D. rewrite fl_opp in D.
    split; [lra | now apply fl_nonpos].
Qed.

Lemma representable_Z (n : Z) : (Z.abs n <= 2 ^ 53)%Z -> representable (inject_Z n).
Proof.
  intro H. exists n, 0%Z. split; [exact H|]. split; [unfold emin; lia|].
  change (2 ^ 0) with 1. ring.
Qed.

Lemma fl_Z (n : Z) : (Z.abs n <= 2 ^ 53)%Z -> fl (inject_Z n) == inject_Z n.
Proof. intro H. apply fl_exact, representable_Z, H. Qed.

End F64Facts.

(** ** Camera *)

Module CameraFacts.
Import Camera.

Lemma max_scroll_value : max_scroll == 1960.
Proof. reflexivity. Qed.

Lemma smoothing_value :
  F64.fl (2 # 10) = 3602879701896397 # 18014398509481984.
Proof. vm_compute. reflexivity. Qed.

Lemma smoothing_small : 0 <= F64.fl (2 # 10) <= 1 # 4.
Proof. rewrite smoothing_value. split; [discriminate | discriminate]. Qed.

Lemma target_in_range (c : t) (mario_x : Q) :
  0 <= target_x (update c mario_x) <= max_scroll.
Proof.
  unfold update; simpl.
  split.
  - apply py_max_spec.
  - apply py_max_lub.
    + unfold max_scroll. simpl. unfold Qle. simpl. lia.
    + apply py_min_spec.
Qed.

(** The float step [(target - x) * smoothing] points from [x] to the target
    and is no longer than the distance between them. *)
Lemma step_between (x0 target s : Q) :
  0 <= s <= 1 # 4 ->
  let p := F64.mul (F64.sub target x0) s in
  (x0 <= target -> x0 <= x0 + p <= target) /\
  (target <= x0 -> target <= x0 + p <= x0).
Proof.
  intros [S0 S1] p. unfold p, F64.mul, F64.sub.
  destruct (F64Facts.fl_shrink (target - x0)) as [D1 D2].
  destruct (F64Facts.fl_shrink (F64.fl (target - x0) * s)) as [P1 P2].
  split; intro H.
  - destruct D1 as [Da Db]; [lra|].
    destruct P1 as [Pa Pb]; [nra|]. split; nra.
  - destruct D2 as [Da Db]; [lra|].
    destruct P2 as [Pa Pb]; [nra|]. split; nra.
Qed.

Lemma update_in_range (c : t) (mario_x : Q) :
  in_range c -> in_range (update c mario_x).
Proof.
  intros (Hlo & Hhi & Hs).
  pose proof (target_in_range c mario_x) as [Tlo Thi].
  pose proof (step_between (x c) (target_x (update c mario_x)) (smoothing c))
    as B.
  rewrite Hs in B at 1 2. specialize (B smoothing_small).
  destruct B as [B1 B2].
  assert (E : x (update c mario_x)
              = F64.fl (x c + F64.mul (F64.sub (target_x (update c mario_x))
                                               (x c)) (smoothing c)))
    by reflexivity.
  assert (M : F64.fl max_scroll == max_scroll).
  { apply (F64Facts.fl_Z 1960). simpl. lia. }
  unfold in_range. rewrite E. repeat split.
  - apply F64Facts.fl_nonneg.
    destruct (Qlt_le_dec (x c) (target_x (update c mario_x))) as [L | L];
      [destruct B1 | destruct B2]; lra.
  - rewrite <- M. apply F64Facts.fl_mono.
    destruct (Qlt_le_dec (x c) (target_x (update c mario_x))) as [L | L];
      [destruct B1 | destruct B2]; lra.
  - exact Hs.
Qed.

Lemma run_in_range (xs : list Q) :
  forall c, in_range c -> in_range (run c xs).
Proof.
  induction xs as [|mx xs IH]; intros c Hc; simpl.
  - exact Hc.
  - apply IH. now apply update_in_range.
Qed.

Lemma init_in_range : in_range init.
Proof. unfold in_range, init; simpl. repeat split; [lra | unfold max_scroll; simpl; unfold Qle; simpl; lia]. Qed.

End CameraFacts.

(** C3. Starting from the camera as [Camera.__init__] builds it, after any
    sequence of [Camera.update] calls, with any player x whatever (left of
    the world, right of it, or inside), the offset [Camera.x] lies between
    [0] and [world_width - viewport_width], which is [2200 - 240 = 1960]. *)
Theorem camera_offset_within_scroll_range (xs : list Q) :
  0 <= Camera.x (Camera.run Camera.init xs) <= inject_Z (2200 - 240).
Proof.
  destruct (CameraFacts.run_in_range xs Camera.init CameraFacts.init_in_range)
    as (Hlo & Hhi & _).
  split; [exact Hlo | exact Hhi].
Qed.

(** ** Input controller: tilt *)

Module TiltFacts.
Import IMU.

Lemma deadzone_value :
  TILT_DEADZONE = 3602879701896397 # 4503599627370496.
Proof. vm_compute. reflexivity. Qed.

Lemma deadzone_pos : 0 < TILT_DEADZONE.
Proof. rewrite deadzone_value. reflexivity. Qed.

Lemma py_min_Qmin (a b : Q) : py_min a b == Qmin a b.
Proof.
  unfold py_min. destruct (Qltb b a) eqn:E; order_facts.
  - symmetry. apply Q.min_r. lra.
  - symmetry. apply Q.min_l. exact E.
Qed.

Lemma py_max_Qmax (a b : Q) : py_max a b == Qmax a b.
Proof.
  unfold py_max. destruct (Qgtb b a) eqn:E; order_facts.
  - symmetry. apply Q.max_r. lra.
  - symmetry. apply Q.max_l. exact E.
Qed.

Lemma tilt_of_inside (a : Q) :
  Qabs a < TILT_DEADZONE -> tilt_of a = (0, false, false).
Proof.
  intro H. unfold tilt_of. apply Qltb_lt in H. now rewrite H.
Qed.

Lemma tilt_of_right (a : Q) :
  TILT_DEADZONE <= a ->
  tilt_of a
  = (py_min 1 (F64.div (F64.sub a TILT_DEADZONE) TILT_MAX), false, true).
Proof.
  intro H. unfold tilt_of. pose proof deadzone_pos as D.
  assert (P : 0 < a) by lra.
  assert (A : Qltb (Qabs a) TILT_DEADZONE = false).
  { apply Qltb_ge. rewrite Qabs_pos by lra. exact H. }
  rewrite A. apply Qgtb_gt in P. now rewrite P.
Qed.

Lemma tilt_of_left (a : Q) :
  a <= - TILT_DEADZONE ->
  tilt_of a
  = (py_max (-1) (F64.div (F64.add a TILT_DEADZONE) TILT_MAX), true, false).
Proof.
  intro H. unfold tilt_of. pose proof deadzone_pos as D.
  assert (P : a <= 0) by lra.
  assert (A : Qltb (Qabs a) TILT_DEADZONE = false).
  { apply Qltb_ge. rewrite Qabs_neg by lra. lra. }
  rewrite A. apply Qgtb_le in P. now rewrite P.
Qed.

Lemma scaled_nonneg (a : Q) : 0 <= a -> 0 <= F64.div a TILT_MAX.
Proof.
  intro H. apply F64Facts.fl_nonneg.
  unfold Qdiv. apply Qmult_le_0_compat; [exact H|].
  unfold TILT_MAX. unfold Qinv; simpl. unfold Qle; simpl; lia.
Qed.

Lemma scaled_nonpos (a : Q) : a <= 0 -> F64.div a TILT_MAX <= 0.
Proof.
  intro H. apply F64Facts.fl_nonpos.
  assert (N : 0 <= (- a) / TILT_MAX).
  { unfold Qdiv. apply Qmult_le_0_compat; [lra|].
    unfold TILT_MAX. unfold Qinv; simpl. unfold Qle; simpl; lia. }
  assert (E : (- a) / TILT_MAX == - (a / TILT_MAX)) by (unfold TILT_MAX; field).
  rewrite E in N. lra.
Qed.

Lemma tilt_of_bounds (a : Q) :
  let '(tilt, _, _) := tilt_of a in -1 <= tilt <= 1.
Proof.
  unfold tilt_of.
  destruct (Qltb (Qabs a) TILT_DEADZONE) eqn:A; [split; lra|].
  apply Qltb_ge in A.
  destruct (Qgtb a 0) eqn:P; order_facts.
  - rewrite Qabs_pos in A by lra.
    pose proof (py_min_spec 1 (F64.div (F64.sub a TILT_DEADZONE) TILT_MAX))
      as [M1 _].
    split; [|exact M1].
    apply Qle_trans with 0; [lra|].
    apply py_min_glb; [lra|]. apply scaled_nonneg.
    apply F64Facts.fl_nonneg. lra.
  - rewrite Qabs_neg in A by lra.
    pose proof (py_max_spec (-1) (F64.div (F64.add a TILT_DEADZONE) TILT_MAX))
      as [M1 _].
    split; [exact M1|].
    apply Qle_trans with 0; [|lra].
    apply py_max_lub; [lra|]. apply scaled_nonpos.
    apply F64Facts.fl_nonpos. lra.
Qed.

Lemma update_tilt (s : t) (r : reading) :
  let '(ax, _, _) := accel r in
  (tilt_value (update s r), left (update s r), right (update s r))
  = tilt_of (F64.sub ax (offset_x s)).
Proof.
  unfold update. destruct (accel r) as [[ax ay] az].
  destruct (tilt_of (F64.sub ax (offset_x s))) as [[tilt l] rt].
  destruct (arm s (negb (btn_value r))) as [buf frames].
  destruct buf; [destruct (frames - 1 <=? 0)%Z|]; reflexivity.
Qed.

End TiltFacts.

(** C8. Let [adjusted] be the float that [IMUController.update] computes
    for the raw tilt reading minus the calibration offset.  After the
    call: [tilt_value] always lies in [[-1, 1]]; an [adjusted] of magnitude
    below the deadzone gives exactly [0] with [left] and [right] both
    false; an [adjusted] at or beyond the deadzone on the positive side
    gives the float [(adjusted - deadzone) / max_tilt] capped at [1], which
    is not negative, with [right] set and [left] clear; on the negative
    side it gives the float [(adjusted + deadzone) / max_tilt] capped at
    [-1], which is not positive, with [left] set and [right] clear.  The
    subtractions, the addition and the divisions are those of binary64. *)
Theorem tilt_deadzone_scale_clamp (s : IMU.t) (ax ay az : Q) (btn touch : bool) :
  let adjusted := F64.sub ax (IMU.offset_x s) in
  let s' := IMU.update s (IMU.mk_reading (ax, ay, az) btn touch) in
  (-1 <= IMU.tilt_value s' <= 1) /\
  (Qabs adjusted < TILT_DEADZONE ->
     IMU.tilt_value s' = 0 /\ IMU.left s' = false /\ IMU.right s' = false) /\
  (TILT_DEADZONE <= adjusted ->
     IMU.tilt_value s'
       == Qmin 1 (F64.div (F64.sub adjusted TILT_DEADZONE) TILT_MAX) /\
     0 <= IMU.tilt_value s' /\
     IMU.left s' = false /\ IMU.right s' = true) /\
  (adjusted <= - TILT_DEADZONE ->
     IMU.tilt_value s'
       == Qmax (-1) (F64.div (F64.add adjusted TILT_DEADZONE) TILT_MAX) /\
     IMU.tilt_value s' <= 0 /\
     IMU.left s' = true /\ IMU.right s' = false).
Proof.
  intros adjusted s'.
  pose proof (TiltFacts.update_tilt s (IMU.mk_reading (ax, ay, az) btn touch)) as U.
  simpl in U. fold s' in U. fold adjusted in U.
  pose proof (TiltFacts.tilt_of_bounds adjusted) as B.
  rewrite <- U in B.
  split; [exact B|].
  split; [|split].
  - intro H. rewrite (TiltFacts.tilt_of_inside _ H) in U.
    inversion U. auto.
  - intro H. rewrite (TiltFacts.tilt_of_right _ H) in U.
    inversion U as [[T L R]].
    split; [rewrite T; apply TiltFacts.py_min_Qmin|].
    split; [|auto].
    rewrite T. apply py_min_glb; [lra|]. apply TiltFacts.scaled_nonneg.
    apply F64Facts.fl_nonneg. lra.
  - intro H. rewrite (TiltFacts.tilt_of_left _ H) in U.
    inversion U as [[T L R]].
    split; [rewrite T; apply TiltFacts.py_max_Qmax|].
    split; [|auto].
    rewrite T. apply py_max_lub; [lra|]. apply TiltFacts.scaled_nonpos.
    apply F64Facts.fl_nonpos. lra.
Qed.

Lemma tilt_deadzone_scale_clamp_witness :
  let level := IMU.mk 5 0 (F64.fl (98 # 10)) true false 0 true
                      false false false false 0 in
  let inside :=
    IMU.update level (IMU.mk_reading (F64.fl (58 # 10), 0, F64.fl (98 # 10))
                                     true false) in
  let tilted :=
    IMU.update level (IMU.mk_reading (F64.fl (88 # 10), 0, 9) true false) in
  let back := IMU.update level (IMU.mk_reading (-4, 0, 4) true false) in
  (IMU.tilt_value inside = 0 /\ IMU.left inside = false /\
   IMU.right inside = false) /\
  (IMU.tilt_value tilted
     == Qmin 1 (F64.div (F64.sub (F64.sub (F64.fl (88 # 10)) 5) TILT_DEADZONE)
                        TILT_MAX) /\
   0 <= IMU.tilt_value tilted /\
   IMU.left tilted = false /\ IMU.right tilted = true) /\
  (IMU.tilt_value back
     == Qmax (-1) (F64.div (F64.add (F64.sub (-4) 5) TILT_DEADZONE) TILT_MAX) /\
   IMU.tilt_value back <= 0 /\
   IMU.left back = true /\ IMU.right back = false).
Proof.
  intros level inside tilted back.
  split; [|split].
  - apply (tilt_deadzone_scale_clamp level (F64.fl (58 # 10)) 0
             (F64.fl (98 # 10)) true false).
    vm_compute. reflexivity.
  - apply (tilt_deadzone_scale_clamp level (F64.fl (88 # 10)) 0 9 true false).
    vm_compute. discriminate.
  - apply (tilt_deadzone_scale_clamp level (-4) 0 4 true false).
    vm_compute. discriminate.
Defined.

(** ** Player *)

Module MarioFacts.
Import Mario.

(** Up to the platform loop, [update] leaves the player's size alone and
    moves him vertically by exactly the velocity it has settled on. *)
Lemma before_collisions_height (m : t) (imu : IMU.t) :
  height (before_collisions m imu) = height m.
Proof.
  unfold before_collisions, integrate, airborne, start_jump, steer,
    tick_invincible.
  destruct (invincible m >? 0)%Z; simpl;
  destruct (negb (Qeq_bool (IMU.tilt_value imu) 0)); simpl;
  repeat match goal with
  | |- context [if ?b then _ else _] => destruct b; simpl
  end; reflexivity.
Qed.

Lemma before_collisions_y (m : t) (imu : IMU.t) :
  y (before_collisions m imu) = y m + vel_y (before_collisions m imu).
Proof.
  unfold before_collisions, integrate, airborne, start_jump, steer,
    tick_invincible.
  destruct (invincible m >? 0)%Z; simpl;
  destruct (negb (Qeq_bool (IMU.tilt_value imu) 0)); simpl;
  repeat match goal with
  | |- context [if ?b then _ else _] => destruct b; simpl
  end; reflexivity.
Qed.

(** The platform loop either leaves the player as it found him or returns
    what [check_platform_collision] made of that same player at one of the
    platforms; every call of the loop is made on the player as he entered
    it. *)
Lemma platform_loop_calls (m : t) (prev_y : Q) (ps : list Platform.t) :
  platform_loop m prev_y ps = m \/
  exists p, In p ps /\ far m p = false /\
            check_platform_collision m p prev_y = (true, platform_loop m prev_y ps).
Proof.
  induction ps as [|p ps IH]; simpl; [now left|].
  destruct (far m p) eqn:F.
  - destruct IH as [IH | (q & Hq & Fq & Cq)]; [now left|].
    right. exists q. auto.
  - destruct (check_platform_collision m p prev_y) as [hit m'] eqn:C.
    destruct hit.
    + right. exists p. auto.
    + assert (m' = m) as ->.
      { unfold check_platform_collision in C.
        repeat match type of C with
        | (if ?b then _ else _) = _ => destruct b
        end; inversion C; reflexivity. }
      destruct IH as [IH | (q & Hq & Fq & Cq)]; [now left|].
      right. exists q. auto.
Qed.

Lemma ground_collision_y (m : t) : y (ground_collision m) <= GROUND_Y.
Proof.
  unfold ground_collision. destruct (Qgeb (y m) GROUND_Y) eqn:G; simpl.
  - lra.
  - order_facts. lra.
Qed.

Lemma update_y (m : t) (imu : IMU.t) (ps : list Platform.t) :
  y (update m imu ps) <= GROUND_Y.
Proof. unfold update. apply ground_collision_y. Qed.

End MarioFacts.

(** C1. Inside [Mario.update], take the player as the platform loop finds
    him (moved by this frame's velocity) and any platform.  If the bottom
    edge he had before the move is not below the platform top, his vertical
    velocity is not negative, and his box after the move overlaps the
    platform's, then [check_platform_collision] reports a collision and
    leaves him with [y = platform_top - player_height] and [vel_y = 0]. *)
Theorem landing_on_top_resolution (m : Mario.t) (imu : IMU.t) (p : Platform.t) :
  let prev_y := Mario.y m in
  let moved := Mario.before_collisions m imu in
  prev_y + Mario.height moved <= Platform.y p ->
  0 <= Mario.vel_y moved ->
  Mario.overlaps moved p = true ->
  exists resolved,
    Mario.check_platform_collision moved p prev_y = (true, resolved) /\
    Mario.y resolved = Platform.y p - Mario.height m /\
    Mario.vel_y resolved = 0 /\
    Mario.on_ground resolved = true.
Proof.
  intros prev_y moved Hprev Hvel Hov.
  pose proof (MarioFacts.before_collisions_y m imu) as Hy.
  pose proof (MarioFacts.before_collisions_height m imu) as Hh.
  fold moved in Hy, Hh.
  unfold Mario.check_platform_collision. rewrite Hov.
  assert (Hpos : 0 < Mario.vel_y moved).
  { unfold Mario.overlaps in Hov. order_facts.
    rewrite Hy in *. unfold prev_y in Hprev. lra. }
  apply Qle_bool_iff in Hprev. apply Qgtb_gt in Hpos.
  rewrite Hprev, Hpos. simpl.
  eexists. split; [reflexivity|].
  cbn [Mario.y Mario.vel_y Mario.on_ground].
  split; [|auto]. rewrite <- Hh. reflexivity.
Qed.

Lemma landing_on_top_resolution_witness :
  let m := Mario.mk 210 50 0 4 false true 16 16 false 0 2 0 true in
  let imu := IMU.fresh true in
  let p := Platform.mk 200 70 16 16 Question in
  exists resolved,
    Mario.check_platform_collision (Mario.before_collisions m imu) p 50
      = (true, resolved) /\
    Mario.y resolved = 70 - 16 /\
    Mario.vel_y resolved = 0 /\
    Mario.on_ground resolved = true.
Proof.
  intros m imu p.
  apply (landing_on_top_resolution m imu p).
  - vm_compute. discriminate.
  - vm_compute. discriminate.
  - vm_compute. reflexivity.
Defined.

(** ** Session: what the enemy and coin loops leave alone *)

Module GameFacts.
Import Game.

Lemma enemy_update_alive (e : Enemy.t) (ps : list Platform.t) :
  Enemy.alive (snd (Enemy.update e ps)) = Enemy.alive e.
Proof.
  unfold Enemy.update. destruct (Enemy.alive e) eqn:A; simpl; [|exact A].
  unfold Enemy.animate.
  destruct (Enemy.frame_counter _ + 1 >=? 15)%Z; simpl.
  all: assert (W : forall e0 l, Enemy.alive (Enemy.wall_loop e0 l) = Enemy.alive e0)
    by (intros e0 l; induction l as [|q l IH]; simpl; [reflexivity|];
        destruct (Enemy.far e0 q); [exact IH|];
        destruct (Enemy.bumps e0 q); [reflexivity | exact IH]).
  all: assert (L : forall e0 l, Enemy.alive (Enemy.landing_loop e0 l) = Enemy.alive e0)
    by (intros e0 l; induction l as [|q l IH]; simpl; [reflexivity|];
        destruct (Enemy.far e0 q); [exact IH|];
        destruct (Enemy.lands_on e0 q); [reflexivity | exact IH]).
  all: rewrite W, L; exact A.
Qed.

Lemma enemy_step_outcome (g : t) (e : Enemy.t) : outcome g e (enemy_step g e).
Proof.
  unfold enemy_step.
  destruct (Enemy.update e (Level.platforms (level g))) as [gone e'] eqn:U.
  assert (G : fst (Enemy.update e (Level.platforms (level g))) = gone)
    by now rewrite U.
  assert (E : snd (Enemy.update e (Level.platforms (level g))) = e')
    by now rewrite U.
  destruct gone.
  - now apply Removed.
  - rewrite <- E.
    destruct (Enemy.alive _ && (Mario.invincible (mario g) =? 0)%Z) eqn:C.
    + apply andb_true_iff in C. destruct C as [_ Z0]. apply Z.eqb_eq in Z0.
      destruct (touches _ _).
      * destruct (Qgtb _ _ && Qltb _ _); [now apply Stomped | now apply Hurt].
      * now apply Passed.
    + now apply Passed.
Qed.

(** A property of the session that neither a stomp nor a hit disturbs holds
    after the whole enemy loop. *)
Lemma enemies_loop_keeps (P : t -> Prop) :
  (forall g, P g -> P (stomp g)) ->
  (forall g, P g -> P (hurt g)) ->
  forall es g, P g -> P (fst (enemies_loop g es)).
Proof.
  intros Hs Hh. induction es as [|e es IH]; intros g Pg; simpl; [exact Pg|].
  pose proof (enemy_step_outcome g e) as O.
  destruct (enemy_step g e) as [g1 kept].
  assert (P g1) by (inversion O; subst; auto).
  specialize (IH g1 H).
  destruct (enemies_loop g1 es) as [g2 rest]. exact IH.
Qed.

Lemma update_enemies_keeps (P : t -> Prop) :
  (forall g, P g -> P (stomp g)) ->
  (forall g, P g -> P (hurt g)) ->
  (forall g es, P g -> P (set_enemies g es)) ->
  forall g, P g -> P (update_enemies g).
Proof.
  intros Hs Hh He g Pg. unfold update_enemies.
  pose proof (enemies_loop_keeps P Hs Hh (Level.enemies (level g)) g Pg) as K.
  destruct (enemies_loop g (Level.enemies (level g))) as [g' es].
  apply He. exact K.
Qed.

Lemma update_enemies_y (g : t) :
  Mario.y (mario (update_enemies g)) = Mario.y (mario g).
Proof.
  apply (update_enemies_keeps (fun h => Mario.y (mario h) = Mario.y (mario g)));
    auto.
Qed.

Lemma update_coins_mario (g : t) : mario (update_coins g) = mario g.
Proof.
  unfold update_coins.
  destruct (coins_loop _ _ _ _) as [[cs sc] cn]. reflexivity.
Qed.

Lemma check_level_complete_mario (g : t) :
  mario (check_level_complete g) = mario g.
Proof.
  unfold check_level_complete.
  destruct (negb (level_complete g) && Qgeb _ _); reflexivity.
Qed.

Lemma before_fall_death_y (g : t) (inp : frame_input) :
  Mario.y (mario (before_fall_death g inp)) <= GROUND_Y.
Proof.
  unfold before_fall_death.
  rewrite check_level_complete_mario, update_coins_mario, update_enemies_y.
  unfold follow, move_player; simpl.
  apply MarioFacts.update_y.
Qed.

Lemma never_fell (g : t) (inp : frame_input) :
  fell (before_fall_death g inp) = false.
Proof.
  unfold fell. apply Qgtb_le.
  pose proof (before_fall_death_y g inp) as Y.
  unfold GROUND_Y in Y. unfold DISPLAY_HEIGHT. lra.
Qed.

Lemma fall_death_idle (g : t) (inp : frame_input) :
  simulate g inp = before_fall_death g inp.
Proof.
  unfold simulate, fall_death. now rewrite never_fell.
Qed.

End GameFacts.

(** C10. [Mario.update] ends with the ground clamp, so the player it returns
    has [y <= GROUND_Y] (from a player with [y <= GROUND_Y], and from any
    other too).  Nothing between it and the fall-death test of the session
    moves the player, so in every frame that test, [y > DISPLAY_HEIGHT], is
    false: the fall-death block changes nothing and takes no life. *)
Theorem ground_clamp_disarms_fall_death :
  (forall m imu platforms,
      Mario.y (Mario.update m imu platforms) <= GROUND_Y) /\
  (forall g inp,
      Game.fell (Game.before_fall_death g inp) = false /\
      Game.simulate g inp = Game.before_fall_death g inp /\
      Game.lives (Game.simulate g inp)
        = Game.lives (Game.before_fall_death g inp)).
Proof.
  split; [exact MarioFacts.update_y|].
  intros g inp.
  split; [apply GameFacts.never_fell|].
  rewrite GameFacts.fall_death_idle. auto.
Qed.

(** ** Invincibility *)

Module InvincibleFacts.
Import Game.

Lemma platform_loop_invincible (m : Mario.t) (prev_y : Q) (ps : list Platform.t) :
  Mario.invincible (Mario.platform_loop m prev_y ps) = Mario.invincible m.
Proof.
  destruct (MarioFacts.platform_loop_calls m prev_y ps) as [E | (p & _ & _ & C)].
  - now rewrite E.
  - remember (Mario.platform_loop m prev_y ps) as r eqn:R. clear R.
    unfold Mario.check_platform_collision in C.
    repeat match type of C with
    | (if ?b then _ else _) = _ => destruct b
    end; inversion C; subst; reflexivity.
Qed.

Lemma before_collisions_invincible (m : Mario.t) (imu : IMU.t) :
  Mario.invincible (Mario.before_collisions m imu)
  = Mario.invincible (Mario.tick_invincible m).
Proof.
  unfold Mario.before_collisions, Mario.integrate, Mario.airborne,
    Mario.start_jump, Mario.steer.
  generalize (Mario.tick_invincible m). intro n.
  destruct (negb (Qeq_bool (IMU.tilt_value imu) 0)); simpl;
  repeat match goal with
  | |- context [if ?b then _ else _] => destruct b; simpl
  end; reflexivity.
Qed.

Lemma update_invincible (m : Mario.t) (imu : IMU.t) (ps : list Platform.t) :
  Mario.invincible (Mario.update m imu ps)
  = Mario.invincible (Mario.tick_invincible m).
Proof.
  unfold Mario.update, Mario.ground_collision.
  destruct (Qgeb _ GROUND_Y); simpl;
    rewrite platform_loop_invincible; apply before_collisions_invincible.
Qed.

Lemma enemy_step_shielded (g : t) (e : Enemy.t) :
  Mario.invincible (mario g) <> 0%Z ->
  enemy_step g e
  = (g, if fst (Enemy.update e (Level.platforms (level g))) then None
        else Some (snd (Enemy.update e (Level.platforms (level g))))).
Proof.
  intro N. unfold enemy_step.
  destruct (Enemy.update e (Level.platforms (level g))) as [gone e']; simpl.
  destruct gone; [reflexivity|].
  apply Z.eqb_neq in N. rewrite N, andb_false_r. reflexivity.
Qed.

Lemma enemies_loop_shielded (es : list Enemy.t) (g : t) :
  Mario.invincible (mario g) <> 0%Z ->
  enemies_loop g es = (g, Enemy.survivors (Level.platforms (level g)) es).
Proof.
  intro N. induction es as [|e es IH]; simpl; [reflexivity|].
  rewrite (enemy_step_shielded g e N), IH.
  destruct (Enemy.update e (Level.platforms (level g))) as [gone e']; simpl.
  destruct gone; reflexivity.
Qed.

Lemma survivors_alive (ps : list Platform.t) (es : list Enemy.t) :
  map Enemy.alive (Enemy.survivors ps es)
  = map Enemy.alive (filter (fun e => negb (fst (Enemy.update e ps))) es).
Proof.
  induction es as [|e es IH]; simpl; [reflexivity|].
  pose proof (GameFacts.enemy_update_alive e ps) as A.
  destruct (Enemy.update e ps) as [gone e']; simpl in *.
  destruct gone; simpl; [exact IH|]. now rewrite IH, A.
Qed.

End InvincibleFacts.

(** C6. A positive invincibility counter is one less after [Mario.update],
    and not below [0].  While the counter the session sees is positive, its
    enemy loop changes neither lives, score, the player nor the game-over
    flag, and marks no enemy dead: the enemies left in the list are exactly
    those whose own update did not flag them, each as its own update left
    it. *)
Theorem invincibility_counts_down_and_shields :
  (forall m imu platforms,
      (0 < Mario.invincible m)%Z ->
      Mario.invincible (Mario.update m imu platforms)
        = (Mario.invincible m - 1)%Z /\
      (0 <= Mario.invincible (Mario.update m imu platforms)
         < Mario.invincible m)%Z) /\
  (forall g,
      (0 < Mario.invincible (Game.mario g))%Z ->
      let platforms := Level.platforms (Game.level g) in
      let before := Level.enemies (Game.level g) in
      let g' := Game.update_enemies g in
      Game.lives g' = Game.lives g /\
      Game.score g' = Game.score g /\
      Game.mario g' = Game.mario g /\
      Game.game_over g' = Game.game_over g /\
      Level.enemies (Game.level g') = Enemy.survivors platforms before /\
      map Enemy.alive (Level.enemies (Game.level g'))
        = map Enemy.alive
            (filter (fun e => negb (fst (Enemy.update e platforms))) before)).
Proof.
  split.
  - intros m imu ps H.
    rewrite InvincibleFacts.update_invincible.
    unfold Mario.tick_invincible.
    destruct (Mario.invincible m >? 0)%Z eqn:E; [simpl; lia|].
    rewrite Z.gtb_ltb in E. apply Z.ltb_ge in E. lia.
  - intros g H platforms before g'.
    assert (N : Mario.invincible (Game.mario g) <> 0%Z) by lia.
    assert (E : g' = Game.set_enemies g (Enemy.survivors platforms before)).
    { unfold g', Game.update_enemies.
      now rewrite (InvincibleFacts.enemies_loop_shielded _ g N). }
    rewrite E. simpl. repeat split.
    apply InvincibleFacts.survivors_alive.
Qed.

Lemma invincibility_counts_down_and_shields_witness :
  let hit := Mario.set_invincible (Mario.init 40 GROUND_Y) 120 in
  let g := Game.set_mario (Game.init (IMU.fresh true)) hit in
  (Mario.invincible (Mario.update hit (IMU.fresh true) Level.create_platforms)
     = (120 - 1)%Z) /\
  Game.lives (Game.update_enemies g) = 3%Z /\
  Game.score (Game.update_enemies g) = 0%Z.
Proof.
  intros hit g.
  destruct invincibility_counts_down_and_shields as [Down Shield].
  split.
  - apply (Down hit (IMU.fresh true) Level.create_platforms). reflexivity.
  - destruct (Shield g) as (L & S & _); [reflexivity|].
    split; [exact L | exact S].
Defined.

(** ** Coins *)

Module CoinFacts.
Import Game.

Lemma grows_refl (cs : list Coin.t) : Forall2 Coin.grows cs cs.
Proof.
  induction cs; constructor; [unfold Coin.grows; auto | assumption].
Qed.

Lemma coin_step_grows (m : Mario.t) (c : Coin.t) (sc cn : Z) :
  Coin.grows c (fst (fst (coin_step m c sc cn))).
Proof.
  unfold coin_step, Coin.grows.
  destruct (picks_up m c); simpl; auto.
Qed.

Lemma coins_loop_grows (m : Mario.t) (cs : list Coin.t) :
  forall sc cn, Forall2 Coin.grows cs (fst (fst (coins_loop m cs sc cn))).
Proof.
  induction cs as [|c cs IH]; intros sc cn; simpl; [constructor|].
  pose proof (coin_step_grows m c sc cn) as G.
  destruct (coin_step m c sc cn) as [[c' sc1] cn1].
  specialize (IH sc1 cn1).
  destruct (coins_loop m cs sc1 cn1) as [[rest sc2] cn2].
  simpl in *. now constructor.
Qed.

Lemma coins_loop_counts (m : Mario.t) (cs : list Coin.t) :
  forall sc cn,
    let picked := Z.of_nat (length (filter (picks_up m) cs)) in
    snd (fst (coins_loop m cs sc cn)) = (sc + 200 * picked)%Z /\
    snd (coins_loop m cs sc cn) = (cn + picked)%Z.
Proof.
  induction cs as [|c cs IH]; intros sc cn; [simpl; split; lia|].
  cbn [coins_loop filter]. unfold coin_step.
  destruct (picks_up m c).
  - specialize (IH (sc + 200)%Z (cn + 1)%Z).
    destruct (coins_loop m cs (sc + 200) (cn + 1)) as [[rest sc2] cn2].
    cbn [fst snd length] in *. rewrite Nat2Z.inj_succ.
    destruct IH. split; lia.
  - specialize (IH sc cn).
    destruct (coins_loop m cs sc cn) as [[rest sc2] cn2].
    cbn [fst snd] in *. exact IH.
Qed.

Lemma coins_loop_idle (m : Mario.t) (cs : list Coin.t) :
  (forall c, In c cs -> reaches m c = true -> Coin.collected c = true) ->
  forall sc cn, coins_loop m cs sc cn = (cs, sc, cn).
Proof.
  induction cs as [|c cs IH]; intros H sc cn; simpl; [reflexivity|].
  assert (P : picks_up m c = false).
  { unfold picks_up. destruct (reaches m c) eqn:R.
    - rewrite (H c (or_introl eq_refl) R). reflexivity.
    - apply andb_false_r. }
  unfold coin_step. rewrite P.
  rewrite IH; [reflexivity|]. intros c' I. apply H. now right.
Qed.

Lemma update_enemies_coins (g : t) :
  Level.coins (level (update_enemies g)) = Level.coins (level g).
Proof.
  apply (GameFacts.update_enemies_keeps
           (fun h => Level.coins (level h) = Level.coins (level g))); auto.
Qed.

Lemma simulate_grows (g : t) (inp : frame_input) :
  Forall2 Coin.grows (Level.coins (level g))
          (Level.coins (level (simulate g inp))).
Proof.
  rewrite GameFacts.fall_death_idle.
  unfold before_fall_death.
  set (g3 := update_enemies (follow (move_player (read_controls g inp)))).
  assert (C3 : Level.coins (level g3) = Level.coins (level g)).
  { unfold g3. rewrite update_enemies_coins. reflexivity. }
  assert (K : Level.coins (level (check_level_complete (update_coins g3)))
              = Level.coins (level (update_coins g3))).
  { unfold check_level_complete.
    destruct (negb _ && Qgeb _ _); reflexivity. }
  rewrite K. unfold update_coins.
  pose proof (coins_loop_grows (mario g3) (Level.coins (level g3))
                               (score g3) (coins g3)) as G.
  destruct (coins_loop _ _ _ _) as [[cs sc] cn]. simpl in *.
  rewrite <- C3. exact G.
Qed.

End CoinFacts.

(** C5. In every frame of the session update that does not replace the
    level by a new one, each coin stays where it is and a collected coin
    stays collected.  The coin loop raises the score by 200 and the coin
    count by 1 for each coin that is uncollected and touched, and for no
    other; so when every coin the player touches is already collected, the
    loop leaves score, coin count and coins as they were. *)
Theorem coin_collection_monotone_idempotent :
  (forall g inp,
      Game.resets g = false ->
      Forall2 Coin.grows (Level.coins (Game.level g))
              (Level.coins (Game.level (Game.update g inp)))) /\
  (forall g,
      let picked :=
        Z.of_nat (length (filter (fun c => negb (Coin.collected c)
                                           && Game.reaches (Game.mario g) c)
                                 (Level.coins (Game.level g)))) in
      Game.score (Game.update_coins g) = (Game.score g + 200 * picked)%Z /\
      Game.coins (Game.update_coins g) = (Game.coins g + picked)%Z) /\
  (forall g,
      (forall c, In c (Level.coins (Game.level g)) ->
                 Game.reaches (Game.mario g) c = true ->
                 Coin.collected c = true) ->
      Game.score (Game.update_coins g) = Game.score g /\
      Game.coins (Game.update_coins g) = Game.coins g /\
      Level.coins (Game.level (Game.update_coins g))
        = Level.coins (Game.level g)).
Proof.
  split; [|split].
  - intros g inp R. unfold Game.update, Game.resets in *.
    destruct (Game.game_over g); [apply CoinFacts.grows_refl|].
    destruct (Game.celebrating g).
    + simpl in R. unfold Game.countdown. rewrite R. simpl.
      apply CoinFacts.grows_refl.
    + apply CoinFacts.simulate_grows.
  - intros g picked.
    pose proof (CoinFacts.coins_loop_counts (Game.mario g)
                  (Level.coins (Game.level g)) (Game.score g) (Game.coins g))
      as C.
    unfold Game.update_coins.
    destruct (Game.coins_loop _ _ _ _) as [[cs sc] cn]. exact C.
  - intros g H. unfold Game.update_coins.
    rewrite (CoinFacts.coins_loop_idle _ _ H). auto.
Qed.

Lemma coin_collection_monotone_idempotent_witness :
  let start := Game.init (IMU.fresh true) in
  let inp := Game.mk_input true (IMU.mk_reading (0, 0, 9) true false) in
  let taken := Game.set_coins
                 (Game.set_mario start (Mario.init 225 50))
                 [Coin.mk 225 50 true] in
  Forall2 Coin.grows (Level.coins (Game.level start))
          (Level.coins (Game.level (Game.update start inp))) /\
  Game.reaches (Game.mario taken) (Coin.mk 225 50 true) = true /\
  Game.score (Game.update_coins taken) = Game.score taken /\
  Game.coins (Game.update_coins taken) = Game.coins taken /\
  Level.coins (Game.level (Game.update_coins taken))
    = Level.coins (Game.level taken).
Proof.
  intros start inp taken.
  destruct coin_collection_monotone_idempotent as (Mono & _ & Idem).
  split; [apply (Mono start inp); reflexivity|].
  split; [vm_compute; reflexivity|].
  apply (Idem taken).
  intros c [<- | []] _. reflexivity.
Defined.

(** ** Input controller: the jump buffer *)

Module JumpFacts.
Import IMU.

Lemma arm_no_edge (s : t) (c : call) :
  is_edge s c = false ->
  arm s (negb (pin c)) = (jump_buffer s, jump_buffer_frames s).
Proof. unfold is_edge, arm. now intros ->. Qed.

Lemma arm_edge (s : t) (c : call) :
  is_edge s c = true -> arm s (negb (pin c)) = (true, 3%Z).
Proof. unfold is_edge, arm. now intros ->. Qed.

Lemma edges_none (s : t) (c : call) (cs : list call) :
  edges s (c :: cs) = 0%nat ->
  is_edge s c = false /\ edges (step s c) cs = 0%nat.
Proof.
  simpl. destruct (is_edge s c); [discriminate|]. auto.
Qed.

Lemma reads_shift (k n : nat) :
  map (fun i => Nat.ltb i (S k)) (seq 0 (S n))
  = true :: map (fun i => Nat.ltb i k) (seq 0 n).
Proof.
  simpl. f_equal. rewrite <- seq_shift, map_map. reflexivity.
Qed.

Lemma reads_spent (n : nat) :
  map (fun i => Nat.ltb i 0) (seq 0 n) = repeat false n.
Proof.
  assert (G : forall a, map (fun i => Nat.ltb i 0) (seq a n) = repeat false n).
  { induction n as [|n IH]; intro a; simpl; [reflexivity|]. now rewrite IH. }
  apply G.
Qed.

(** What [update] does to the buffer when the call sees no edge. *)
Lemma update_buffer (s : t) (r : reading) :
  is_edge s (Update r) = false ->
  let s' := update s r in
  if jump_buffer s then
    if (jump_buffer_frames s - 1 <=? 0)%Z
    then jump s' = false /\ jump_buffer s' = false
    else jump s' = true /\ jump_buffer s' = true /\
         jump_buffer_frames s' = (jump_buffer_frames s - 1)%Z
  else jump s' = false /\ jump_buffer s' = false.
Proof.
  intros E s'. unfold s', update.
  destruct (accel r) as [[ax ay] az].
  destruct (tilt_of (F64.sub ax (offset_x s))) as [[tilt l] rt].
  change (negb (btn_value r)) with (negb (pin (Update r))).
  rewrite (arm_no_edge s _ E).
  destruct (jump_buffer s); [|simpl; auto].
  destruct (jump_buffer_frames s - 1 <=? 0)%Z; simpl; auto.
Qed.

Lemma poll_buffer (s : t) (b : bool) :
  is_edge s (Poll b) = false ->
  jump_buffer (poll_button_only s b) = jump_buffer s /\
  jump_buffer_frames (poll_button_only s b) = jump_buffer_frames s.
Proof.
  intro E. unfold poll_button_only.
  change (negb b) with (negb (pin (Poll b))).
  rewrite (arm_no_edge s _ E). simpl. auto.
Qed.

(** With the buffer off and no press to come, [jump] never reads true. *)
Lemma quiet_reads (cs : list call) :
  forall s, jump_buffer s = false -> edges s cs = 0%nat ->
            jump_reads s cs = repeat false (updates cs).
Proof.
  induction cs as [|c cs IH]; intros s B E; [reflexivity|].
  apply edges_none in E. destruct E as [E0 E].
  destruct c as [b | r].
  - destruct (poll_buffer s b E0) as [B' _].
    cbn [jump_reads step]. unfold updates. cbn [filter].
    apply IH; [congruence | exact E].
  - pose proof (update_buffer s r E0) as U. rewrite B in U.
    destruct U as [J B'].
    cbn [jump_reads step]. unfold updates. cbn [filter length].
    rewrite J. cbn [repeat]. f_equal.
    apply IH; [exact B' | exact E].
Qed.

(** With the buffer armed at [frames] and no press to come, [jump] reads
    true after each of the next [frames - 1] updates and false after the
    later ones. *)
Lemma armed_reads (cs : list call) :
  forall s, jump_buffer s = true -> edges s cs = 0%nat ->
            jump_reads s cs
            = map (fun i => Nat.ltb i (Z.to_nat (jump_buffer_frames s - 1)))
                  (seq 0 (updates cs)).
Proof.
  induction cs as [|c cs IH]; intros s B E; [reflexivity|].
  apply edges_none in E. destruct E as [E0 E].
  destruct c as [b | r].
  - destruct (poll_buffer s b E0) as [B' F'].
    cbn [jump_reads step]. unfold updates. cbn [filter].
    fold (updates cs). rewrite <- F'.
    apply IH; [congruence | exact E].
  - pose proof (update_buffer s r E0) as U. rewrite B in U.
    cbn [jump_reads step]. unfold updates. cbn [filter length].
    fold (updates cs).
    destruct (jump_buffer_frames s - 1 <=? 0)%Z eqn:L.
    + destruct U as [J B'].
      apply Z.leb_le in L.
      replace (Z.to_nat (jump_buffer_frames s - 1)) with 0%nat by lia.
      rewrite reads_spent. cbn [repeat]. rewrite J. f_equal.
      apply quiet_reads; assumption.
    + destruct U as (J & B' & F').
      apply Z.leb_gt in L.
      replace (Z.to_nat (jump_buffer_frames s - 1))
        with (S (Z.to_nat (jump_buffer_frames (update s r) - 1))) by lia.
      rewrite reads_shift, J. f_equal.
      apply IH; assumption.
Qed.

End JumpFacts.

(** C2, as the spec has it, fails: over five turns of the main loop with one
    press of the button, held for two turns, the controller sees one press
    edge and [jump] reads true after two updates, not one. *)
Lemma jump_reads_true_twice_for_one_press :
  IMU.edges (IMU.fresh true) IMU.one_press = 1%nat /\
  IMU.jump_reads (IMU.fresh true) IMU.one_press
    = [false; true; true; false; false] /\
  count_occ bool_dec (IMU.jump_reads (IMU.fresh true) IMU.one_press) true
    <> 1%nat.
Proof.
  split; [reflexivity|]. split; [reflexivity|].
  vm_compute. discriminate.
Qed.

(** C2, amended. Take any controller state and a call, a poll or an update,
    that sees a press edge, followed by any calls that see no further edge.
    Then [jump] reads true after the first two updates of the sequence and
    false after every later one: the consuming reads find it true exactly
    twice, whether the edge was caught by the update itself or by a poll
    before it. *)
Theorem jump_true_for_two_updates_after_press
  (s : IMU.t) (c : IMU.call) (cs : list IMU.call) :
  IMU.is_edge s c = true ->
  IMU.edges (IMU.step s c) cs = 0%nat ->
  IMU.jump_reads s (c :: cs)
  = map (fun i => Nat.ltb i 2) (seq 0 (IMU.updates (c :: cs))).
Proof.
  intros E Q.
  pose proof (JumpFacts.arm_edge s c E) as A.
  destruct c as [b | r].
  - cbn [IMU.jump_reads]. unfold IMU.updates. cbn [filter].
    fold (IMU.updates cs).
    rewrite (JumpFacts.armed_reads cs (IMU.step s (IMU.Poll b))); [|..].
    + simpl. unfold IMU.poll_button_only. simpl in A. rewrite A. reflexivity.
    + simpl. unfold IMU.poll_button_only. simpl in A. rewrite A. reflexivity.
    + exact Q.
  - cbn [IMU.jump_reads]. unfold IMU.updates. cbn [filter length].
    fold (IMU.updates cs).
    assert (U : IMU.jump (IMU.update s r) = true /\
                IMU.jump_buffer (IMU.update s r) = true /\
                IMU.jump_buffer_frames (IMU.update s r) = 2%Z).
    { unfold IMU.update.
      destruct (IMU.accel r) as [[ax ay] az].
      destruct (IMU.tilt_of (F64.sub ax (IMU.offset_x s))) as [[tilt l] rt].
      simpl in A. rewrite A. simpl. auto. }
    destruct U as (J & B & F).
    rewrite JumpFacts.reads_shift. cbn [IMU.step]. rewrite J. f_equal.
    rewrite (JumpFacts.armed_reads cs (IMU.update s r) B Q), F.
    reflexivity.
Qed.

Lemma jump_true_for_two_updates_after_press_witness :
  let released := IMU.step (IMU.fresh true)
                    (IMU.Update (IMU.mk_reading (0, 0, 0) true false)) in
  let held := IMU.Update (IMU.mk_reading (0, 0, 0) false false) in
  IMU.jump_reads released [IMU.Poll false; held; IMU.Poll false; held; held]
  = [true; true; false].
Proof.
  intros released held.
  apply (jump_true_for_two_updates_after_press released (IMU.Poll false)
           [held; IMU.Poll false; held; held]); reflexivity.
Defined.

(** ** Enemy: walls *)

Module EnemyFacts.
Import Enemy.

Lemma wall_loop_first (e : t) (ps : list Platform.t) :
  wall_loop e ps
  = match first_wall e ps with Some p => bounce e p | None => e end.
Proof.
  unfold first_wall.
  induction ps as [|p ps IH]; simpl; [reflexivity|].
  destruct (far e p); simpl; [exact IH|].
  destruct (bumps e p); [reflexivity | exact IH].
Qed.

Lemma first_wall_bumps (e : t) (ps : list Platform.t) (p : Platform.t) :
  first_wall e ps = Some p ->
  In p ps /\ far e p = false /\ bumps e p = true.
Proof.
  unfold first_wall. intro F. apply find_some in F.
  destruct F as [I C]. apply andb_true_iff in C. destruct C as [N B].
  apply negb_true_iff in N. auto.
Qed.

Lemma landing_loop_vel_x (e : t) (ps : list Platform.t) :
  vel_x (landing_loop e ps) = vel_x e /\ width (landing_loop e ps) = width e.
Proof.
  induction ps as [|p ps IH]; simpl; [auto|].
  destruct (far e p); [exact IH|].
  destruct (lands_on e p); [simpl; auto | exact IH].
Qed.

Lemma animate_position (e : t) :
  x (animate e) = x e /\ y (animate e) = y e /\ vel_x (animate e) = vel_x e.
Proof.
  unfold animate. destruct (frame_counter e + 1 >=? 15)%Z; simpl; auto.
Qed.

(** The flag of [update] is raised for a live enemy that ends the call more
    than [50] below the screen, and for no other. *)
Lemma update_flag (e : t) (ps : list Platform.t) :
  fst (update e ps) = alive e && below_screen (snd (update e ps)).
Proof.
  unfold update. destruct (alive e); reflexivity.
Qed.

Lemma update_dead (e : t) (ps : list Platform.t) :
  alive e = false -> update e ps = (false, e).
Proof. unfold update. now intros ->. Qed.

End EnemyFacts.

(** C9, as the spec has it, fails.  The level's second enemy, walking left,
    comes under the question block at [x = 300] on its 35th update; the
    block's bottom edge ([86]) is above the enemy's ([120]).  Its velocity
    turns from [-1] to [1], and it is put at [316], the block's right edge,
    not at [300 - 16], the block's left edge minus the enemy width. *)
Lemma enemy_moving_left_is_put_at_right_edge :
  let e := Level.second_enemy_at_block in
  let e' := snd (Enemy.update e Level.create_platforms) in
  let block := Level.block 300 70 16 Question in
  Enemy.vel_x e = -1 /\
  Enemy.first_wall
    (Enemy.landing_loop (Enemy.move e) Level.create_platforms)
    Level.create_platforms = Some block /\
  Enemy.vel_x e' = 1 /\
  Enemy.x e' = Platform.x block + Platform.width block /\
  Enemy.x e' == 316 /\
  ~ Enemy.x e' == Platform.x block - Enemy.width e.
Proof.
  vm_compute. repeat split; discriminate.
Qed.

(** The level's first enemy, spawned at [x = 150], never turns: it walks
    left past the first ground block, drops, and its 181st update flags it
    for removal, its velocity still [-1]. *)
Lemma first_enemy_walks_off_the_level :
  map (fun r => (fst r, Enemy.vel_x (snd r)))
      (Enemy.trace 181 (Enemy.init 150 GROUND_Y) Level.create_platforms)
  = repeat (false, -1) 180 ++ [(true, -1)].
Proof. vm_compute. reflexivity. Qed.

(** C9, amended.  Let a live enemy move left, and let the wall loop of
    [Enemy.update] find a platform: the first one in the level's list that is
    within range, overlaps the enemy horizontally and has its bottom edge
    above the enemy's.  Then the enemy leaves the update with its horizontal
    velocity negated, now positive, and with its x at the platform's right
    edge, [platform.x + platform.width]. *)
Theorem enemy_moving_left_bounces_to_right_edge
  (e : Enemy.t) (platforms : list Platform.t) (p : Platform.t) :
  Enemy.alive e = true ->
  Enemy.vel_x e < 0 ->
  Enemy.first_wall (Enemy.landing_loop (Enemy.move e) platforms) platforms
    = Some p ->
  let landed := Enemy.landing_loop (Enemy.move e) platforms in
  let e' := snd (Enemy.update e platforms) in
  Enemy.bumps landed p = true /\
  Enemy.x e' = Platform.x p + Platform.width p /\
  Enemy.vel_x e' = Enemy.vel_x e * -1 /\
  0 < Enemy.vel_x e'.
Proof.
  intros A V F landed e'.
  destruct (EnemyFacts.first_wall_bumps _ _ _ F) as (_ & _ & B).
  split; [exact B|].
  assert (E : e' = Enemy.animate (Enemy.bounce landed p)).
  { unfold e', Enemy.update. rewrite A.
    cbv beta iota zeta delta [negb snd].
    rewrite EnemyFacts.wall_loop_first. fold landed. unfold landed at 1.
    now rewrite F. }
  destruct (EnemyFacts.animate_position (Enemy.bounce landed p)) as (X & _ & VX).
  destruct (EnemyFacts.landing_loop_vel_x (Enemy.move e) platforms) as [LV _].
  fold landed in LV. simpl in LV.
  rewrite E, X, VX. unfold Enemy.bounce; simpl. rewrite LV.
  assert (G : Qgtb (Enemy.vel_x e) 0 = false) by (apply Qgtb_le; lra).
  rewrite G. repeat split. lra.
Qed.

Lemma enemy_moving_left_bounces_to_right_edge_witness :
  let e := Level.second_enemy_at_block in
  let landed := Enemy.landing_loop (Enemy.move e) Level.create_platforms in
  let e' := snd (Enemy.update e Level.create_platforms) in
  let block := Level.block 300 70 16 Question in
  Enemy.bumps landed block = true /\
  Enemy.x e' = Platform.x block + Platform.width block /\
  Enemy.vel_x e' = Enemy.vel_x e * -1 /\
  0 < Enemy.vel_x e'.
Proof.
  intros e landed e' block.
  apply (enemy_moving_left_bounces_to_right_edge e Level.create_platforms block).
  - vm_compute. reflexivity.
  - vm_compute. reflexivity.
  - vm_compute. reflexivity.
Defined.

(** ** Enemy: removal *)

Module RemovalFacts.
Import Game.

Lemma enemies_loop_level (es : list Enemy.t) (g : t) :
  level (fst (enemies_loop g es)) = level g.
Proof.
  apply (GameFacts.enemies_loop_keeps (fun h => level h = level g)); auto.
Qed.

Lemma enemies_loop_kept (es : list Enemy.t) :
  forall g,
    Forall2 (Enemy.kept_as (Level.platforms (level g)))
            (Enemy.unflagged (Level.platforms (level g)) es)
            (snd (enemies_loop g es)).
Proof.
  induction es as [|e es IH]; intro g; simpl; [constructor|].
  pose proof (GameFacts.enemy_step_outcome g e) as O.
  destruct (enemy_step g e) as [g1 kept].
  assert (L : level g1 = level g) by (inversion O; subst; reflexivity).
  specialize (IH g1). rewrite L in IH.
  destruct (enemies_loop g1 es) as [g2 rest]. simpl in *.
  inversion O as [F | F | F Z | F Z]; subst; rewrite F; simpl.
  - exact IH.
  - constructor; [now left | exact IH].
  - constructor; [now right | exact IH].
  - constructor; [now left | exact IH].
Qed.

End RemovalFacts.

(** The state the counterexample below starts from is one the game gets
    to: the player and the first enemy of [above_enemy] are those of the
    session after [opening_frames] from the start. *)
Lemma above_enemy_is_reached :
  Game.observe (Game.run (Game.init (IMU.fresh true)) Game.opening_frames)
  = Game.observe (Game.above_enemy (IMU.fresh true)).
Proof. lazy. reflexivity. Qed.

(** C4, as the spec has it, fails.  The player comes down on the level's
    first enemy: the stomp marks the enemy dead and scores, but the enemy
    stays in [level.enemies], in this frame and in the next, and its update
    never flags it.  Nor does [Enemy.update] flag a dead enemy that lies
    below the screen margin. *)
Lemma stomped_enemy_stays_in_the_list :
  let g := Game.above_enemy (IMU.fresh true) in
  let g1 := Game.update g Game.idle_input in
  let g2 := Game.update g1 Game.idle_input in
  let stomped := Enemy.mk 118 104 16 16 (-1) 0 false true 0 2 in
  let sunk := Enemy.mk 0 200 16 16 (-1) 0 false false 0 0 in
  map Enemy.alive (Level.enemies (Game.level g))
    = [true; true; true; true; true; true; true] /\
  Game.score g1 = (Game.score g + 100)%Z /\
  hd_error (Level.enemies (Game.level g1)) = Some stomped /\
  hd_error (Level.enemies (Game.level g2)) = Some stomped /\
  map Enemy.alive (Level.enemies (Game.level g2))
    = [false; true; true; true; true; true; true] /\
  Enemy.update stomped (Level.platforms (Game.level g1)) = (false, stomped) /\
  Enemy.below_screen sunk = true /\
  Enemy.update sunk Level.create_platforms = (false, sunk).
Proof.
  vm_compute. repeat split; reflexivity.
Qed.

(** C4, amended.  [Enemy.update] returns true exactly when the enemy is
    alive and ends the call more than [50] below the screen height; for a
    stomped enemy it returns false and changes nothing.  The session's enemy
    loop drops from [level.enemies] the enemies whose update returned true
    and keeps every other one, in order, as its update left it; a stomp
    only clears the [alive] flag of the enemy it keeps. *)
Theorem enemy_leaves_list_only_below_screen :
  (forall e platforms,
      fst (Enemy.update e platforms)
      = Enemy.alive e && Enemy.below_screen (snd (Enemy.update e platforms))) /\
  (forall e platforms,
      Enemy.update (Enemy.stomp e) platforms = (false, Enemy.stomp e)) /\
  (forall g,
      let platforms := Level.platforms (Game.level g) in
      Forall2 (Enemy.kept_as platforms)
              (Enemy.unflagged platforms (Level.enemies (Game.level g)))
              (Level.enemies (Game.level (Game.update_enemies g)))).
Proof.
  split; [exact EnemyFacts.update_flag|].
  split; [intros e platforms; now apply EnemyFacts.update_dead|].
  intros g platforms.
  pose proof (RemovalFacts.enemies_loop_kept (Level.enemies (Game.level g)) g)
    as K.
  unfold Game.update_enemies.
  destruct (Game.enemies_loop g (Level.enemies (Game.level g))) as [g' es].
  exact K.
Qed.

(** ** Level completion *)

Module VictoryFacts.
Import Game.


Lemma update_coins_flags (g : t) :
  level_complete (update_coins g) = level_complete g.
Proof.
  unfold update_coins.
  destruct (coins_loop _ _ _ _) as [[cs sc] cn]. reflexivity.
Qed.






End VictoryFacts.



(** * Further properties of the game *)

(** ** Lives and the end of the game *)

Module LivesFacts.
Import Game.

(** As [GameFacts.enemies_loop_keeps], with the knowledge that a stomp or a
    hit only happens to a player who is not invincible. *)
Lemma enemies_loop_keeps_open (P : t -> Prop) :
  (forall g, P g -> Mario.invincible (mario g) = 0%Z -> P (stomp g)) ->
  (forall g, P g -> Mario.invincible (mario g) = 0%Z -> P (hurt g)) ->
  forall es g, P g -> P (fst (enemies_loop g es)).
Proof.
  intros Hs Hh. induction es as [|e es IH]; intros g Pg; simpl; [exact Pg|].
  pose proof (GameFacts.enemy_step_outcome g e) as O.
  destruct (enemy_step g e) as [g1 kept].
  assert (P g1) by (inversion O; subst; auto).
  specialize (IH g1 H).
  destruct (enemies_loop g1 es) as [g2 rest]. exact IH.
Qed.

Lemma enemies_loop_one_hit (n : Z) (es : list Enemy.t) (g : t) :
  (1 <= n)%Z -> Session.one_hit n g -> Session.one_hit n (fst (enemies_loop g es)).
Proof.
  intros N. apply (enemies_loop_keeps_open (Session.one_hit n)).
  - intros h [[L G] | (L & I & G)] Z0; [left; auto | contradiction].
  - intros h [[L G] | (L & I & G)] Z0; [|contradiction].
    right. unfold hurt; simpl. rewrite L.
    split; [reflexivity|]. split; [discriminate|].
    destruct (n - 1 <=? 0)%Z eqn:E.
    + apply Z.leb_le in E. split; intro; [lia | reflexivity].
    + apply Z.leb_gt in E. rewrite G. split; intro; [discriminate | lia].
Qed.

Lemma update_coins_lives (g : t) :
  lives (update_coins g) = lives g /\ game_over (update_coins g) = game_over g.
Proof.
  unfold update_coins. destruct (coins_loop _ _ _ _) as [[cs sc] cn]. auto.
Qed.

Lemma check_level_complete_lives (g : t) :
  lives (check_level_complete g) = lives g /\
  game_over (check_level_complete g) = game_over g.
Proof.
  unfold check_level_complete.
  destruct (negb (level_complete g) && Qgeb _ _); auto.
Qed.

(** One simulated frame, entered with the game not over, loses no life or
    one, and ends the game exactly when it takes the last one. *)
Lemma simulate_lives (g : t) (inp : frame_input) :
  (1 <= lives g)%Z ->
  game_over g = false ->
  (lives (simulate g inp) = lives g /\ game_over (simulate g inp) = false) \/
  (lives (simulate g inp) = (lives g - 1)%Z /\
   (game_over (simulate g inp) = true <-> (lives g - 1 = 0)%Z)).
Proof.
  intros L G. rewrite GameFacts.fall_death_idle. unfold before_fall_death.
  set (g2 := follow (move_player (read_controls g inp))).
  assert (O : Session.one_hit (lives g) (update_enemies g2)).
  { unfold update_enemies.
    pose proof (enemies_loop_one_hit (lives g) (Level.enemies (level g2)) g2 L)
      as K.
    destruct (enemies_loop g2 (Level.enemies (level g2))) as [g' es].
    simpl in K. unfold Session.one_hit in *. simpl.
    apply K. left. split; [reflexivity | exact G]. }
  destruct (check_level_complete_lives (update_coins (update_enemies g2)))
    as [L1 G1].
  destruct (update_coins_lives (update_enemies g2)) as [L2 G2].
  rewrite L1, G1, L2, G2.
  destruct O as [[A B] | (A & _ & B)]; [left | right]; auto.
Qed.

Lemma update_lives_sound (g : t) (inp : frame_input) :
  Session.lives_sound g -> Session.lives_sound (update g inp).
Proof.
  intros S. unfold update.
  destruct (game_over g) eqn:G; [exact S|].
  destruct (celebrating g).
  - unfold countdown.
    destruct (victory_timer g - 1 =? 0)%Z.
    + unfold Session.lives_sound, reset_level; simpl.
      split; [lia|]. split; intro; discriminate.
    + exact S.
  - destruct S as [[Lo Hi] Iff]. rewrite G in Iff.
    assert (L : (1 <= lives g)%Z).
    { destruct (Z.eq_dec (lives g) 0) as [E|E]; [|lia].
      apply Iff in E. discriminate. }
    unfold Session.lives_sound.
    destruct (simulate_lives g inp L G) as [[A B] | [A B]]; rewrite A.
    + split; [lia|]. rewrite B. split; intro; [discriminate | lia].
    + split; [lia|]. exact B.
Qed.

Lemma run_lives_sound (fs : list (bool * frame_input)) :
  forall g, Session.lives_sound g -> Session.lives_sound (run g fs).
Proof.
  induction fs as [|f fs IH]; intros g S; simpl; [exact S|].
  destruct (game_over g); [exact S|].
  apply IH. unfold frame. apply update_lives_sound. exact S.
Qed.

End LivesFacts.

(** X1. Along any run of the main loop from the start of the game, the
    lives stay between 0 and 3 and the game is over exactly when no life is
    left. *)
Theorem lives_and_game_over_agree (imu : IMU.t) (fs : list (bool * Game.frame_input)) :
  let g := Game.run (Game.init imu) fs in
  (0 <= Game.lives g <= 3)%Z /\
  (Game.game_over g = true <-> Game.lives g = 0%Z).
Proof.
  intro g.
  assert (S : Session.lives_sound g).
  { apply LivesFacts.run_lives_sound.
    unfold Session.lives_sound, Game.init; simpl.
    split; [lia|]. split; intro; discriminate. }
  exact S.
Qed.

(** X2. One call of the session update, on a session that is not over and
    has a life left, takes at most one life however many enemies touch the
    player, unless it is the frame that rebuilds the level; and it ends the
    game exactly when it takes the last life. *)
Theorem at_most_one_life_per_update (g : Game.t) (inp : Game.frame_input) :
  (1 <= Game.lives g)%Z ->
  Game.game_over g = false ->
  Game.celebrating g = false ->
  let g' := Game.update g inp in
  (Game.lives g' = Game.lives g /\ Game.game_over g' = false) \/
  (Game.lives g' = (Game.lives g - 1)%Z /\
   (Game.game_over g' = true <-> Game.lives g = 1%Z)).
Proof.
  intros L G C g'. unfold g', Game.update. rewrite G, C.
  destruct (LivesFacts.simulate_lives g inp L G) as [H | [A B]];
    [left; exact H | right].
  split; [exact A|]. rewrite B. split; intro; lia.
Qed.

Lemma at_most_one_life_per_update_witness :
  let g := Game.above_enemy (IMU.fresh true) in
  let g' := Game.update g Game.right_input in
  (Game.lives g' = Game.lives g /\ Game.game_over g' = false) \/
  (Game.lives g' = (Game.lives g - 1)%Z /\
   (Game.game_over g' = true <-> Game.lives g = 1%Z)).
Proof.
  intros g g'.
  apply (at_most_one_life_per_update g Game.right_input);
    [vm_compute; discriminate | reflexivity | reflexivity].
Defined.

(** ** Score and coin count *)

Module TallyFacts.
Import Game.

Lemma dead_cons (e : Enemy.t) (es : list Enemy.t) :
  Session.dead (e :: es)
  = ((if Enemy.alive e then 0 else 1) + Session.dead es)%Z.
Proof.
  unfold Session.dead. cbn [filter].
  destruct (Enemy.alive e); cbn [negb length]; lia.
Qed.

Lemma collected_cons (c : Coin.t) (cs : list Coin.t) :
  Session.collected (c :: cs)
  = ((if Coin.collected c then 1 else 0) + Session.collected cs)%Z.
Proof.
  unfold Session.collected. cbn [filter].
  destruct (Coin.collected c); cbn [length]; lia.
Qed.

(** The score the enemy loop adds is 100 for each enemy it turns from alive
    to dead in the list, and an enemy it drops was alive. *)
Lemma enemy_step_tally (g : t) (e : Enemy.t) :
  let r := enemy_step g e in
  coins (fst r) = coins g /\
  level (fst r) = level g /\
  (score (fst r)
   + 100 * (if Enemy.alive e then 0 else 1))%Z
  = (score g
     + 100 * match snd r with
             | Some e' => if Enemy.alive e' then 0 else 1
             | None => 0
             end)%Z.
Proof.
  unfold enemy_step.
  pose proof (GameFacts.enemy_update_alive e (Level.platforms (level g))) as A.
  pose proof (EnemyFacts.update_flag e (Level.platforms (level g))) as F.
  destruct (Enemy.update e (Level.platforms (level g))) as [gone e'].
  simpl in A, F.
  destruct gone.
  - simpl. symmetry in F. apply andb_true_iff in F. destruct F as [F _].
    rewrite F. auto.
  - destruct (Enemy.alive e') eqn:L; rewrite <- A; simpl.
    + destruct (Mario.invincible (mario g) =? 0)%Z; simpl; [|rewrite L; auto].
      destruct (touches (mario g) e'); simpl; [|rewrite L; auto].
      destruct (Qgtb _ _ && Qltb _ _); simpl; [|rewrite L; auto].
      repeat split. lia.
    + rewrite L. auto.
Qed.

Lemma enemies_loop_tally (es : list Enemy.t) :
  forall g,
    let r := enemies_loop g es in
    coins (fst r) = coins g /\
    level (fst r) = level g /\
    (score (fst r) + 100 * Session.dead es
     = score g + 100 * Session.dead (snd r))%Z.
Proof.
  induction es as [|e es IH]; intro g; cbn [enemies_loop]; [cbn; auto|].
  pose proof (enemy_step_tally g e) as T.
  destruct (enemy_step g e) as [g1 kept]. cbn [fst snd] in T.
  destruct T as (C1 & L1 & S1).
  specialize (IH g1).
  destruct (enemies_loop g1 es) as [g2 rest]. cbn [fst snd] in IH |- *.
  destruct IH as (C2 & L2 & S2).
  split; [congruence|]. split; [congruence|].
  rewrite dead_cons.
  destruct kept as [e'|]; [rewrite dead_cons; destruct (Enemy.alive e')|];
    destruct (Enemy.alive e); lia.
Qed.

Lemma coins_loop_tally (m : Mario.t) (cs : list Coin.t) :
  forall sc cn,
    let r := coins_loop m cs sc cn in
    (snd r - Session.collected (fst (fst r)) = cn - Session.collected cs)%Z /\
    (snd (fst r) - 200 * Session.collected (fst (fst r))
     = sc - 200 * Session.collected cs)%Z.
Proof.
  induction cs as [|c cs IH]; intros sc cn; cbn [coins_loop]; [cbn; auto|].
  unfold coin_step, picks_up.
  destruct (Coin.collected c) eqn:K; cbn [negb andb].
  - specialize (IH sc cn).
    destruct (coins_loop m cs sc cn) as [[rest sc2] cn2]. cbn [fst snd] in *.
    rewrite !collected_cons, K. cbn [Coin.collected]. lia.
  - destruct (reaches m c).
    + specialize (IH (sc + 200)%Z (cn + 1)%Z).
      destruct (coins_loop m cs (sc + 200) (cn + 1)) as [[rest sc2] cn2].
      cbn [fst snd] in *. rewrite !collected_cons, K. cbn [Coin.collected]. lia.
    + specialize (IH sc cn).
      destruct (coins_loop m cs sc cn) as [[rest sc2] cn2]. cbn [fst snd] in *.
      rewrite !collected_cons, K. lia.
Qed.

Lemma update_enemies_tallied (g : t) :
  Session.tallied g -> Session.tallied (update_enemies g).
Proof.
  intros [C S]. unfold update_enemies.
  pose proof (enemies_loop_tally (Level.enemies (level g)) g) as T.
  destruct (enemies_loop g (Level.enemies (level g))) as [g' es].
  cbn [fst snd] in T. destruct T as (C1 & L1 & S1).
  unfold Session.tallied, set_enemies.
  cbn [level coins score Level.coins Level.enemies].
  rewrite L1, C1. split; [exact C|]. lia.
Qed.

Lemma update_coins_tallied (g : t) :
  Session.tallied g -> Session.tallied (update_coins g).
Proof.
  intros [C S]. unfold update_coins.
  pose proof (coins_loop_tally (mario g) (Level.coins (level g)) (score g)
                               (coins g)) as T.
  destruct (coins_loop _ _ _ _) as [[cs sc] cn]. cbn [fst snd] in T.
  unfold Session.tallied.
  cbn [level coins score Level.coins Level.enemies]. lia.
Qed.

Lemma check_level_complete_tallied (g : t) :
  Session.tallied g -> Session.tallied (check_level_complete g).
Proof.
  unfold check_level_complete.
  destruct (negb (level_complete g) && Qgeb _ _); auto.
Qed.

Lemma update_tallied (g : t) (inp : frame_input) :
  Session.tallied g -> Session.tallied (update g inp).
Proof.
  intro T. unfold update.
  destruct (game_over g); [exact T|].
  destruct (celebrating g).
  - unfold countdown. destruct (victory_timer g - 1 =? 0)%Z; [|exact T].
    unfold Session.tallied. simpl. split; reflexivity.
  - rewrite GameFacts.fall_death_idle. unfold before_fall_death.
    apply check_level_complete_tallied, update_coins_tallied,
      update_enemies_tallied.
    exact T.
Qed.

Lemma run_tallied (fs : list (bool * frame_input)) :
  forall g, Session.tallied g -> Session.tallied (run g fs).
Proof.
  induction fs as [|f fs IH]; intros g T; simpl; [exact T|].
  destruct (game_over g); [exact T|].
  apply IH. unfold frame. apply update_tallied. exact T.
Qed.

End TallyFacts.

(** X3. Along any run of the main loop from the start of the game, the coin
    count is the number of collected coins in the level, and the score is
    200 for each of them plus 100 for each stomped enemy in the level's list
    (stomped enemies stay in it). *)
Theorem score_counts_coins_and_stomps (imu : IMU.t) (fs : list (bool * Game.frame_input)) :
  let g := Game.run (Game.init imu) fs in
  Game.coins g = Session.collected (Level.coins (Game.level g)) /\
  Game.score g
  = (200 * Session.collected (Level.coins (Game.level g))
     + 100 * Session.dead (Level.enemies (Game.level g)))%Z.
Proof.
  intro g. apply TallyFacts.run_tallied.
  unfold Session.tallied. simpl. split; reflexivity.
Qed.

(** ** The level during play *)

Module LevelFacts.
Import Game.

Lemma update_enemies_platforms (g : t) :
  Level.platforms (level (update_enemies g)) = Level.platforms (level g).
Proof.
  apply (GameFacts.update_enemies_keeps
           (fun h => Level.platforms (level h) = Level.platforms (level g)));
    auto.
Qed.

Lemma update_coins_level (g : t) :
  Level.platforms (level (update_coins g)) = Level.platforms (level g) /\
  Level.enemies (level (update_coins g)) = Level.enemies (level g).
Proof.
  unfold update_coins. destruct (coins_loop _ _ _ _) as [[cs sc] cn]. auto.
Qed.

Lemma check_level_complete_level (g : t) :
  level (check_level_complete g) = level g.
Proof.
  unfold check_level_complete.
  destruct (negb (level_complete g) && Qgeb _ _); reflexivity.
Qed.

Lemma unflagged_length (ps : list Platform.t) (es : list Enemy.t) :
  (length (Enemy.unflagged ps es) <= length es)%nat.
Proof.
  unfold Enemy.unflagged. induction es as [|e es IH]; simpl; [lia|].
  destruct (negb (fst (Enemy.update e ps))); simpl; lia.
Qed.

Lemma update_enemies_length (g : t) :
  (length (Level.enemies (level (update_enemies g)))
   <= length (Level.enemies (level g)))%nat.
Proof.
  pose proof (RemovalFacts.enemies_loop_kept (Level.enemies (level g)) g) as K.
  unfold update_enemies.
  destruct (enemies_loop g (Level.enemies (level g))) as [g' es].
  simpl in *. apply Forall2_length in K. rewrite <- K.
  apply unflagged_length.
Qed.

End LevelFacts.

(** X4. A call of the session update that does not rebuild the level leaves
    the platforms as they are and never adds an enemy: the list of enemies
    only gets shorter. *)
Theorem platforms_fixed_enemies_only_leave (g : Game.t) (inp : Game.frame_input) :
  Game.resets g = false ->
  Level.platforms (Game.level (Game.update g inp))
    = Level.platforms (Game.level g) /\
  (length (Level.enemies (Game.level (Game.update g inp)))
   <= length (Level.enemies (Game.level g)))%nat.
Proof.
  intro R. unfold Game.update, Game.resets in *.
  destruct (Game.game_over g); [split; [reflexivity | lia]|].
  destruct (Game.celebrating g).
  - simpl in R. unfold Game.countdown. rewrite R. simpl.
    split; [reflexivity | lia].
  - rewrite GameFacts.fall_death_idle. unfold Game.before_fall_death.
    rewrite LevelFacts.check_level_complete_level.
    set (g2 := Game.follow (Game.move_player (Game.read_controls g inp))).
    destruct (LevelFacts.update_coins_level (Game.update_enemies g2)) as [P E].
    rewrite P, E, LevelFacts.update_enemies_platforms.
    split; [reflexivity|].
    apply (LevelFacts.update_enemies_length g2).
Qed.

Lemma platforms_fixed_enemies_only_leave_witness :
  let g := Game.above_enemy (IMU.fresh true) in
  Level.platforms (Game.level (Game.update g Game.idle_input))
    = Level.platforms (Game.level g) /\
  (length (Level.enemies (Game.level (Game.update g Game.idle_input)))
   <= length (Level.enemies (Game.level g)))%nat.
Proof.
  intro g.
  apply (platforms_fixed_enemies_only_leave g Game.idle_input). reflexivity.
Defined.

(** ** Speed limits *)

Module SpeedFacts.
Import Mario.

Lemma tick_vel (m : t) :
  vel_x (tick_invincible m) = vel_x m /\ vel_y (tick_invincible m) = vel_y m.
Proof. unfold tick_invincible. destruct (invincible m >? 0)%Z; auto. Qed.

Lemma steer_vel (m : t) (imu : IMU.t) :
  -1 <= IMU.tilt_value imu <= 1 ->
  - RUN_SPEED <= vel_x m <= RUN_SPEED ->
  - RUN_SPEED <= vel_x (steer m imu) <= RUN_SPEED /\
  vel_y (steer m imu) = vel_y m.
Proof.
  intros T V. unfold steer, RUN_SPEED, MOVE_SPEED in *.
  destruct (negb (Qeq_bool (IMU.tilt_value imu) 0)).
  - destruct (on_ground m);
      [destruct (anim_counter m + 1 >? 5)%Z|]; cbn [vel_x vel_y];
      (split; [|reflexivity]);
      destruct (IMU.run imu); nra.
  - cbn [vel_x vel_y]. split; [|reflexivity].
    destruct (Qltb (Qabs (vel_x m * (8 # 10))) (1 # 10)); lra.
Qed.

Lemma start_jump_vel (m : t) (imu : IMU.t) :
  JUMP_STRENGTH <= vel_y m <= 10 ->
  vel_x (start_jump m imu) = vel_x m /\
  JUMP_STRENGTH <= vel_y (start_jump m imu) <= 10.
Proof.
  intro V. unfold start_jump, JUMP_STRENGTH in *.
  destruct (IMU.jump imu && on_ground m); cbn [vel_x vel_y];
    [split; [reflexivity | lra]|].
  auto.
Qed.

Lemma airborne_vel (m : t) :
  JUMP_STRENGTH <= vel_y m <= 10 ->
  vel_x (airborne m) = vel_x m /\
  JUMP_STRENGTH <= vel_y (airborne m) <= 10.
Proof.
  intro V. unfold airborne, JUMP_STRENGTH, GRAVITY in *.
  destruct (on_ground m) eqn:G; cbn [negb].
  - rewrite G. cbn [negb]. auto.
  - unfold set_sprite_frame, set_vel_y. cbn [on_ground negb vel_x vel_y].
    rewrite G. cbn [negb vel_x vel_y].
    split; [reflexivity|].
    destruct (Qgtb (vel_y m + (6 # 10)) 10) eqn:E; order_facts; lra.
Qed.

Lemma platform_loop_vel (m : t) (prev_y : Q) (ps : list Platform.t) :
  vel_x (platform_loop m prev_y ps) = vel_x m /\
  (vel_y (platform_loop m prev_y ps) = vel_y m \/
   vel_y (platform_loop m prev_y ps) = 0).
Proof.
  destruct (MarioFacts.platform_loop_calls m prev_y ps) as [E | (p & _ & _ & C)].
  - rewrite E. auto.
  - remember (platform_loop m prev_y ps) as r eqn:R. clear R.
    unfold check_platform_collision in C.
    repeat match type of C with
    | (if ?b then _ else _) = _ => destruct b
    end; inversion C; subst; simpl; auto.
Qed.

Lemma ground_vel (m : t) :
  vel_x (ground_collision m) = vel_x m /\
  (vel_y (ground_collision m) = vel_y m \/ vel_y (ground_collision m) = 0).
Proof.
  unfold ground_collision. destruct (Qgeb (y m) GROUND_Y); simpl; auto.
Qed.

Lemma update_within_speed (m : t) (imu : IMU.t) (ps : list Platform.t) :
  -1 <= IMU.tilt_value imu <= 1 ->
  Session.within_speed m ->
  Session.within_speed (update m imu ps).
Proof.
  intros T [VX VY]. unfold update, before_collisions.
  destruct (tick_vel m) as [X0 Y0].
  rewrite <- X0 in VX. rewrite <- Y0 in VY.
  destruct (steer_vel (tick_invincible m) imu T VX) as [VX1 Y1].
  rewrite <- Y1 in VY.
  destruct (start_jump_vel (steer (tick_invincible m) imu) imu VY) as [X2 VY2].
  rewrite <- X2 in VX1.
  destruct (airborne_vel _ VY2) as [X3 VY3].
  rewrite <- X3 in VX1.
  set (m4 := integrate _).
  assert (VX4 : - RUN_SPEED <= vel_x m4 <= RUN_SPEED) by exact VX1.
  assert (VY4 : JUMP_STRENGTH <= vel_y m4 <= 10) by exact VY3.
  destruct (platform_loop_vel m4 (y m) ps) as [X5 Y5].
  destruct (ground_vel (platform_loop m4 (y m) ps)) as [X6 Y6].
  unfold Session.within_speed. rewrite X6, X5. split; [exact VX4|].
  unfold JUMP_STRENGTH in *.
  destruct Y6 as [-> | ->]; [destruct Y5 as [-> | ->]|]; lra.
Qed.

End SpeedFacts.

Module SessionSpeedFacts.
Import Game.

Lemma imu_update_tilt_bounds (s : IMU.t) (r : IMU.reading) :
  -1 <= IMU.tilt_value (IMU.update s r) <= 1.
Proof.
  pose proof (TiltFacts.update_tilt s r) as U.
  destruct (IMU.accel r) as [[ax ay] az].
  pose proof (TiltFacts.tilt_of_bounds (F64.sub ax (IMU.offset_x s))) as B.
  rewrite <- U in B. exact B.
Qed.

Lemma simulate_within_speed (g : t) (inp : frame_input) :
  Session.within_speed (mario g) ->
  Session.within_speed (mario (simulate g inp)).
Proof.
  intro W. rewrite GameFacts.fall_death_idle. unfold before_fall_death.
  rewrite GameFacts.check_level_complete_mario, GameFacts.update_coins_mario.
  apply (GameFacts.update_enemies_keeps
           (fun h => Session.within_speed (mario h))).
  - intros h [VX VY]. unfold Session.within_speed, stomp, JUMP_STRENGTH in *.
    cbn [mario Mario.set_vel_y Mario.vel_x Mario.vel_y]. split; [exact VX | lra].
  - intros h V. exact V.
  - intros h es V. exact V.
  - unfold follow, move_player, set_mario. cbn [mario imu_control level].
    apply SpeedFacts.update_within_speed.
    + unfold read_controls. cbn [imu_control]. apply imu_update_tilt_bounds.
    + unfold read_controls. cbn [mario]. exact W.
Qed.

Lemma session_within_speed (g : t) (inp : frame_input) :
  Session.within_speed (mario g) ->
  Session.within_speed (mario (update g inp)).
Proof.
  intro W. unfold update.
  destruct (game_over g); [exact W|].
  destruct (celebrating g).
  - unfold countdown. destruct (victory_timer g - 1 =? 0)%Z; [|exact W].
    unfold Session.within_speed, RUN_SPEED, JUMP_STRENGTH. simpl.
    repeat split; unfold Qle; simpl; lia.
  - now apply simulate_within_speed.
Qed.

Lemma run_within_speed (fs : list (bool * frame_input)) :
  forall g, Session.within_speed (mario g) ->
            Session.within_speed (mario (run g fs)).
Proof.
  induction fs as [|f fs IH]; intros g W; simpl; [exact W|].
  destruct (game_over g); [exact W|].
  apply IH. unfold frame. apply session_within_speed. exact W.
Qed.

End SessionSpeedFacts.

(** X5. Along any run of the main loop from the start of the game, whatever
    the sensor reads, the player's horizontal velocity stays within
    [RUN_SPEED] either way and his vertical velocity between the jump
    strength [-10] and the terminal velocity [10]. *)
Theorem player_velocity_stays_bounded (imu : IMU.t) (fs : list (bool * Game.frame_input)) :
  let m := Game.mario (Game.run (Game.init imu) fs) in
  - RUN_SPEED <= Mario.vel_x m <= RUN_SPEED /\
  JUMP_STRENGTH <= Mario.vel_y m <= 10.
Proof.
  intro m. apply SessionSpeedFacts.run_within_speed.
  unfold Session.within_speed, RUN_SPEED, JUMP_STRENGTH. simpl.
  repeat split; unfold Qle; simpl; lia.
Qed.

(** ** Sprite frames *)

Module FrameFacts.
Import Game.

Lemma platform_loop_frame (m : Mario.t) (prev_y : Q) (ps : list Platform.t) :
  Mario.sprite_frame (Mario.platform_loop m prev_y ps) = Mario.sprite_frame m.
Proof.
  destruct (MarioFacts.platform_loop_calls m prev_y ps) as [E | (p & _ & _ & C)].
  - now rewrite E.
  - remember (Mario.platform_loop m prev_y ps) as r eqn:R. clear R.
    unfold Mario.check_platform_collision in C.
    repeat match type of C with
    | (if ?b then _ else _) = _ => destruct b
    end; inversion C; subst; reflexivity.
Qed.

Lemma steer_frame (m : Mario.t) (imu : IMU.t) :
  Session.mario_frame_ok m -> Session.mario_frame_ok (Mario.steer m imu).
Proof.
  unfold Session.mario_frame_ok, Mario.steer. intro F.
  destruct (negb (Qeq_bool (IMU.tilt_value imu) 0)).
  - destruct (Mario.on_ground m); [|exact F].
    destruct (Mario.anim_counter m + 1 >? 5)%Z; [|exact F].
    cbn [Mario.sprite_frame].
    destruct (Mario.sprite_frame m =? 0)%Z; lia.
  - cbn [Mario.sprite_frame]. lia.
Qed.

Lemma start_jump_frame (m : Mario.t) (imu : IMU.t) :
  Mario.sprite_frame (Mario.start_jump m imu) = Mario.sprite_frame m.
Proof.
  unfold Mario.start_jump. destruct (IMU.jump imu && Mario.on_ground m);
    reflexivity.
Qed.

Lemma airborne_frame (m : Mario.t) :
  Session.mario_frame_ok m -> Session.mario_frame_ok (Mario.airborne m).
Proof.
  unfold Session.mario_frame_ok, Mario.airborne. intro F.
  destruct (Mario.on_ground m) eqn:G; cbn [negb].
  - rewrite G. exact F.
  - unfold Mario.set_sprite_frame, Mario.set_vel_y.
    cbn [Mario.on_ground negb]. rewrite G. cbn [negb Mario.sprite_frame]. lia.
Qed.

Lemma mario_update_frame (m : Mario.t) (imu : IMU.t) (ps : list Platform.t) :
  Session.mario_frame_ok m -> Session.mario_frame_ok (Mario.update m imu ps).
Proof.
  intro F. unfold Mario.update, Mario.ground_collision.
  assert (B : Session.mario_frame_ok (Mario.before_collisions m imu)).
  { unfold Mario.before_collisions, Mario.integrate.
    unfold Session.mario_frame_ok. cbn [Mario.sprite_frame].
    apply airborne_frame. unfold Session.mario_frame_ok.
    rewrite start_jump_frame. apply steer_frame.
    unfold Session.mario_frame_ok, Mario.tick_invincible.
    destruct (Mario.invincible m >? 0)%Z; exact F. }
  unfold Session.mario_frame_ok in *.
  destruct (Qgeb _ GROUND_Y); cbn [Mario.sprite_frame];
    rewrite platform_loop_frame; exact B.
Qed.

Lemma landing_loop_frame (e : Enemy.t) (ps : list Platform.t) :
  Enemy.sprite_frame (Enemy.landing_loop e ps) = Enemy.sprite_frame e /\
  Enemy.frame_counter (Enemy.landing_loop e ps) = Enemy.frame_counter e.
Proof.
  induction ps as [|p ps IH]; simpl; [auto|].
  destruct (Enemy.far e p); [exact IH|].
  destruct (Enemy.lands_on e p); [simpl; auto | exact IH].
Qed.

Lemma wall_loop_frame (e : Enemy.t) (ps : list Platform.t) :
  Enemy.sprite_frame (Enemy.wall_loop e ps) = Enemy.sprite_frame e /\
  Enemy.frame_counter (Enemy.wall_loop e ps) = Enemy.frame_counter e.
Proof.
  induction ps as [|p ps IH]; simpl; [auto|].
  destruct (Enemy.far e p); [exact IH|].
  destruct (Enemy.bumps e p); [simpl; auto | exact IH].
Qed.

Lemma enemy_update_frame (e : Enemy.t) (ps : list Platform.t) :
  Session.enemy_frame_ok e ->
  Session.enemy_frame_ok (snd (Enemy.update e ps)).
Proof.
  intros [S C]. unfold Enemy.update.
  destruct (negb (Enemy.alive e)); [split; assumption|].
  cbn [snd]. unfold Session.enemy_frame_ok, Enemy.animate.
  destruct (wall_loop_frame (Enemy.landing_loop (Enemy.move e) ps) ps)
    as [S1 C1].
  destruct (landing_loop_frame (Enemy.move e) ps) as [S2 C2].
  rewrite S1, C1, S2, C2. cbn [Enemy.move Enemy.sprite_frame Enemy.frame_counter].
  destruct (Enemy.frame_counter e + 1 >=? 15)%Z eqn:G;
    cbn [Enemy.sprite_frame Enemy.frame_counter].
  - lia.
  - rewrite Z.geb_leb in G. apply Z.leb_gt in G. lia.
Qed.

Lemma kept_frames (ps : list Platform.t) (es kept : list Enemy.t) :
  Forall Session.enemy_frame_ok es ->
  Forall2 (Enemy.kept_as ps) (Enemy.unflagged ps es) kept ->
  Forall Session.enemy_frame_ok kept.
Proof.
  intros F K.
  assert (U : Forall Session.enemy_frame_ok (Enemy.unflagged ps es)).
  { unfold Enemy.unflagged. rewrite Forall_forall in *.
    intros e I. apply filter_In in I. apply F. tauto. }
  induction K as [|e e' l l' R K IH]; [constructor|].
  inversion U; subst. constructor; [|auto].
  destruct R as [-> | ->].
  - now apply enemy_update_frame.
  - apply (enemy_update_frame e ps) in H1. exact H1.
Qed.

Lemma update_enemies_frames (g : t) :
  Frames.frames_ok g -> Frames.frames_ok (update_enemies g).
Proof.
  intros [M E]. unfold Frames.frames_ok.
  pose proof (RemovalFacts.enemies_loop_kept (Level.enemies (level g)) g) as K.
  assert (M' : Session.mario_frame_ok (mario (update_enemies g))).
  { apply (GameFacts.update_enemies_keeps
             (fun h => Session.mario_frame_ok (mario h))); auto. }
  split; [exact M'|].
  unfold update_enemies in *.
  destruct (enemies_loop g (Level.enemies (level g))) as [g' es].
  cbn [snd] in K. unfold set_enemies. cbn [level Level.enemies].
  exact (kept_frames _ _ _ E K).
Qed.

Lemma simulate_frames (g : t) (inp : frame_input) :
  Frames.frames_ok g -> Frames.frames_ok (simulate g inp).
Proof.
  intros [M E]. rewrite GameFacts.fall_death_idle. unfold before_fall_death.
  set (g2 := follow (move_player (read_controls g inp))).
  assert (F2 : Frames.frames_ok g2).
  { split; [|exact E].
    unfold g2, follow, move_player, set_mario. cbn [mario].
    apply mario_update_frame. exact M. }
  apply update_enemies_frames in F2. destruct F2 as [M3 E3].
  unfold Frames.frames_ok.
  rewrite LevelFacts.check_level_complete_level,
    GameFacts.check_level_complete_mario, GameFacts.update_coins_mario.
  destruct (LevelFacts.update_coins_level (update_enemies g2)) as [_ EE].
  rewrite EE. split; assumption.
Qed.

Lemma init_enemies_frames : Forall Session.enemy_frame_ok Level.create_enemies.
Proof.
  unfold Level.create_enemies. rewrite Forall_forall. intros e I.
  apply in_map_iff in I. destruct I as (x0 & <- & _).
  unfold Session.enemy_frame_ok. simpl. lia.
Qed.

Lemma update_frames (g : t) (inp : frame_input) :
  Frames.frames_ok g -> Frames.frames_ok (update g inp).
Proof.
  intro F. unfold update.
  destruct (game_over g); [exact F|].
  destruct (celebrating g).
  - unfold countdown. destruct (victory_timer g - 1 =? 0)%Z; [|exact F].
    split; [unfold Session.mario_frame_ok; simpl; lia|].
    exact init_enemies_frames.
  - now apply simulate_frames.
Qed.

Lemma run_frames (fs : list (bool * frame_input)) :
  forall g, Frames.frames_ok g -> Frames.frames_ok (run g fs).
Proof.
  induction fs as [|f fs IH]; intros g F; simpl; [exact F|].
  destruct (game_over g); [exact F|].
  apply IH. unfold frame. apply update_frames. exact F.
Qed.

End FrameFacts.

(** X6. Along any run of the main loop from the start of the game, the
    player's sprite frame is 0, 1 or 2 and every enemy's is 0 or 1, with its
    frame counter below 15: the frame that the drawing writes into a sprite
    always names a tile of the three-frame and two-frame sheets. *)
Theorem sprite_frames_stay_on_their_sheets (imu : IMU.t) (fs : list (bool * Game.frame_input)) :
  let g := Game.run (Game.init imu) fs in
  Session.mario_frame_ok (Game.mario g) /\
  Forall Session.enemy_frame_ok (Level.enemies (Game.level g)).
Proof.
  intro g. apply FrameFacts.run_frames.
  split; [unfold Session.mario_frame_ok; simpl; lia|].
  exact FrameFacts.init_enemies_frames.
Qed.

(** ** How long a hit protects *)

Module ShieldFacts.
Import Game.

Lemma simulate_holds (n left : Z) (h : t) (inp : frame_input) :
  (2 <= left <= 120)%Z ->
  Shield.holds n left h ->
  Shield.holds n (left - 1) (simulate h inp).
Proof.
  intros B (L & G & I & T).
  rewrite GameFacts.fall_death_idle. unfold before_fall_death.
  set (g2 := follow (move_player (read_controls h inp))).
  assert (I2 : Mario.invincible (mario g2)
               = (Mario.invincible (mario h) - 1)%Z).
  { unfold g2, follow, move_player, set_mario, read_controls.
    cbn [mario imu_control level].
    rewrite InvincibleFacts.update_invincible.
    unfold Mario.tick_invincible, Mario.set_is_running.
    cbn [Mario.invincible].
    destruct (Mario.invincible (mario h) >? 0)%Z eqn:E; [reflexivity|].
    rewrite Z.gtb_ltb in E. apply Z.ltb_ge in E. lia. }
  assert (N : Mario.invincible (mario g2) <> 0%Z) by lia.
  assert (E : update_enemies g2
              = set_enemies g2 (Enemy.survivors (Level.platforms (level g2))
                                                (Level.enemies (level g2)))).
  { unfold update_enemies.
    now rewrite (InvincibleFacts.enemies_loop_shielded _ g2 N). }
  rewrite E. set (g3 := set_enemies g2 _).
  destruct (LivesFacts.check_level_complete_lives (update_coins g3)) as [L4 G4].
  destruct (LivesFacts.update_coins_lives g3) as [L3 G3].
  unfold Shield.holds.
  rewrite L4, G4, L3, G3, GameFacts.check_level_complete_mario,
    GameFacts.update_coins_mario.
  split; [exact L|]. split; [exact G|].
  split; [change (mario g3) with (mario g2); lia|].
  unfold check_level_complete.
  rewrite VictoryFacts.update_coins_flags.
  change (level_complete g3) with (level_complete h).
  destruct (level_complete h) eqn:LC; cbn [negb andb].
  - intros _. specialize (T eq_refl).
    unfold update_coins. destruct (coins_loop _ _ _ _) as [[cs sc] cn].
    cbn [victory_timer]. change (victory_timer g3) with (victory_timer h). lia.
  - destruct (Qgeb _ LEVEL_END).
    + intros _. cbn [victory_timer]. unfold VICTORY_FRAMES. lia.
    + rewrite VictoryFacts.update_coins_flags.
      change (level_complete g3) with (level_complete h).
      rewrite LC. discriminate.
Qed.

Lemma update_holds (n left : Z) (h : t) (inp : frame_input) :
  (2 <= left <= 120)%Z ->
  Shield.holds n left h ->
  Shield.holds n (left - 1) (update h inp).
Proof.
  intros B H. pose proof H as (L & G & I & T).
  unfold update. rewrite G.
  destruct (celebrating h) eqn:C.
  - unfold celebrating in C. apply andb_true_iff in C. destruct C as [LC _].
    specialize (T LC).
    unfold countdown.
    assert (N : (victory_timer h - 1 =? 0)%Z = false)
      by (apply Z.eqb_neq; lia).
    rewrite N. unfold Shield.holds.
    cbn [lives game_over mario level_complete victory_timer].
    repeat split; auto; lia.
  - now apply simulate_holds.
Qed.

Lemma run_holds (n : Z) (fs : list (bool * frame_input)) :
  forall left h,
    (left <= 120)%Z ->
    (Z.of_nat (length fs) < left)%Z ->
    Shield.holds n left h ->
    Shield.holds n (left - Z.of_nat (length fs)) (run h fs).
Proof.
  induction fs as [|f fs IH]; intros left h B K H.
  - cbn [run length]. replace (left - Z.of_nat 0)%Z with left by lia. exact H.
  - cbn [run]. destruct H as (L & G & I & T). rewrite G.
    cbn [length] in *. rewrite Nat2Z.inj_succ in *.
    replace (left - Z.succ (Z.of_nat (length fs)))%Z
      with (left - 1 - Z.of_nat (length fs))%Z by lia.
    apply IH; [lia | lia |].
    unfold frame. apply update_holds; [lia|].
    unfold Shield.holds, polled.
    cbn [lives game_over mario level_complete victory_timer]. auto.
Qed.

End ShieldFacts.

(** X7. While the invincibility counter set by a hit is running, no life
    is lost whatever the enemies do: from a session in play, not past the
    level end, with the counter at [n <= 120], any run of fewer than [n]
    frames of the main loop leaves the lives as they were and the game not
    over. *)
Theorem invincibility_protects_for_its_length
  (g : Game.t) (fs : list (bool * Game.frame_input)) :
  Game.game_over g = false ->
  Game.level_complete g = false ->
  (Mario.invincible (Game.mario g) <= 120)%Z ->
  (Z.of_nat (length fs) < Mario.invincible (Game.mario g))%Z ->
  Game.lives (Game.run g fs) = Game.lives g /\
  Game.game_over (Game.run g fs) = false.
Proof.
  intros G LC B K.
  destruct (ShieldFacts.run_holds (Game.lives g) fs
              (Mario.invincible (Game.mario g)) g B K) as (L & G' & _).
  - unfold Shield.holds. rewrite LC.
    repeat split; auto; [lia | discriminate].
  - auto.
Qed.

Lemma invincibility_protects_for_its_length_witness :
  let hit := Mario.set_invincible (Mario.init 40 GROUND_Y) 120 in
  let g := Game.set_mario (Game.init (IMU.fresh true)) hit in
  let fs := repeat (true, Game.idle_input) 119 in
  Game.lives (Game.run g fs) = Game.lives g /\
  Game.game_over (Game.run g fs) = false.
Proof.
  intros hit g fs.
  apply (invincibility_protects_for_its_length g fs).
  - reflexivity.
  - reflexivity.
  - vm_compute. discriminate.
  - vm_compute. reflexivity.
Defined.

(** ** Jumping *)

Module JumpingFacts.
Import Mario.

Lemma tick_on_ground (m : t) :
  on_ground (tick_invincible m) = on_ground m /\ y (tick_invincible m) = y m.
Proof. unfold tick_invincible. destruct (invincible m >? 0)%Z; auto. Qed.

Lemma steer_on_ground (m : t) (imu : IMU.t) :
  on_ground (steer m imu) = on_ground m /\ y (steer m imu) = y m.
Proof.
  unfold steer.
  destruct (negb (Qeq_bool (IMU.tilt_value imu) 0)).
  - destruct (on_ground m);
      [destruct (anim_counter m + 1 >? 5)%Z|]; auto.
  - auto.
Qed.



End JumpingFacts.



(** X9. A jump flag read while the player is in the air does nothing:
    [Mario.update] gives the same player for any two controller states
    that agree on tilt and run, whatever their jump flags. *)
Theorem jump_in_the_air_is_ignored
  (m : Mario.t) (imu imu' : IMU.t) (platforms : list Platform.t) :
  Mario.on_ground m = false ->
  IMU.tilt_value imu = IMU.tilt_value imu' ->
  IMU.run imu = IMU.run imu' ->
  Mario.update m imu platforms = Mario.update m imu' platforms.
Proof.
  intros G T R. unfold Mario.update, Mario.before_collisions.
  assert (S : Mario.steer (Mario.tick_invincible m) imu
              = Mario.steer (Mario.tick_invincible m) imu').
  { unfold Mario.steer. now rewrite T, R. }
  rewrite S.
  destruct (JumpingFacts.tick_on_ground m) as [G0 _].
  destruct (JumpingFacts.steer_on_ground (Mario.tick_invincible m) imu')
    as [G1 _].
  unfold Mario.start_jump. rewrite G1, G0, G, !andb_false_r. reflexivity.
Qed.

Lemma jump_in_the_air_is_ignored_witness :
  let m := Mario.mk 40 60 0 (-3) false true 16 16 false 0 2 0 true in
  let quiet := IMU.fresh true in
  let pressed := IMU.update (IMU.poll_button_only (IMU.update (IMU.fresh true)
                   (IMU.mk_reading (0, 0, 9) true false)) false)
                 (IMU.mk_reading (0, 0, 9) false false) in
  IMU.jump quiet = false /\ IMU.jump pressed = true /\
  Mario.update m quiet Level.create_platforms
  = Mario.update m pressed Level.create_platforms.
Proof.
  intros m quiet pressed.
  split; [reflexivity|]. split; [reflexivity|].
  apply (jump_in_the_air_is_ignored m quiet pressed Level.create_platforms);
    reflexivity.
Defined.

(** ** Platforms from below and from the side *)

Module PassFacts.
Import Mario.

Lemma before_collisions_on_ground (m : t) (imu : IMU.t) :
  on_ground (before_collisions m imu) = false.
Proof. reflexivity. Qed.

Lemma platform_loop_x (m : t) (prev_y : Q) (ps : list Platform.t) :
  x (platform_loop m prev_y ps) = x m /\
  vel_x (platform_loop m prev_y ps) = vel_x m.
Proof.
  destruct (MarioFacts.platform_loop_calls m prev_y ps) as [E | (p & _ & _ & C)].
  - rewrite E. auto.
  - remember (platform_loop m prev_y ps) as r eqn:R. clear R.
    unfold check_platform_collision in C.
    repeat match type of C with
    | (if ?b then _ else _) = _ => destruct b
    end; inversion C; subst; auto.
Qed.

Lemma ground_collision_x (m : t) :
  x (ground_collision m) = x m /\ vel_x (ground_collision m) = vel_x m.
Proof.
  unfold ground_collision. destruct (Qgeb (y m) GROUND_Y); auto.
Qed.

Lemma before_collisions_x (m : t) (imu : IMU.t) :
  x (before_collisions m imu) = x m + vel_x (before_collisions m imu).
Proof.
  unfold before_collisions, integrate. cbn [x vel_x].
  assert (A : forall n, x (airborne n) = x n /\ vel_x (airborne n) = vel_x n).
  { intro n. unfold airborne, set_sprite_frame, set_vel_y.
    destruct (on_ground n) eqn:G; cbn [negb]; rewrite ?G; cbn [negb];
      cbn [on_ground negb]; rewrite ?G; cbn [negb x vel_x]; auto. }
  assert (J : forall n, x (start_jump n imu) = x n /\
                        vel_x (start_jump n imu) = vel_x n).
  { intro n. unfold start_jump. destruct (IMU.jump imu && on_ground n); auto. }
  assert (S : forall n, x (steer n imu) = x n).
  { intro n. unfold steer.
    destruct (negb (Qeq_bool (IMU.tilt_value imu) 0));
      [destruct (on_ground n); [destruct (anim_counter n + 1 >? 5)%Z|]|];
      reflexivity. }
  assert (T : x (tick_invincible m) = x m).
  { unfold tick_invincible. destruct (invincible m >? 0)%Z; reflexivity. }
  destruct (A (start_jump (steer (tick_invincible m) imu) imu)) as [A1 A2].
  destruct (J (steer (tick_invincible m) imu)) as [J1 J2].
  rewrite A1, J1, S, T. reflexivity.
Qed.

End PassFacts.

(** X10. Hitting a platform from below, inside [Mario.update]: if the
    player's top edge before the move was not above the platform's bottom
    edge and his box after the move overlaps the platform's, then
    [check_platform_collision] reports a collision and leaves him with his
    top at the platform's bottom edge, [vel_y = 0], and not on the
    ground. *)
Theorem head_bump_resolution (m : Mario.t) (imu : IMU.t) (p : Platform.t) :
  let prev_y := Mario.y m in
  let moved := Mario.before_collisions m imu in
  Platform.y p + Platform.height p <= prev_y ->
  Mario.overlaps moved p = true ->
  exists resolved,
    Mario.check_platform_collision moved p prev_y = (true, resolved) /\
    Mario.y resolved = Platform.y p + Platform.height p /\
    Mario.vel_y resolved = 0 /\
    Mario.on_ground resolved = false.
Proof.
  intros prev_y moved B O.
  pose proof (MarioFacts.before_collisions_y m imu) as Hy. fold moved in Hy.
  unfold Mario.check_platform_collision. rewrite O.
  assert (N : Mario.vel_y moved < 0).
  { unfold Mario.overlaps in O. order_facts. rewrite Hy in *.
    unfold prev_y in B. lra. }
  assert (P : Qgtb (Mario.vel_y moved) 0 = false) by (apply Qgtb_le; lra).
  rewrite P, andb_false_r.
  apply Qgeb_ge in B. apply Qltb_lt in N. rewrite B, N. cbn [andb].
  eexists. split; [reflexivity|]. cbn [Mario.y Mario.vel_y Mario.on_ground].
  auto.
Qed.

Lemma head_bump_resolution_witness :
  let m := Mario.mk 205 90 0 (-5) false true 16 16 false 0 2 0 true in
  let imu := IMU.fresh true in
  let p := Platform.mk 200 70 16 16 Question in
  exists resolved,
    Mario.check_platform_collision (Mario.before_collisions m imu) p 90
      = (true, resolved) /\
    Mario.y resolved = 70 + 16 /\
    Mario.vel_y resolved = 0 /\
    Mario.on_ground resolved = false.
Proof.
  intros m imu p.
  apply (head_bump_resolution m imu p).
  - vm_compute. discriminate.
  - vm_compute. reflexivity.
Defined.

(** X11. Platforms are not solid from the side, and nothing bounds the
    player's x.  If before the move the player was level with a platform
    (his bottom edge below its top and his top edge above its bottom), then
    [check_platform_collision] resolves nothing, however far his box reaches
    into the platform's; and after every [Mario.update] his x is the old x
    plus the horizontal velocity of the frame. *)
Theorem platforms_do_not_block_sideways :
  (forall m imu p,
      let prev_y := Mario.y m in
      let moved := Mario.before_collisions m imu in
      Platform.y p < prev_y + Mario.height m ->
      prev_y < Platform.y p + Platform.height p ->
      Mario.check_platform_collision moved p prev_y = (false, moved)) /\
  (forall m imu platforms,
      Mario.x (Mario.update m imu platforms)
      = Mario.x m + Mario.vel_x (Mario.update m imu platforms)).
Proof.
  split.
  - intros m imu p prev_y moved T B.
    unfold Mario.check_platform_collision.
    destruct (Mario.overlaps moved p); [|reflexivity].
    pose proof (MarioFacts.before_collisions_height m imu) as Hh.
    fold moved in Hh. rewrite Hh.
    assert (L : Qle_bool (prev_y + Mario.height m) (Platform.y p) = false)
      by (apply Qgeb_lt; lra).
    assert (H : Qgeb prev_y (Platform.y p + Platform.height p) = false)
      by (apply Qgeb_lt; lra).
    rewrite L, H. reflexivity.
  - intros m imu ps. unfold Mario.update.
    destruct (PassFacts.ground_collision_x
                (Mario.platform_loop (Mario.before_collisions m imu)
                                     (Mario.y m) ps)) as [X1 V1].
    destruct (PassFacts.platform_loop_x (Mario.before_collisions m imu)
                                        (Mario.y m) ps) as [X2 V2].
    rewrite X1, V1, X2, V2. apply PassFacts.before_collisions_x.
Qed.

Lemma platforms_do_not_block_sideways_witness :
  let m := Mario.mk 890 105 (5 # 2) 0 true true 16 16 false 0 0 0 false in
  let imu := IMU.update (IMU.fresh true)
               (IMU.mk_reading ((68 # 10), 0, 9) true false) in
  let pipe := Level.block 900 90 48 Pipe in
  let moved := Mario.before_collisions m imu in
  Mario.overlaps moved pipe = true /\
  Mario.check_platform_collision moved pipe 105 = (false, moved).
Proof.
  intros m imu pipe moved.
  split; [vm_compute; reflexivity|].
  destruct platforms_do_not_block_sideways as [Side _].
  apply (Side m imu pipe).
  - vm_compute. reflexivity.
  - vm_compute. reflexivity.
Defined.

(** ** The box test *)

(** X12. [check_collision] does not depend on the order of the two boxes;
    it is the test [check_platform_collision] makes inline on the player
    and a platform; and two boxes that only share an edge, the second
    starting where the first ends, do not collide. *)
Theorem box_test_symmetric_and_strict (x1 y1 w1 h1 x2 y2 w2 h2 : Q) :
  check_collision x1 y1 w1 h1 x2 y2 w2 h2
    = check_collision x2 y2 w2 h2 x1 y1 w1 h1 /\
  (forall m p,
      Mario.overlaps m p
      = check_collision (Mario.x m) (Mario.y m) (Mario.width m)
                        (Mario.height m) (Platform.x p) (Platform.y p)
                        (Platform.width p) (Platform.height p)) /\
  check_collision x1 y1 w1 h1 (x1 + w1) y2 w2 h2 = false /\
  check_collision x1 y1 w1 h1 x2 (y1 + h1) w2 h2 = false.
Proof.
  unfold check_collision, Mario.overlaps, Qgtb.
  split; [|split; [|split]].
  - destruct (Qltb x1 (x2 + w2)), (Qltb x2 (x1 + w1)),
      (Qltb y1 (y2 + h2)), (Qltb y2 (y1 + h1)); reflexivity.
  - intros m p.
    destruct (Qltb (Platform.x p) (Mario.x m + Mario.width m)),
      (Qltb (Mario.x m) (Platform.x p + Platform.width p)),
      (Qltb (Platform.y p) (Mario.y m + Mario.height m)),
      (Qltb (Mario.y m) (Platform.y p + Platform.height p)); reflexivity.
  - assert (E : Qltb (x1 + w1) (x1 + w1) = false) by (apply Qltb_ge; lra).
    rewrite E, andb_false_r. reflexivity.
  - assert (E : Qltb (y1 + h1) (y1 + h1) = false) by (apply Qltb_ge; lra).
    rewrite E, andb_false_r. reflexivity.
Qed.

(** ** Camera: closing in on the player *)

Module FollowFacts.
Import Camera.

Lemma update_target (c : t) (mx : Q) :
  target_x (update c mx)
  = py_max 0 (py_min (F64.sub mx (inject_Z (DISPLAY_WIDTH / 3))) max_scroll).
Proof. reflexivity. Qed.

(** The target is a float. *)
Lemma target_representable (c : t) (mx : Q) :
  F64.representable (target_x (update c mx)).
Proof.
  rewrite update_target. unfold py_max, py_min.
  destruct (Qltb max_scroll _);
    destruct (Qgtb _ 0); try apply F64Facts.representable_0;
    try apply F64Facts.fl_representable.
  apply (F64Facts.representable_Z 1960). simpl. lia.
Qed.

(** One update moves the camera towards its target and not past it. *)
Lemma update_toward (c : t) (mx : Q) :
  smoothing c = F64.fl (2 # 10) ->
  F64.representable (x c) ->
  let target := target_x (update c mx) in
  (x c <= target -> x c <= x (update c mx) <= target) /\
  (target <= x c -> target <= x (update c mx) <= x c).
Proof.
  intros S R target.
  pose proof (target_representable c mx) as T. fold target in T.
  pose proof (CameraFacts.step_between (x c) target (smoothing c)) as B.
  rewrite S in B at 1 2. specialize (B CameraFacts.smoothing_small).
  destruct B as [B1 B2].
  assert (E : x (update c mx)
              = F64.fl (x c + F64.mul (F64.sub target (x c)) (smoothing c)))
    by reflexivity.
  rewrite E.
  pose proof (F64Facts.fl_exact (x c) R) as Ex.
  pose proof (F64Facts.fl_exact target T) as Et.
  set (p := F64.mul (F64.sub target (x c)) (smoothing c)) in *.
  split; intro H.
  - specialize (B1 H).
    pose proof (F64Facts.fl_mono (x c) (x c + p) (proj1 B1)).
    pose proof (F64Facts.fl_mono (x c + p) target (proj2 B1)).
    split; lra.
  - specialize (B2 H).
    pose proof (F64Facts.fl_mono target (x c + p) (proj1 B2)).
    pose proof (F64Facts.fl_mono (x c + p) (x c) (proj2 B2)).
    split; lra.
Qed.

Lemma run_snoc (c : t) (mx : Q) (n : nat) :
  run c (repeat mx (S n)) = update (run c (repeat mx n)) mx.
Proof.
  unfold run. change (repeat mx (S n)) with (mx :: repeat mx n).
  rewrite repeat_cons, fold_left_app. reflexivity.
Qed.

(** What a run with the player at rest keeps: the smoothing and the target,
    the offset a float. *)
Lemma run_steady (n : nat) (c : t) (mx : Q) :
  smoothing c = F64.fl (2 # 10) ->
  F64.representable (x c) ->
  let c' := run c (repeat mx n) in
  smoothing c' = F64.fl (2 # 10) /\
  F64.representable (x c') /\
  target_x (update c' mx) = target_x (update c mx).
Proof.
  intros S R. induction n as [|n (S' & R' & T')].
  - cbn. auto.
  - cbv zeta. rewrite run_snoc. split; [exact S'|].
    split; [apply F64Facts.fl_representable | reflexivity].
Qed.

Lemma run_toward (n : nat) (c : t) (mx : Q) :
  smoothing c = F64.fl (2 # 10) ->
  F64.representable (x c) ->
  let target := target_x (update c mx) in
  (x c <= target -> x c <= x (run c (repeat mx n)) <= target) /\
  (target <= x c -> target <= x (run c (repeat mx n)) <= x c).
Proof.
  intros S R target. induction n as [|n [IH1 IH2]].
  - cbn. split; intro; split; lra.
  - rewrite run_snoc.
    destruct (run_steady n c mx S R) as (S' & R' & T').
    pose proof (update_toward (run c (repeat mx n)) mx S' R') as U.
    cbv zeta in U. rewrite T' in U. fold target in U.
    destruct U as [U1 U2].
    split; intro H.
    + specialize (IH1 H). specialize (U1 (proj2 IH1)). split; lra.
    + specialize (IH2 H). specialize (U2 (proj1 IH2)). split; lra.
Qed.

End FollowFacts.

(** X13. With the player at rest, every [Camera.update] moves the camera
    towards its clamped target and never past it, float rounding included:
    starting below the target the offsets rise, one update after the other,
    and stay at or below the target; starting above they fall and stay at
    or above it.  The offset is taken to be a float, as it always is. *)
Theorem camera_closes_in_without_overshoot
  (c : Camera.t) (mario_x : Q) (n : nat) :
  Camera.smoothing c = F64.fl (2 # 10) ->
  F64.representable (Camera.x c) ->
  let target := Camera.target_x (Camera.update c mario_x) in
  let before := Camera.x (Camera.run c (repeat mario_x n)) in
  let after := Camera.x (Camera.run c (repeat mario_x (S n))) in
  (Camera.x c <= target ->
   Camera.x c <= before /\ before <= after /\ after <= target) /\
  (target <= Camera.x c ->
   target <= after /\ after <= before /\ before <= Camera.x c).
Proof.
  intros S R target before after.
  destruct (FollowFacts.run_toward n c mario_x S R) as [B1 B2].
  fold target in B1, B2. fold before in B1, B2.
  destruct (FollowFacts.run_steady n c mario_x S R) as (S' & R' & T').
  pose proof (FollowFacts.update_toward _ mario_x S' R') as U.
  cbv zeta in U. rewrite T' in U. fold target in U.
  rewrite <- FollowFacts.run_snoc in U. fold before after in U.
  destruct U as [U1 U2].
  split; intro H.
  - specialize (B1 H). specialize (U1 (proj2 B1)). repeat split; lra.
  - specialize (B2 H). specialize (U2 (proj1 B2)). repeat split; lra.
Qed.

Lemma camera_closes_in_without_overshoot_witness :
  let target := Camera.target_x (Camera.update Camera.init 500) in
  let before := Camera.x (Camera.run Camera.init (repeat 500 3)) in
  let after := Camera.x (Camera.run Camera.init (repeat 500 4)) in
  0 <= before /\ before <= after /\ after <= target.
Proof.
  intros target before after.
  apply (camera_closes_in_without_overshoot Camera.init 500 3).
  - reflexivity.
  - exists 0%Z, 0%Z. vm_compute. repeat split; discriminate.
  - vm_compute. discriminate.
Defined.

(** ** Calibration and symmetry of the tilt *)

Module CalibrateFacts.
Import IMU.





End CalibrateFacts.



Module MirrorFacts.
Import IMU.

Lemma zone (a : Q) :
  Qabs a < TILT_DEADZONE \/ TILT_DEADZONE <= a \/ a <= - TILT_DEADZONE.
Proof.
  destruct (Qlt_le_dec a TILT_DEADZONE) as [U | U]; [|auto].
  destruct (Qlt_le_dec (- TILT_DEADZONE) a) as [D | D]; [|auto].
  left. apply Qabs_Qlt_condition. auto.
Qed.

(** Rounding is symmetric, so the scaled value of a mirror image is the
    opposite. *)
Lemma scaled_opp (a b : Q) :
  b == - a ->
  F64.div (F64.add b TILT_DEADZONE) TILT_MAX
  == - F64.div (F64.sub a TILT_DEADZONE) TILT_MAX.
Proof.
  intro E. unfold F64.div, F64.add, F64.sub.
  assert (E1 : b + TILT_DEADZONE == - (a - TILT_DEADZONE)) by (rewrite E; ring).
  rewrite E1, F64Facts.fl_opp.
  assert (E2 : - F64.fl (a - TILT_DEADZONE) / TILT_MAX
               == - (F64.fl (a - TILT_DEADZONE) / TILT_MAX))
    by (unfold TILT_MAX; field).
  rewrite E2. apply F64Facts.fl_opp.
Qed.

Lemma clamp_opp (u v : Q) :
  v == - u -> py_max (-1) v == - py_min 1 u.
Proof.
  intro E. unfold py_max, py_min.
  destruct (Qgtb v (-1)) eqn:A, (Qltb u 1) eqn:B; order_facts; lra.
Qed.

(** [tilt_of] at a reading and at its mirror image. *)
Lemma tilt_of_mirror (a b : Q) :
  b == - a ->
  let '(ta, la, ra) := tilt_of a in
  let '(tb, lb, rb) := tilt_of b in
  tb == - ta /\ lb = ra /\ rb = la.
Proof.
  intro E.
  assert (E' : a == - b) by (rewrite E; ring).
  destruct (zone a) as [I | [R | L]].
  - rewrite (TiltFacts.tilt_of_inside a I).
    assert (I' : Qabs b < TILT_DEADZONE)
      by (rewrite E, Qabs_opp; exact I).
    rewrite (TiltFacts.tilt_of_inside b I'). repeat split; try lra.
  - rewrite (TiltFacts.tilt_of_right a R).
    assert (L' : b <= - TILT_DEADZONE) by lra.
    rewrite (TiltFacts.tilt_of_left b L').
    split; [|auto]. apply clamp_opp. now apply scaled_opp.
  - rewrite (TiltFacts.tilt_of_left a L).
    assert (R' : TILT_DEADZONE <= b) by lra.
    rewrite (TiltFacts.tilt_of_right b R').
    split; [|auto].
    assert (C : py_max (-1) (F64.div (F64.add a TILT_DEADZONE) TILT_MAX)
                == - py_min 1 (F64.div (F64.sub b TILT_DEADZONE) TILT_MAX))
      by (apply clamp_opp; now apply scaled_opp).
    rewrite C. ring.
Qed.

(** The float difference of a reading at least deadzone plus max tilt
    beyond the offset scales to [1] or more. *)
Lemma tilt_of_full (a : Q) :
  TILT_DEADZONE + TILT_MAX <= a ->
  fst (fst (tilt_of (F64.fl a))) == 1.
Proof.
  intro F. pose proof TiltFacts.deadzone_value as V.
  assert (A : F64.fl (TILT_DEADZONE + TILT_MAX) <= F64.fl a)
    by now apply F64Facts.fl_mono.
  assert (A0 : F64.fl (TILT_DEADZONE + TILT_MAX)
               = 7656119366529843 # 1125899906842624)
    by (vm_compute; reflexivity).
  rewrite A0 in A.
  assert (R : TILT_DEADZONE <= F64.fl a) by (rewrite V; lra).
  rewrite (TiltFacts.tilt_of_right _ R). cbn [fst].
  rewrite TiltFacts.py_min_Qmin. apply Q.min_l.
  unfold F64.div, F64.sub.
  assert (B : F64.fl ((7656119366529843 # 1125899906842624) - TILT_DEADZONE)
              <= F64.fl (F64.fl a - TILT_DEADZONE))
    by (apply F64Facts.fl_mono; lra).
  assert (B0 : F64.fl ((7656119366529843 # 1125899906842624) - TILT_DEADZONE)
               = 6)
    by (vm_compute; reflexivity).
  rewrite B0 in B.
  assert (C : F64.fl 1 <= F64.fl (F64.fl (F64.fl a - TILT_DEADZONE) / TILT_MAX)).
  { apply F64Facts.fl_mono. apply Qle_shift_div_l; unfold TILT_MAX; lra. }
  exact C.
Qed.

End MirrorFacts.

(** X15. The tilt control treats both directions alike and saturates: two
    readings that are mirror images about the calibration offset give
    opposite tilt values with the left and right flags exchanged, and a
    reading at least deadzone plus max tilt beyond the offset gives full
    tilt, 1 or -1. *)
Theorem tilt_is_mirrored_and_saturates
  (s : IMU.t) (ax bx ay az by_ bz : Q) (btn tv btn' tv' : bool) :
  bx - IMU.offset_x s == - (ax - IMU.offset_x s) ->
  let sa := IMU.update s (IMU.mk_reading (ax, ay, az) btn tv) in
  let sb := IMU.update s (IMU.mk_reading (bx, by_, bz) btn' tv') in
  IMU.tilt_value sb == - IMU.tilt_value sa /\
  IMU.left sb = IMU.right sa /\
  IMU.right sb = IMU.left sa /\
  (TILT_DEADZONE + TILT_MAX <= ax - IMU.offset_x s ->
   IMU.tilt_value sa == 1 /\ IMU.tilt_value sb == -1).
Proof.
  intros E sa sb.
  pose proof (TiltFacts.update_tilt s (IMU.mk_reading (ax, ay, az) btn tv)) as Ua.
  pose proof (TiltFacts.update_tilt s (IMU.mk_reading (bx, by_, bz) btn' tv')) as Ub.
  cbn [IMU.accel] in Ua, Ub. fold sa in Ua. fold sb in Ub.
  assert (E' : F64.sub bx (IMU.offset_x s) == - F64.sub ax (IMU.offset_x s)).
  { unfold F64.sub. rewrite E. apply F64Facts.fl_opp. }
  pose proof (MirrorFacts.tilt_of_mirror _ _ E') as M.
  pose proof (MirrorFacts.tilt_of_full (ax - IMU.offset_x s)) as F.
  fold (F64.sub ax (IMU.offset_x s)) in F.
  rewrite <- Ua in M, F. rewrite <- Ub in M.
  destruct M as (T & L & R).
  split; [exact T|]. split; [exact L|]. split; [exact R|].
  intro H. specialize (F H). cbn [fst] in F.
  split; [exact F|]. rewrite T, F. reflexivity.
Qed.

Lemma tilt_is_mirrored_and_saturates_witness :
  let s := IMU.fresh true in
  let sa := IMU.update s (IMU.mk_reading (7, 0, 9) true false) in
  let sb := IMU.update s (IMU.mk_reading (-7, 0, 9) true false) in
  IMU.tilt_value sb == - IMU.tilt_value sa /\
  IMU.left sb = IMU.right sa /\
  IMU.right sb = IMU.left sa /\
  IMU.tilt_value sa == 1 /\ IMU.tilt_value sb == -1.
Proof.
  intros s sa sb.
  destruct (tilt_is_mirrored_and_saturates s 7 (-7) 0 9 0 9 true false true false)
    as (T & L & R & F).
  - vm_compute. reflexivity.
  - split; [exact T|]. split; [exact L|]. split; [exact R|].
    apply F. vm_compute. discriminate.
Defined.

(** ** Enemy: pace and footing *)

Module PaceFacts.
Import Enemy.

Lemma wall_loop_pace (e : t) (ps : list Platform.t) :
  vel_x (wall_loop e ps) = vel_x e \/ vel_x (wall_loop e ps) = vel_x e * -1.
Proof.
  rewrite EnemyFacts.wall_loop_first.
  destruct (first_wall e ps); [right | left]; reflexivity.
Qed.

Lemma wall_loop_vertical (e : t) (ps : list Platform.t) :
  y (wall_loop e ps) = y e /\ vel_y (wall_loop e ps) = vel_y e /\
  on_ground (wall_loop e ps) = on_ground e.
Proof.
  rewrite EnemyFacts.wall_loop_first.
  destruct (first_wall e ps); auto.
Qed.

Lemma animate_vertical (e : t) :
  vel_y (animate e) = vel_y e /\ on_ground (animate e) = on_ground e.
Proof.
  unfold animate. destruct (frame_counter e + 1 >=? 15)%Z; auto.
Qed.

Lemma update_pace (e : t) (ps : list Platform.t) :
  Qabs (vel_x (snd (update e ps))) == Qabs (vel_x e).
Proof.
  unfold update. destruct (negb (alive e)); cbn [snd]; [reflexivity|].
  destruct (EnemyFacts.animate_position (wall_loop (landing_loop (move e) ps) ps))
    as (_ & _ & V).
  rewrite V.
  destruct (EnemyFacts.landing_loop_vel_x (move e) ps) as [L _].
  cbn [move vel_x] in L.
  destruct (wall_loop_pace (landing_loop (move e) ps) ps) as [W | W];
    rewrite W, L; [reflexivity|].
  assert (E : vel_x e * -1 == - vel_x e) by ring.
  rewrite E. apply Qabs_opp.
Qed.

(** The first loop either finds no platform to stand on or lands the enemy
    on one of the list. *)
Lemma landing_loop_cases (e : t) (ps : list Platform.t) :
  landing_loop e ps = e \/
  exists p, In p ps /\ far e p = false /\ lands_on e p = true /\
            landing_loop e ps = land e p.
Proof.
  induction ps as [|p ps IH]; simpl; [now left|].
  destruct (far e p) eqn:F.
  - destruct IH as [IH | (q & I & Fq & Lq & E)]; [now left|].
    right. exists q. auto.
  - destruct (lands_on e p) eqn:L.
    + right. exists p. auto.
    + destruct IH as [IH | (q & I & Fq & Lq & E)]; [now left|].
      right. exists q. auto.
Qed.

Lemma kept_all (P : t -> Prop) (ps : list Platform.t) (es kept : list t) :
  (forall e, P e -> P (snd (update e ps))) ->
  (forall e, P e -> P (stomp e)) ->
  Forall P es ->
  Forall2 (kept_as ps) (unflagged ps es) kept ->
  Forall P kept.
Proof.
  intros Hu Hs F K.
  assert (U : Forall P (unflagged ps es)).
  { unfold unflagged. rewrite Forall_forall in *.
    intros e I. apply filter_In in I. apply F. tauto. }
  induction K as [|e e' l l' R K IH]; [constructor|].
  inversion U; subst. constructor; [|auto].
  destruct R as [-> | ->]; auto.
Qed.

End PaceFacts.

Module SessionPaceFacts.
Import Game.

Lemma session_pace (g : t) (inp : frame_input) :
  Forall (fun e => Qabs (Enemy.vel_x e) == 1) (Level.enemies (level g)) ->
  Forall (fun e => Qabs (Enemy.vel_x e) == 1)
         (Level.enemies (level (update g inp))).
Proof.
  intro F. unfold update.
  destruct (game_over g); [exact F|].
  destruct (celebrating g).
  - unfold countdown. destruct (victory_timer g - 1 =? 0)%Z; [|exact F].
    cbn [reset_level level Level.init Level.enemies].
    unfold Level.create_enemies. rewrite Forall_forall. intros e I.
    apply in_map_iff in I. destruct I as (x0 & <- & _). reflexivity.
  - rewrite GameFacts.fall_death_idle. unfold before_fall_death.
    rewrite LevelFacts.check_level_complete_level.
    set (g2 := follow (move_player (read_controls g inp))).
    destruct (LevelFacts.update_coins_level (update_enemies g2)) as [_ E].
    rewrite E.
    pose proof (RemovalFacts.enemies_loop_kept (Level.enemies (level g2)) g2)
      as K.
    unfold update_enemies.
    destruct (enemies_loop g2 (Level.enemies (level g2))) as [g' es].
    cbn [snd] in K. unfold set_enemies. cbn [level Level.enemies].
    apply (PaceFacts.kept_all (fun e => Qabs (Enemy.vel_x e) == 1)
             (Level.platforms (level g2)) (Level.enemies (level g2)) es).
    + intros e H. now rewrite PaceFacts.update_pace.
    + intros e H. exact H.
    + exact F.
    + exact K.
Qed.

End SessionPaceFacts.

(** X16. No enemy ever changes pace: [Enemy.update] keeps the size of
    [vel_x] and at most flips its sign, and along any run of the main loop
    from the start of the game every enemy of the level moves at speed 1,
    alive or stomped. *)
Theorem enemies_keep_their_pace :
  (forall e platforms,
      Qabs (Enemy.vel_x (snd (Enemy.update e platforms)))
      == Qabs (Enemy.vel_x e)) /\
  (forall imu fs,
      Forall (fun e => Qabs (Enemy.vel_x e) == 1)
             (Level.enemies (Game.level (Game.run (Game.init imu) fs)))).
Proof.
  split; [exact PaceFacts.update_pace|].
  intros imu fs.
  assert (R : forall fs g,
             Forall (fun e => Qabs (Enemy.vel_x e) == 1)
                    (Level.enemies (Game.level g)) ->
             Forall (fun e => Qabs (Enemy.vel_x e) == 1)
                    (Level.enemies (Game.level (Game.run g fs)))).
  { clear. induction fs as [|f fs IH]; intros g F; simpl; [exact F|].
    destruct (Game.game_over g); [exact F|].
    apply IH. unfold Game.frame. apply SessionPaceFacts.session_pace. exact F. }
  apply R. cbn [Game.init Game.level Level.init Level.enemies].
  unfold Level.create_enemies. rewrite Forall_forall. intros e I.
  apply in_map_iff in I. destruct I as (x0 & <- & _). reflexivity.
Qed.

(** X17. A live enemy ends [Enemy.update] either standing or falling, and
    its flag says which: either [on_ground] is set, [vel_y] is 0 and its
    feet are on the top of a platform of the list that it had reached, or
    [on_ground] is clear and it has fallen by its velocity plus one frame of
    gravity. *)
Theorem enemy_stands_or_falls (e : Enemy.t) (platforms : list Platform.t) :
  Enemy.alive e = true ->
  let e' := snd (Enemy.update e platforms) in
  (Enemy.on_ground e' = true /\ Enemy.vel_y e' = 0 /\
   exists p, In p platforms /\
             Enemy.lands_on (Enemy.move e) p = true /\
             Enemy.y e' = Platform.y p - Enemy.height e) \/
  (Enemy.on_ground e' = false /\
   Enemy.vel_y e' = Enemy.vel_y e + GRAVITY /\
   Enemy.y e' = Enemy.y e + (Enemy.vel_y e + GRAVITY)).
Proof.
  intros A e'. unfold e', Enemy.update. rewrite A. cbn [negb snd].
  set (landed := Enemy.landing_loop (Enemy.move e) platforms).
  destruct (EnemyFacts.animate_position (Enemy.wall_loop landed platforms))
    as (_ & Ya & _).
  destruct (PaceFacts.animate_vertical (Enemy.wall_loop landed platforms))
    as [Va Ga].
  destruct (PaceFacts.wall_loop_vertical landed platforms) as (Yw & Vw & Gw).
  rewrite Ya, Va, Ga, Yw, Vw, Gw.
  destruct (PaceFacts.landing_loop_cases (Enemy.move e) platforms)
    as [E | (p & I & _ & L & E)]; fold landed in E; rewrite E.
  - right. cbn [Enemy.move Enemy.on_ground Enemy.vel_y Enemy.y]. auto.
  - left. cbn [Enemy.land Enemy.move Enemy.on_ground Enemy.vel_y Enemy.y
               Enemy.height].
    split; [reflexivity|]. split; [reflexivity|]. exists p. auto.
Qed.

Lemma enemy_stands_or_falls_witness :
  let e := Enemy.init 150 GROUND_Y in
  let e' := snd (Enemy.update e Level.create_platforms) in
  (Enemy.on_ground e' = true /\ Enemy.vel_y e' = 0 /\
   exists p, In p Level.create_platforms /\
             Enemy.lands_on (Enemy.move e) p = true /\
             Enemy.y e' = Platform.y p - Enemy.height e) \/
  (Enemy.on_ground e' = false /\
   Enemy.vel_y e' = Enemy.vel_y e + GRAVITY /\
   Enemy.y e' = Enemy.y e + (Enemy.vel_y e + GRAVITY)).
Proof.
  intros e e'.
  apply (enemy_stands_or_falls e Level.create_platforms). reflexivity.
Defined.

(** ** Drawing *)

Module PoolFacts.
Import Pool.

Lemma set_at_length (i : nat) (f : Sprite.t -> Sprite.t) (pool : list Sprite.t) :
  length (set_at i f pool) = length pool.
Proof.
  revert i. induction pool as [|s pool IH]; intros [|i]; simpl; auto.
Qed.

(** The sweep seen from an index on: with [done] sprites already used. *)
Lemma sweep_from {A : Type} (shown : A -> bool)
      (place : A -> Sprite.t -> Sprite.t) (items : list A) :
  forall (done rest : list Sprite.t),
    let seen := filter shown items in
    sweep shown place items (done ++ rest) (length done)
    = (done ++ map (fun '(a, s) => place a s) (combine seen rest)
            ++ skipn (length seen) rest,
       (length done + Nat.min (length seen) (length rest))%nat).
Proof.
  induction items as [|a items IH]; intros done rest; cbn [filter sweep].
  - cbn [combine map length skipn app]. rewrite Nat.add_0_r. reflexivity.
  - destruct (shown a); [|apply IH].
    rewrite length_app.
    destruct rest as [|s rest].
    + cbn [length]. rewrite Nat.add_0_r, Nat.ltb_irrefl.
      rewrite (IH done []). cbn [length].
      rewrite !combine_nil, !skipn_nil, !Nat.min_0_r. reflexivity.
    + assert (L : (length done <? length done + length (s :: rest))%nat = true)
        by (apply Nat.ltb_lt; cbn [length]; lia).
      rewrite L.
      assert (E : set_at (length done) (place a) (done ++ s :: rest)
                  = (done ++ [place a s]) ++ rest).
      { clear. induction done as [|d done IH]; simpl; [reflexivity|].
        now rewrite IH. }
      rewrite E.
      replace (S (length done)) with (length (done ++ [place a s]))
        by (rewrite length_app; cbn [length]; lia).
      rewrite IH. cbn [length combine map skipn app].
      rewrite <- !app_assoc. cbn [app].
      f_equal. rewrite length_app. cbn [length]. lia.
Qed.

Lemma hide_from_split (done rest : list Sprite.t) :
  hide_from (length done) (done ++ rest) = done ++ map Sprite.hide rest.
Proof.
  induction done as [|d done IH]; cbn [length app hide_from].
  - induction rest as [|s rest IH]; cbn [hide_from map]; [reflexivity|].
    now rewrite IH.
  - now rewrite IH.
Qed.

Lemma refresh_laid_out {A : Type} (shown : A -> bool)
      (place : A -> Sprite.t -> Sprite.t) (items : list A)
      (pool : list Sprite.t) :
  refresh shown place items pool = Screen.laid_out shown place items pool.
Proof.
  unfold refresh, Screen.laid_out.
  pose proof (sweep_from shown place items [] pool) as S.
  cbn [app length] in S. rewrite S. cbn [Nat.add].
  set (seen := filter shown items).
  set (placed := map (fun '(a, s) => place a s) (combine seen pool)).
  assert (L : length placed = Nat.min (length seen) (length pool)).
  { unfold placed. now rewrite length_map, length_combine. }
  rewrite <- L. apply hide_from_split.
Qed.

End PoolFacts.

Module DrawFacts.
Import Screen.

Lemma show_at_plain (nx ny : Z) (k : option Z) (s : Sprite.t) :
  Sprite.show_at nx ny k s
  = Sprite.mk nx ny false
              (match k with Some t => t | None => Sprite.tile s end)
              (Sprite.flip_x s).
Proof.
  unfold Sprite.show_at. destruct s as [sx sy h t f]. cbn [Sprite.x Sprite.y].
  destruct (sx =? nx)%Z eqn:X; destruct (sy =? ny)%Z eqn:Y; cbn [negb orb];
    try apply Z.eqb_eq in X; try apply Z.eqb_eq in Y; subst;
    cbn [Sprite.hidden Sprite.x Sprite.y Sprite.tile Sprite.flip_x];
    destruct h; cbn [Sprite.hidden Sprite.x Sprite.y Sprite.tile Sprite.flip_x];
    destruct k; reflexivity.
Qed.

Lemma hide_hidden (s : Sprite.t) : Sprite.hidden (Sprite.hide s) = true.
Proof.
  unfold Sprite.hide. destruct (Sprite.hidden s) eqn:H; cbn [negb]; auto.
Qed.

Lemma laid_out_length {A : Type} (shown : A -> bool)
      (place : A -> Sprite.t -> Sprite.t) (items : list A)
      (pool : list Sprite.t) :
  length (laid_out shown place items pool) = length pool.
Proof.
  unfold laid_out.
  rewrite length_app, !length_map, length_combine, length_skipn. lia.
Qed.

Lemma laid_out_ext {A : Type} (shown : A -> bool)
      (place place' : A -> Sprite.t -> Sprite.t) (items : list A)
      (pool : list Sprite.t) :
  (forall a s, place a s = place' a s) ->
  laid_out shown place items pool = laid_out shown place' items pool.
Proof.
  intro E. unfold laid_out. f_equal.
  apply map_ext. intros [a s]. apply E.
Qed.

Lemma laid_out_on_show {A : Type} (shown : A -> bool)
      (place : A -> Sprite.t -> Sprite.t) (items : list A)
      (pool : list Sprite.t) :
  (forall a s, Sprite.hidden (place a s) = false) ->
  on_show (laid_out shown place items pool)
  = Nat.min (length (filter shown items)) (length pool).
Proof.
  intro V. unfold on_show, laid_out.
  rewrite filter_app, length_app.
  set (seen := filter shown items).
  assert (P : forall l : list (A * Sprite.t),
             filter (fun s => negb (Sprite.hidden s))
                    (map (fun '(a, s) => place a s) l)
             = map (fun '(a, s) => place a s) l).
  { induction l as [|[a s] l IH]; cbn [map filter]; [reflexivity|].
    now rewrite V, IH. }
  assert (H : forall l : list Sprite.t,
             filter (fun s => negb (Sprite.hidden s)) (map Sprite.hide l) = []).
  { induction l as [|s l IH]; cbn [map filter]; [reflexivity|].
    now rewrite hide_hidden. }
  rewrite P, H, length_map, length_combine. cbn [length]. lia.
Qed.

Lemma place_platform_visible (loaded : bool) (cam : Camera.t) (p : Platform.t)
      (s : Sprite.t) :
  Sprite.hidden (place_platform loaded cam p s) = false.
Proof. unfold place_platform. now rewrite show_at_plain. Qed.

Lemma place_enemy_visible (loaded : bool) (cam : Camera.t) (e : Enemy.t)
      (s : Sprite.t) :
  Sprite.hidden (place_enemy loaded cam e s) = false.
Proof. unfold place_enemy. now rewrite show_at_plain. Qed.

Lemma place_coin_visible (cam : Camera.t) (c : Coin.t) (s : Sprite.t) :
  Sprite.hidden (place_coin cam c s) = false.
Proof. unfold place_coin. now rewrite show_at_plain. Qed.

Lemma draw_pools (g : Game.t) (sc : t) :
  platform_sprites (draw g sc)
  = laid_out (platform_shown (Game.camera g))
             (place_platform (sprites_loaded sc) (Game.camera g))
             (Level.platforms (Game.level g)) (platform_sprites sc) /\
  enemy_sprites (draw g sc)
  = laid_out (enemy_shown (Game.camera g))
             (place_enemy (sprites_loaded sc) (Game.camera g))
             (Level.enemies (Game.level g)) (enemy_sprites sc) /\
  coin_sprites (draw g sc)
  = laid_out (coin_shown (Game.camera g)) (place_coin (Game.camera g))
             (Level.coins (Game.level g)) (coin_sprites sc).
Proof.
  unfold draw. destruct (draw_mario g sc) as [[ms lf] lp].
  cbn [platform_sprites enemy_sprites coin_sprites].
  rewrite !PoolFacts.refresh_laid_out. auto.
Qed.

End DrawFacts.

(** X18. One call of [draw] lays each pool out afresh: the platforms in the
    visibility window, in the order of the level's list, take the first
    sprites of the platform pool, each shown at the platform's position
    relative to the camera, and every sprite left over is hidden; the same
    for the live enemies and the uncollected coins.  The pools keep their
    sizes, and the sprites on show are as many as the entities in the
    window, or the whole pool when there are more. *)
Theorem draw_lays_out_the_pools (g : Game.t) (sc : Screen.t) :
  let cam := Game.camera g in
  let loaded := Screen.sprites_loaded sc in
  let sc' := Screen.draw g sc in
  (Screen.platform_sprites sc'
   = Screen.laid_out (Screen.platform_shown cam)
       (fun p s =>
          Sprite.mk (py_int (F64.sub (Platform.x p) (Camera.x cam)))
                    (py_int (Platform.y p)) false
                    (if loaded then Screen.TILE_MAP (Platform.block_type p)
                     else Sprite.tile s)
                    (Sprite.flip_x s))
       (Level.platforms (Game.level g)) (Screen.platform_sprites sc) /\
   Screen.enemy_sprites sc'
   = Screen.laid_out (Screen.enemy_shown cam)
       (fun e s =>
          Sprite.mk (py_int (F64.sub (Enemy.x e) (Camera.x cam))) (py_int (Enemy.y e))
                    false
                    (if loaded then Enemy.sprite_frame e else Sprite.tile s)
                    (Sprite.flip_x s))
       (Level.enemies (Game.level g)) (Screen.enemy_sprites sc) /\
   Screen.coin_sprites sc'
   = Screen.laid_out (Screen.coin_shown cam)
       (fun c s =>
          Sprite.mk (py_int (F64.sub (Coin.x c) (Camera.x cam))) (py_int (Coin.y c))
                    false (Sprite.tile s) (Sprite.flip_x s))
       (Level.coins (Game.level g)) (Screen.coin_sprites sc)) /\
  (length (Screen.platform_sprites sc') = length (Screen.platform_sprites sc) /\
   length (Screen.enemy_sprites sc') = length (Screen.enemy_sprites sc) /\
   length (Screen.coin_sprites sc') = length (Screen.coin_sprites sc)) /\
  (Screen.on_show (Screen.platform_sprites sc')
   = Nat.min (length (filter (Screen.platform_shown cam)
                             (Level.platforms (Game.level g))))
             (length (Screen.platform_sprites sc)) /\
   Screen.on_show (Screen.enemy_sprites sc')
   = Nat.min (length (filter (Screen.enemy_shown cam)
                             (Level.enemies (Game.level g))))
             (length (Screen.enemy_sprites sc)) /\
   Screen.on_show (Screen.coin_sprites sc')
   = Nat.min (length (filter (Screen.coin_shown cam)
                             (Level.coins (Game.level g))))
             (length (Screen.coin_sprites sc))).
Proof.
  intros cam loaded sc'.
  destruct (DrawFacts.draw_pools g sc) as (P & E & C).
  fold sc' cam loaded in P, E, C.
  split; [|split].
  - rewrite P, E, C.
    split; [|split]; apply DrawFacts.laid_out_ext; intros a s;
      unfold Screen.place_platform, Screen.place_enemy, Screen.place_coin;
      rewrite DrawFacts.show_at_plain; destruct loaded; reflexivity.
  - rewrite P, E, C, !DrawFacts.laid_out_length. auto.
  - rewrite P, E, C.
    rewrite (DrawFacts.laid_out_on_show _ _ _ _
               (DrawFacts.place_platform_visible loaded cam)).
    rewrite (DrawFacts.laid_out_on_show _ _ _ _
               (DrawFacts.place_enemy_visible loaded cam)).
    rewrite (DrawFacts.laid_out_on_show _ _ _ _
               (DrawFacts.place_coin_visible cam)).
    auto.
Qed.

(** ** Room in the pools *)

Module RoomFacts.
Import Game.

Lemma filter_length_le {A : Type} (f g : A -> bool) (l : list A) :
  (forall a, f a = true -> g a = true) ->
  (length (filter f l) <= length (filter g l))%nat.
Proof.
  intro H. induction l as [|a l IH]; cbn [filter length]; [lia|].
  destruct (f a) eqn:F.
  - rewrite (H a F). cbn [length]. lia.
  - destruct (g a); cbn [length]; lia.
Qed.

Lemma filter_length (A : Type) (f : A -> bool) (l : list A) :
  (length (filter f l) <= length l)%nat.
Proof.
  induction l as [|a l IH]; cbn [filter length]; [lia|].
  destruct (f a); cbn [length]; lia.
Qed.

Lemma floor_in_range (cam : Camera.t) :
  Camera.in_range cam -> (0 <= Qfloor (Camera.x cam) <= 1960)%Z.
Proof.
  intros (Lo & Hi & _).
  split.
  - change 0%Z with (Qfloor (inject_Z 0)).
    apply Qfloor_resp_le. exact Lo.
  - change 1960%Z with (Qfloor (inject_Z 1960)).
    apply Qfloor_resp_le. exact Hi.
Qed.

(** The float edges of the visibility window lie within the whole-number
    window around the camera. *)
Lemma window_edges (cam : Camera.t) :
  Camera.in_range cam ->
  inject_Z (Qfloor (Camera.x cam)) - 64 <= Screen.visible_left cam /\
  Screen.visible_right cam
  <= inject_Z (Qfloor (Camera.x cam)) + 1 + inject_Z DISPLAY_WIDTH + 64.
Proof.
  intro R. pose proof (floor_in_range cam R) as K.
  pose proof (Qfloor_le (Camera.x cam)) as Lo.
  pose proof (Qlt_floor (Camera.x cam)) as Hi.
  rewrite inject_Z_plus in Hi. change (inject_Z 1) with 1 in Hi.
  set (k := Qfloor (Camera.x cam)) in *.
  unfold Screen.visible_left, Screen.visible_right, F64.sub, F64.add.
  assert (E1 : inject_Z k - 64 == inject_Z (k - 64))
    by (unfold Zminus; rewrite inject_Z_plus; reflexivity).
  assert (E2 : inject_Z k + 1 + inject_Z DISPLAY_WIDTH == inject_Z (k + 241))
    by (rewrite inject_Z_plus; unfold DISPLAY_WIDTH; change (inject_Z 241) with 241;
        change (inject_Z 240) with 240; ring).
  assert (E3 : inject_Z (k + 241) + 64 == inject_Z (k + 305))
    by (rewrite !inject_Z_plus; change (inject_Z 241) with 241;
        change (inject_Z 305) with 305; ring).
  split.
  - rewrite E1, <- (F64Facts.fl_Z (k - 64)) by lia.
    apply F64Facts.fl_mono. rewrite <- E1. lra.
  - rewrite E2, E3, <- (F64Facts.fl_Z (k + 305)) by lia.
    apply F64Facts.fl_mono. rewrite <- E3.
    apply Qplus_le_compat; [|lra].
    rewrite <- (F64Facts.fl_Z (k + 241)) by lia.
    apply F64Facts.fl_mono. rewrite <- E2. lra.
Qed.

Lemma shown_wide (cam : Camera.t) (p : Platform.t) :
  Camera.in_range cam ->
  Screen.platform_shown cam p = true ->
  Window.wide (Qfloor (Camera.x cam)) p = true.
Proof.
  intros R S. destruct (window_edges cam R) as [L H].
  unfold Screen.platform_shown in S. unfold Window.wide.
  order_facts.
  apply andb_true_iff. split; [apply Qgtb_gt | apply Qltb_lt]; [|lra].
  apply Qnot_le_lt. intro C.
  pose proof (floor_in_range cam R) as K.
  assert (E1 : inject_Z (Qfloor (Camera.x cam)) - 64
               == inject_Z (Qfloor (Camera.x cam) - 64))
    by (unfold Zminus; rewrite inject_Z_plus; reflexivity).
  pose proof (F64Facts.fl_mono _ _ C) as M.
  rewrite E1, F64Facts.fl_Z in M by lia. rewrite <- E1 in M.
  unfold F64.add in *. lra.
Qed.

Lemma crowded_bound (platforms : list Platform.t) (cap : nat) :
  Window.crowded platforms cap = true ->
  forall k, (0 <= k <= 1960)%Z ->
            (length (filter (Window.wide k) platforms) <= cap)%nat.
Proof.
  unfold Window.crowded. intros C k B.
  rewrite forallb_forall in C.
  specialize (C (Z.to_nat k)).
  rewrite Z2Nat.id in C by lia.
  apply Nat.leb_le. apply C. apply in_seq.
  change (0 + 1961)%nat with (Z.to_nat 1961). lia.
Qed.

Lemma level_not_crowded : Window.crowded Level.create_platforms 40 = true.
Proof. vm_compute. reflexivity. Qed.

(** At most 40 of the level's platforms are in the window of a camera in
    the scroll range. *)
Lemma platforms_in_window (cam : Camera.t) :
  Camera.in_range cam ->
  (length (filter (Screen.platform_shown cam) Level.create_platforms) <= 40)%nat.
Proof.
  intro R. pose proof (floor_in_range cam R) as F.
  eapply Nat.le_trans;
    [|exact (crowded_bound _ _ level_not_crowded _ F)].
  apply filter_length_le. intro p. now apply shown_wide.
Qed.

Lemma update_enemies_camera (g : t) : camera (update_enemies g) = camera g.
Proof.
  apply (GameFacts.update_enemies_keeps (fun h => camera h = camera g)); auto.
Qed.

Lemma update_coins_camera (g : t) :
  camera (update_coins g) = camera g /\
  length (Level.coins (level (update_coins g)))
  = length (Level.coins (level g)).
Proof.
  pose proof (CoinFacts.coins_loop_grows (mario g) (Level.coins (level g))
                (score g) (coins g)) as G.
  unfold update_coins. destruct (coins_loop _ _ _ _) as [[cs sc] cn].
  cbn [fst] in G. apply Forall2_length in G. cbn. auto.
Qed.

Lemma check_level_complete_camera (g : t) :
  camera (check_level_complete g) = camera g.
Proof.
  unfold check_level_complete.
  destruct (negb (level_complete g) && Qgeb _ _); reflexivity.
Qed.

Lemma init_in_shape (imu : IMU.t) : Window.in_shape (init imu).
Proof.
  unfold Window.in_shape. cbn [init level camera Level.init Level.platforms
                               Level.enemies Level.coins].
  split; [reflexivity|]. split; [cbn; lia|]. split; [reflexivity|].
  exact CameraFacts.init_in_range.
Qed.

Lemma update_in_shape (g : t) (inp : frame_input) :
  Window.in_shape g -> Window.in_shape (update g inp).
Proof.
  intros S. unfold update.
  destruct (game_over g); [exact S|].
  destruct (celebrating g).
  - unfold countdown. destruct (victory_timer g - 1 =? 0)%Z; [|exact S].
    apply (init_in_shape (imu_control g)).
  - destruct S as (P & E & C & R).
    rewrite GameFacts.fall_death_idle. unfold before_fall_death.
    set (g2 := follow (move_player (read_controls g inp))).
    unfold Window.in_shape.
    rewrite LevelFacts.check_level_complete_level, check_level_complete_camera.
    destruct (LevelFacts.update_coins_level (update_enemies g2)) as [P3 E3].
    destruct (update_coins_camera (update_enemies g2)) as [C3 K3].
    rewrite P3, E3, C3, K3, LevelFacts.update_enemies_platforms,
      CoinFacts.update_enemies_coins, update_enemies_camera.
    split; [exact P|].
    split; [pose proof (LevelFacts.update_enemies_length g2) as L;
            change (Level.enemies (level g2)) with (Level.enemies (level g)) in L;
            lia|].
    split; [exact C|].
    unfold g2, follow. cbn [camera].
    apply CameraFacts.update_in_range. exact R.
Qed.

Lemma run_in_shape (fs : list (bool * frame_input)) :
  forall g, Window.in_shape g -> Window.in_shape (run g fs).
Proof.
  induction fs as [|f fs IH]; intros g S; simpl; [exact S|].
  destruct (game_over g); [exact S|].
  apply IH. unfold frame. apply update_in_shape. exact S.
Qed.

End RoomFacts.

(** X19. The pools are large enough for this game.  Along any run of the
    main loop from the start, at most 40 platforms, 7 enemies and 8 coins
    are in the visibility window, against pools of 75, 10 and 20 sprites;
    so [draw], on a screen with the pools of [setup_sprite_pools], shows
    every platform, live enemy and uncollected coin that is in the window:
    none is dropped for want of a sprite. *)
Theorem pools_have_room_for_the_level
  (imu : IMU.t) (fs : list (bool * Game.frame_input)) (sc : Screen.t) :
  length (Screen.platform_sprites sc) = 75%nat ->
  length (Screen.enemy_sprites sc) = 10%nat ->
  length (Screen.coin_sprites sc) = 20%nat ->
  let g := Game.run (Game.init imu) fs in
  let cam := Game.camera g in
  let platforms := filter (Screen.platform_shown cam)
                          (Level.platforms (Game.level g)) in
  let enemies := filter (Screen.enemy_shown cam)
                        (Level.enemies (Game.level g)) in
  let coins := filter (Screen.coin_shown cam) (Level.coins (Game.level g)) in
  (length platforms <= 40 /\ length enemies <= 7 /\ length coins <= 8)%nat /\
  Screen.on_show (Screen.platform_sprites (Screen.draw g sc)) = length platforms /\
  Screen.on_show (Screen.enemy_sprites (Screen.draw g sc)) = length enemies /\
  Screen.on_show (Screen.coin_sprites (Screen.draw g sc)) = length coins.
Proof.
  intros LP LE LC g cam platforms enemies coins.
  destruct (RoomFacts.run_in_shape fs (Game.init imu)
              (RoomFacts.init_in_shape imu)) as (P & E & C & R).
  fold g in P, E, C, R. fold cam in R.
  assert (BP : (length platforms <= 40)%nat).
  { unfold platforms. rewrite P. now apply RoomFacts.platforms_in_window. }
  assert (BE : (length enemies <= 7)%nat).
  { unfold enemies.
    pose proof (RoomFacts.filter_length _ (Screen.enemy_shown cam)
                  (Level.enemies (Game.level g))). lia. }
  assert (BC : (length coins <= 8)%nat).
  { unfold coins.
    pose proof (RoomFacts.filter_length _ (Screen.coin_shown cam)
                  (Level.coins (Game.level g))). lia. }
  split; [auto|].
  destruct (DrawFacts.draw_pools g sc) as (DP & DE & DC).
  rewrite DP, DE, DC.
  rewrite (DrawFacts.laid_out_on_show _ _ _ _
             (DrawFacts.place_platform_visible _ _)).
  rewrite (DrawFacts.laid_out_on_show _ _ _ _
             (DrawFacts.place_enemy_visible _ _)).
  rewrite (DrawFacts.laid_out_on_show _ _ _ _
             (DrawFacts.place_coin_visible _)).
  fold cam. fold platforms enemies coins. rewrite LP, LE, LC.
  repeat split; lia.
Qed.

Lemma pools_have_room_for_the_level_witness :
  let g := Game.run (Game.init (IMU.fresh true)) [(true, Game.idle_input)] in
  let sc := Screen.setup true in
  let cam := Game.camera g in
  let platforms := filter (Screen.platform_shown cam)
                          (Level.platforms (Game.level g)) in
  let enemies := filter (Screen.enemy_shown cam)
                        (Level.enemies (Game.level g)) in
  let coins := filter (Screen.coin_shown cam) (Level.coins (Game.level g)) in
  (length platforms <= 40 /\ length enemies <= 7 /\ length coins <= 8)%nat /\
  Screen.on_show (Screen.platform_sprites (Screen.draw g sc)) = length platforms /\
  Screen.on_show (Screen.enemy_sprites (Screen.draw g sc)) = length enemies /\
  Screen.on_show (Screen.coin_sprites (Screen.draw g sc)) = length coins.
Proof.
  intros g sc.
  apply (pools_have_room_for_the_level (IMU.fresh true)
           [(true, Game.idle_input)] sc); reflexivity.
Defined.

(** ** The player's sprite *)

Module PlayerSpriteFacts.
Import Screen.

Lemma draw_mario_fields (g : Game.t) (sc : t) :
  mario_sprite (draw g sc) = fst (fst (draw_mario g sc)) /\
  last_mario_frame (draw g sc) = snd (fst (draw_mario g sc)) /\
  last_mario_flip (draw g sc) = snd (draw_mario g sc) /\
  sprites_loaded (draw g sc) = sprites_loaded sc.
Proof.
  unfold draw. destruct (draw_mario g sc) as [[ms lf] lp]. auto.
Qed.

End PlayerSpriteFacts.

(** X20. [draw] keeps the player's sprite on the player.  When the player
    is not invincible, or in the first half of each ten frames of
    invincibility, the sprite is shown at the player's position relative to
    the camera and, with the sheets loaded, carries the player's frame and
    is flipped exactly when he faces left: writing the frame and the flip
    only when they differ from the remembered ones never leaves a stale
    one.  Otherwise the sprite is hidden and nothing else of it changes. *)
Theorem player_sprite_follows_the_player (g : Game.t) (sc : Screen.t) :
  Screen.remembered sc ->
  Mario.sprite_frame (Game.mario g) <> (-1)%Z ->
  let m := Game.mario g in
  let s := Screen.mario_sprite sc in
  let s' := Screen.mario_sprite (Screen.draw g sc) in
  Screen.remembered (Screen.draw g sc) /\
  (Screen.mario_shown m = true ->
   Sprite.hidden s' = false /\
   Sprite.x s' = py_int (F64.sub (Mario.x m) (Camera.x (Game.camera g))) /\
   Sprite.y s' = py_int (Mario.y m) /\
   (Screen.sprites_loaded sc = true ->
    Sprite.tile s' = Mario.sprite_frame m /\
    Sprite.flip_x s' = negb (Mario.facing_right m))) /\
  (Screen.mario_shown m = false ->
   s' = Sprite.mk (Sprite.x s) (Sprite.y s) true (Sprite.tile s)
                  (Sprite.flip_x s)) /\
  (Mario.invincible m = 0%Z -> Screen.mario_shown m = true).
Proof.
  intros [RF RP] NF m s s'.
  destruct (PlayerSpriteFacts.draw_mario_fields g sc) as (Es & Ef & Ep & _).
  subst s'. unfold Screen.remembered. rewrite Es, Ef, Ep. clear Es Ef Ep.
  fold s in RF, RP. fold m in NF.
  assert (Free : Mario.invincible m = 0%Z -> Screen.mario_shown m = true).
  { intro Z0. unfold Screen.mario_shown. rewrite Z0. reflexivity. }
  unfold Screen.draw_mario. fold m. fold s.
  destruct (Screen.mario_shown m).
  - destruct (Screen.sprites_loaded sc).
    + assert (T : forall f : bool,
                 Screen.last_mario_flip sc = Some f -> f = Sprite.flip_x s).
      { intros f E. rewrite E in RP. destruct RP as [RP | RP];
          [discriminate | now inversion RP]. }
      destruct (negb (Mario.sprite_frame m =? Screen.last_mario_frame sc)%Z)
        eqn:F.
      * destruct (Screen.last_mario_flip sc) as [f|] eqn:LP;
          [destruct (eqb (negb (Mario.facing_right m)) f) eqn:B|];
          cbn [fst snd Sprite.x Sprite.y Sprite.hidden Sprite.tile
               Sprite.flip_x];
          try (apply eqb_prop in B; pose proof (T f eq_refl));
          repeat split; auto; try discriminate; try congruence.
      * apply negb_false_iff in F. apply Z.eqb_eq in F.
        assert (K : Sprite.tile s = Mario.sprite_frame m).
        { destruct RF as [RF | RF]; congruence. }
        destruct (Screen.last_mario_flip sc) as [f|] eqn:LP;
          [destruct (eqb (negb (Mario.facing_right m)) f) eqn:B|];
          cbn [fst snd Sprite.x Sprite.y Sprite.hidden Sprite.tile
               Sprite.flip_x];
          try (apply eqb_prop in B; pose proof (T f eq_refl));
          repeat split; auto; try discriminate; try congruence.
    + cbn [fst snd Sprite.x Sprite.y Sprite.hidden Sprite.tile Sprite.flip_x].
      repeat split; auto; discriminate.
  - cbn [fst snd Sprite.x Sprite.y Sprite.hidden Sprite.tile Sprite.flip_x].
    repeat split; auto; discriminate.
Qed.

Lemma player_sprite_follows_the_player_witness :
  let g := Game.init (IMU.fresh true) in
  let sc := Screen.setup true in
  let s' := Screen.mario_sprite (Screen.draw g sc) in
  Sprite.hidden s' = false /\
  Sprite.x s' = py_int (F64.sub 40 0) /\
  Sprite.y s' = py_int GROUND_Y /\
  Sprite.tile s' = 0%Z /\
  Sprite.flip_x s' = false.
Proof.
  intros g sc s'.
  destruct (player_sprite_follows_the_player g sc) as (_ & Shown & _ & Free).
  - split; [left | left]; reflexivity.
  - discriminate.
  - destruct Shown as (H & X & Y & L); [apply Free; reflexivity|].
    destruct L as [T F]; [reflexivity|].
    repeat split; assumption.
Defined.

(** ** Standing *)

Module StandFacts.
Import Mario.

Lemma before_collisions_standing (m : t) (imu : IMU.t) :
  on_ground m = true ->
  IMU.jump imu = false ->
  vel_y (before_collisions m imu) = vel_y m.
Proof.
  intros G J. unfold before_collisions, integrate. cbn [vel_y].
  destruct (JumpingFacts.tick_on_ground m) as [G0 _].
  destruct (JumpingFacts.steer_on_ground (tick_invincible m) imu) as [G1 _].
  set (m' := steer (tick_invincible m) imu) in *.
  assert (G' : on_ground m' = true) by congruence.
  unfold start_jump. rewrite J. cbn [andb].
  unfold airborne. rewrite G'. cbn [negb]. rewrite G'. cbn [negb].
  unfold m'.
  destruct (SpeedFacts.tick_vel m) as [_ V0].
  assert (V1 : forall n, vel_y (steer n imu) = vel_y n).
  { intro n. unfold steer.
    destruct (negb (Qeq_bool (IMU.tilt_value imu) 0));
      [destruct (on_ground n); [destruct (anim_counter n + 1 >? 5)%Z|]|];
      reflexivity. }
  now rewrite V1, V0.
Qed.

Lemma platform_loop_at_rest (m : t) (prev_y : Q) (ps : list Platform.t) :
  vel_y m = 0 -> platform_loop m prev_y ps = m.
Proof.
  intro V.
  destruct (MarioFacts.platform_loop_calls m prev_y ps) as [E | (p & _ & _ & C)];
    [exact E|].
  exfalso. unfold check_platform_collision in C. rewrite V in C.
  replace (Qgtb 0 0) with false in C by reflexivity.
  replace (Qltb 0 0) with false in C by reflexivity.
  rewrite !andb_false_r in C.
  destruct (overlaps m p); discriminate.
Qed.

End StandFacts.

(** X21. Only the ground plane holds a standing player.  Take a player
    that is on the ground with no vertical velocity and does not jump.  At
    or below ground level, [Mario.update] puts it on the ground plane with
    [on_ground] set.  Higher up, as on top of a platform, [Mario.update]
    leaves its height and its vertical velocity as they are and clears
    [on_ground], whatever the platforms are: landing needs a positive
    vertical velocity. *)
Theorem only_the_ground_plane_holds_the_player
  (m : Mario.t) (imu : IMU.t) (platforms : list Platform.t) :
  Mario.on_ground m = true ->
  Mario.vel_y m = 0 ->
  IMU.jump imu = false ->
  let m' := Mario.update m imu platforms in
  (Mario.y m < GROUND_Y ->
   Mario.on_ground m' = false /\ Mario.y m' == Mario.y m /\
   Mario.vel_y m' = 0) /\
  (GROUND_Y <= Mario.y m ->
   Mario.on_ground m' = true /\ Mario.y m' = GROUND_Y /\
   Mario.vel_y m' = 0).
Proof.
  intros G V J m'.
  pose proof (StandFacts.before_collisions_standing m imu G J) as V1.
  rewrite V in V1.
  pose proof (MarioFacts.before_collisions_y m imu) as Y1. rewrite V1 in Y1.
  unfold m', Mario.update.
  rewrite (StandFacts.platform_loop_at_rest _ _ _ V1).
  set (m1 := Mario.before_collisions m imu) in *.
  unfold Mario.ground_collision.
  split; intro H.
  - assert (K : Qgeb (Mario.y m1) GROUND_Y = false)
      by (apply Qgeb_lt; rewrite Y1; lra).
    rewrite K. split; [reflexivity|]. split; [rewrite Y1; ring | exact V1].
  - assert (K : Qgeb (Mario.y m1) GROUND_Y = true)
      by (apply Qgeb_ge; rewrite Y1; lra).
    rewrite K. cbn. auto.
Qed.

Lemma only_the_ground_plane_holds_the_player_witness :
  let on_block := Mario.mk 205 54 0 0 true true 16 16 false 0 0 0 false in
  let on_plane := Mario.mk 40 GROUND_Y 0 0 true true 16 16 false 0 0 0 false in
  let imu := IMU.fresh true in
  (Mario.on_ground (Mario.update on_block imu Level.create_platforms) = false /\
   Mario.y (Mario.update on_block imu Level.create_platforms) == 54 /\
   Mario.vel_y (Mario.update on_block imu Level.create_platforms) = 0) /\
  (Mario.on_ground (Mario.update on_plane imu Level.create_platforms) = true /\
   Mario.y (Mario.update on_plane imu Level.create_platforms) = GROUND_Y /\
   Mario.vel_y (Mario.update on_plane imu Level.create_platforms) = 0).
Proof.
  intros on_block on_plane imu.
  split.
  - apply (only_the_ground_plane_holds_the_player on_block imu
             Level.create_platforms); try reflexivity.
  - apply (only_the_ground_plane_holds_the_player on_plane imu
             Level.create_platforms); try reflexivity.
    vm_compute. discriminate.
Defined.

(** ** Score within a level *)

Module ScoreFacts.
Import Game.

Lemma update_enemies_score (g : t) :
  (score g <= score (update_enemies g))%Z /\
  coins (update_enemies g) = coins g.
Proof.
  split.
  - apply (GameFacts.update_enemies_keeps (fun h => (score g <= score h)%Z));
      [| | |lia].
    + intros h H. unfold stomp. cbn [score]. lia.
    + intros h H. exact H.
    + intros h es H. exact H.
  - apply (GameFacts.update_enemies_keeps (fun h => coins h = coins g)); auto.
Qed.

Lemma update_coins_score (g : t) :
  (score g <= score (update_coins g))%Z /\
  (coins g <= coins (update_coins g))%Z.
Proof.
  pose proof (CoinFacts.coins_loop_counts (mario g) (Level.coins (level g))
                (score g) (coins g)) as C.
  unfold update_coins. destruct (coins_loop _ _ _ _) as [[cs sc] cn].
  cbn [fst snd score coins] in *. lia.
Qed.

Lemma check_level_complete_score (g : t) :
  score (check_level_complete g) = score g /\
  coins (check_level_complete g) = coins g.
Proof.
  unfold check_level_complete.
  destruct (negb (level_complete g) && Qgeb _ _); auto.
Qed.

End ScoreFacts.

(** X22. Within a level the tallies only go up: a call of the session
    update that does not rebuild the level never lowers the score or the
    coin count. *)
Theorem score_never_falls_within_a_level (g : Game.t) (inp : Game.frame_input) :
  Game.resets g = false ->
  (Game.score g <= Game.score (Game.update g inp))%Z /\
  (Game.coins g <= Game.coins (Game.update g inp))%Z.
Proof.
  intro R. unfold Game.update, Game.resets in *.
  destruct (Game.game_over g); [lia|].
  destruct (Game.celebrating g).
  - simpl in R. unfold Game.countdown. rewrite R. cbn. lia.
  - rewrite GameFacts.fall_death_idle. unfold Game.before_fall_death.
    set (g2 := Game.follow (Game.move_player (Game.read_controls g inp))).
    destruct (ScoreFacts.check_level_complete_score
                (Game.update_coins (Game.update_enemies g2))) as [S4 C4].
    destruct (ScoreFacts.update_coins_score (Game.update_enemies g2))
      as [S3 C3].
    destruct (ScoreFacts.update_enemies_score g2) as [S2 C2].
    rewrite S4, C4.
    change (Game.score g2) with (Game.score g) in S2.
    change (Game.coins g2) with (Game.coins g) in C2.
    lia.
Qed.

Lemma score_never_falls_within_a_level_witness :
  let g := Game.above_enemy (IMU.fresh true) in
  (Game.score g <= Game.score (Game.update g Game.idle_input))%Z /\
  (Game.coins g <= Game.coins (Game.update g Game.idle_input))%Z.
Proof.
  intro g.
  apply (score_never_falls_within_a_level g Game.idle_input). reflexivity.
Defined.

(** ** Overlays *)

Module OverlayFacts.
Import Game.

Lemma hurt_agree (g : t) : Overlay.agree g -> Overlay.agree (hurt g).
Proof.
  intros (V & O & H). unfold Overlay.agree, hurt.
  cbn [victory_hidden game_over_hidden hud_hidden level_complete game_over].
  destruct (lives g - 1 <=? 0)%Z.
  - rewrite orb_true_r. auto.
  - auto.
Qed.

Lemma update_coins_agree (g : t) :
  Overlay.agree g -> Overlay.agree (update_coins g).
Proof.
  unfold update_coins. destruct (coins_loop _ _ _ _) as [[cs sc] cn]. auto.
Qed.

Lemma check_level_complete_agree (g : t) :
  Overlay.agree g -> Overlay.agree (check_level_complete g).
Proof.
  intros (V & O & H). unfold check_level_complete.
  destruct (negb (level_complete g) && Qgeb _ _); [|unfold Overlay.agree; auto].
  unfold Overlay.agree.
  cbn [victory_hidden game_over_hidden hud_hidden level_complete game_over].
  auto.
Qed.

Lemma update_agree (g : t) (inp : frame_input) :
  Overlay.agree g -> Overlay.agree (update g inp).
Proof.
  intro A. unfold update.
  destruct (game_over g); [exact A|].
  destruct (celebrating g).
  - unfold countdown. destruct (victory_timer g - 1 =? 0)%Z; [|exact A].
    unfold Overlay.agree. cbn. auto.
  - rewrite GameFacts.fall_death_idle. unfold before_fall_death.
    apply check_level_complete_agree, update_coins_agree.
    apply (GameFacts.update_enemies_keeps Overlay.agree); auto.
    apply hurt_agree.
Qed.

Lemma run_agree (fs : list (bool * frame_input)) :
  forall g, Overlay.agree g -> Overlay.agree (run g fs).
Proof.
  induction fs as [|f fs IH]; intros g A; simpl; [exact A|].
  destruct (game_over g); [exact A|].
  apply IH. unfold frame. apply update_agree. exact A.
Qed.

End OverlayFacts.

(** X23. Along any run of the main loop from the start of the game, the
    victory screen is visible exactly while [level_complete] is set, the
    game over screen exactly when [game_over] is set, and the HUD is hidden
    exactly when one of the two is up. *)
Theorem overlays_follow_the_session_state
  (imu : IMU.t) (fs : list (bool * Game.frame_input)) :
  let g := Game.run (Game.init imu) fs in
  Game.victory_hidden g = negb (Game.level_complete g) /\
  Game.game_over_hidden g = negb (Game.game_over g) /\
  Game.hud_hidden g = Game.level_complete g || Game.game_over g.
Proof.
  intro g. apply OverlayFacts.run_agree.
  unfold Overlay.agree. cbn. auto.
Qed.
